(** * Quantization kernels of [examples/models/llama2/quantize.py]

    A shallow embedding of the numeric core of the llama2 quantization
    script: the qparam choosers, the per-token and per-channel-group
    quantize / dequantize operators and the int4 nibble packing, together
    with the small part of the tensor library they rely on (shapes,
    row-major data, broadcasting, views, reductions over the last
    dimension).  Python exceptions are values of an error monad.  The
    kernels are generic in the arithmetic of the tensor elements; they are
    instantiated with exact rationals, where the numeric laws are proved,
    and with IEEE binary32, where they are run. *)

From Stdlib Require Import String.
From Stdlib Require Import ZArith List Bool Lia.
From Stdlib Require Import QArith Qminmax Qabs Qround Lqa.
From Stdlib Require Import Floats.SpecFloat.
Import ListNotations.

Set Implicit Arguments.
Local Open Scope Z_scope.

(** ** Python exceptions *)

Inductive exn : Type :=
| AssertionError (cond : string)
| Exception (msg : string)
| RuntimeError (msg : string)
| ZeroDivisionError
| IndexError.

Inductive result (A : Type) : Type :=
| Ok (a : A)
| Raise (e : exn).

Arguments Ok {A} a.
Arguments Raise {A} e.

Definition bind {A B} (m : result A) (k : A -> result B) : result B :=
  match m with
  | Ok a => k a
  | Raise e => Raise e
  end.

Declare Scope py_scope.
Delimit Scope py_scope with py.
Notation "x <- m ;; k" := (bind m (fun x => k))
  (at level 61, m at next level, right associativity) : py_scope.
Notation "' p <- m ;; k" := (bind m (fun x => let p := x in k))
  (at level 61, p pattern, m at next level, right associativity) : py_scope.
Notation "m ;;; k" := (bind m (fun _ => k))
  (at level 61, right associativity) : py_scope.
Local Open Scope py_scope.

(** [assert cond, msg]; the string records the asserted expression. *)
Definition assert (b : bool) (cond : string) : result unit :=
  if b then Ok tt else Raise (AssertionError cond).

(** Python's [a % b] and [a // b] on ints: floor semantics, as [Z.modulo]
    and [Z.div], but a zero divisor raises. *)
Definition py_mod (a b : Z) : result Z :=
  if b =? 0 then Raise ZeroDivisionError else Ok (a mod b).

Definition py_floordiv (a b : Z) : result Z :=
  if b =? 0 then Raise ZeroDivisionError else Ok (a / b).

(** ** dtypes *)

Inductive dtype : Type :=
| int8 | uint8 | int16 | int32 | int64
| float16 | bfloat16 | float32 | float64.

Definition dtype_eqb (a b : dtype) : bool :=
  match a, b with
  | int8, int8 | uint8, uint8 | int16, int16 | int32, int32 | int64, int64
  | float16, float16 | bfloat16, bfloat16 | float32, float32
  | float64, float64 => true
  | _, _ => false
  end.

(** Two's complement wrap-around of a [w]-bit signed integer. *)
Definition wrap_signed (w : Z) (z : Z) : Z :=
  (z + 2 ^ (w - 1)) mod 2 ^ w - 2 ^ (w - 1).

(** Storing an integer into a tensor of integer dtype [dt]. *)
Definition wrap_int (dt : dtype) (z : Z) : Z :=
  match dt with
  | int8 => wrap_signed 8 z
  | uint8 => z mod 2 ^ 8
  | int16 => wrap_signed 16 z
  | int32 => wrap_signed 32 z
  | int64 => wrap_signed 64 z
  | _ => z
  end.

(** ** Element arithmetic

    The kernels are generic in the floating dtype of their input.  The
    class lists the element operations they use; [fcast] is the rounding
    done by [Tensor.to(dtype)], [f_of_Z] and [f_of_Q] inject Python ints
    and Python floats used as scalars. *)

Class Scalar (F : Type) : Type := {
  f_of_Z : Z -> F;
  f_of_Q : Q -> F;
  fadd : F -> F -> F;
  fsub : F -> F -> F;
  fmul : F -> F -> F;
  fdiv : F -> F -> F;
  fneg : F -> F;
  fabs : F -> F;
  fround : F -> F;
  fmin : F -> F -> F;
  fmax : F -> F -> F;
  fgtb : F -> F -> bool;
  fisnan : F -> bool;
  fcast : dtype -> F -> F;
  f_to_Z : F -> Z
}.

(** [torch.finfo(torch.float32).eps], that is 2^-23. *)
Definition float32_eps : Q := 1 # 8388608.

(** ** Tensors: a shape and the elements in row-major order *)

Record tensor (A : Type) : Type := mkTensor {
  shape : list nat;
  data : list A
}.

Arguments mkTensor {A} shape data.

Definition numel_of (sh : list nat) : nat := fold_right Nat.mul 1%nat sh.

Definition numel {A} (t : tensor A) : nat := numel_of (shape t).

Definition wf {A} (t : tensor A) : Prop :=
  length (data t) = numel_of (shape t).

Definition dim {A} (t : tensor A) : nat := length (shape t).

(** [size[-1]] *)
Definition last_size (sh : list nat) : result nat :=
  match rev sh with
  | [] => Raise IndexError
  | d :: _ => Ok d
  end.

(** [size[i]] for a non-negative index *)
Definition size_at (sh : list nat) (i : nat) : result nat :=
  match nth_error sh i with
  | Some d => Ok d
  | None => Raise IndexError
  end.

(** [k] consecutive pieces of [n] elements each. *)
Fixpoint chunks {A} (k n : nat) (xs : list A) : list (list A) :=
  match k with
  | O => []
  | S k' => firstn n xs :: chunks k' n (skipn n xs)
  end.

(** The slices along the last dimension ("rows", "tokens", "groups"). *)
Definition rows {A} (t : tensor A) : list (list A) :=
  match rev (shape t) with
  | [] => [data t]
  | d :: lead => chunks (numel_of lead) d (data t)
  end.

Definition tmap {A B} (f : A -> B) (t : tensor A) : tensor B :=
  mkTensor (shape t) (map f (data t)).

Fixpoint zip_with {A B C} (f : A -> B -> C) (xs : list A) (ys : list B)
  : list C :=
  match xs, ys with
  | x :: xs', y :: ys' => f x y :: zip_with f xs' ys'
  | _, _ => []
  end.

(** *** Broadcasting *)

Definition broadcast_dim (x y : nat) : result nat :=
  if (x =? y)%nat then Ok x
  else if (x =? 1)%nat then Ok y
  else if (y =? 1)%nat then Ok x
  else Raise (RuntimeError "The size of tensor a must match the size of tensor b").

(** Shapes aligned at the trailing dimension, given here reversed. *)
Fixpoint broadcast_rev (a b : list nat) : result (list nat) :=
  match a, b with
  | [], _ => Ok b
  | _, [] => Ok a
  | x :: a', y :: b' =>
      d <- broadcast_dim x y ;;
      r <- broadcast_rev a' b' ;;
      Ok (d :: r)
  end.

Definition broadcast_shapes (a b : list nat) : result (list nat) :=
  r <- broadcast_rev (rev a) (rev b) ;;
  Ok (rev r).

(** A shape extended on the left with 1s up to rank [n]. *)
Definition pad_shape (n : nat) (sh : list nat) : list nat :=
  repeat 1%nat (n - length sh) ++ sh.

(** The elements of a tensor of shape [src] expanded to shape [tgt] of the
    same rank (every dimension of [src] is the one of [tgt], or 1). *)
Fixpoint expand_data {A} (src tgt : list nat) (xs : list A) : list A :=
  match src, tgt with
  | d :: ds, e :: es =>
      let blocks := map (expand_data ds es) (chunks d (numel_of ds) xs) in
      if (d =? e)%nat then concat blocks
      else concat (repeat (concat blocks) e)
  | _, _ => xs
  end.

(** An elementwise binary operation, with broadcasting. *)
Definition tzip {A B C} (f : A -> B -> C) (a : tensor A) (b : tensor B)
  : result (tensor C) :=
  sh <- broadcast_shapes (shape a) (shape b) ;;
  let n := length sh in
  Ok (mkTensor sh
        (zip_with f
           (expand_data (pad_shape n (shape a)) sh (data a))
           (expand_data (pad_shape n (shape b)) sh (data b)))).

(** [torch.where(cond, a, b)] *)
Definition twhere {A} (c : tensor bool) (a b : tensor A) : result (tensor A) :=
  ab <- tzip pair a b ;;
  tzip (fun (k : bool) (p : A * A) => if k then fst p else snd p) c ab.

(** A dimension [d] can be expanded to [e]. *)
Definition compat_dim (d e : nat) : Prop := d = e \/ d = 1%nat.

(** *** Reductions over the last dimension *)

(** [t.<red>(dim=-1, keepdim=keepdim)] for a reduction without identity:
    an empty last dimension raises [e]. *)
Definition reduce_last {A B} (e : exn) (keepdim : bool) (f : list A -> B)
  (t : tensor A) : result (tensor B) :=
  match rev (shape t) with
  | [] => Ok (mkTensor [] (map f (rows t)))
  | d :: lead =>
      if (d =? 0)%nat then Raise e
      else Ok (mkTensor (rev lead ++ (if keepdim then [1%nat] else []))
                 (map f (rows t)))
  end.

(** *** Views *)

(** [t.view(sizes)] / [t.reshape(sizes)] with every size given. *)
Definition view {A} (t : tensor A) (sizes : list nat) : result (tensor A) :=
  if (numel_of sizes =? numel t)%nat then Ok (mkTensor sizes (data t))
  else Raise (RuntimeError "shape is invalid for input of size").

(** [t.view(before, -1, after)]: the size written -1 is inferred.  When the
    given sizes multiply to 0 nothing can be inferred and torch raises. *)
Definition view_infer {A} (t : tensor A) (before after : list nat)
  : result (tensor A) :=
  let known := (numel_of before * numel_of after)%nat in
  if (known =? 0)%nat then
    Raise (RuntimeError
             (if (numel t =? 0)%nat
              then "cannot reshape tensor of 0 elements: the unspecified dimension size -1 can be any value and is ambiguous"
              else "shape is invalid for input of size"))
  else if (numel t mod known =? 0)%nat then
    Ok (mkTensor (before ++ [(numel t / known)%nat] ++ after) (data t))
  else Raise (RuntimeError "shape is invalid for input of size").

(** [t.unsqueeze(-1)] *)
Definition unsqueeze_last {A} (t : tensor A) : tensor A :=
  mkTensor (shape t ++ [1%nat]) (data t).

(** [F.pad(t, (0, p))]: [p] copies of [zero] appended to every row. *)
Definition pad_last {A} (zero : A) (t : tensor A) (p : nat)
  : result (tensor A) :=
  match rev (shape t) with
  | [] => Raise (RuntimeError "Padding length should be less than or equal to two times the input dimension")
  | d :: lead =>
      Ok (mkTensor (rev lead ++ [(d + p)%nat])
            (concat (map (fun r => r ++ repeat zero p) (rows t))))
  end.

(** [t[:, :n]] *)
Definition slice_dim1 {A} (t : tensor A) (n : nat) : result (tensor A) :=
  match shape t with
  | a :: b :: rest =>
      Ok (mkTensor (a :: Nat.min n b :: rest)
            (concat (map (firstn (n * numel_of rest))
                       (chunks a (b * numel_of rest) (data t)))))
  | _ => Raise IndexError
  end.

(** [l[::2]] and [l[1::2]] *)
Fixpoint evens {A} (l : list A) : list A :=
  match l with
  | [] => []
  | [x] => [x]
  | x :: _ :: l' => x :: evens l'
  end.

Definition odds {A} (l : list A) : list A := evens (tl l).

(** [torch.stack([a, b], dim=-1)] *)
Definition stack_last {A} (a b : tensor A) : result (tensor A) :=
  if list_eq_dec Nat.eq_dec (shape a) (shape b) then
    Ok (mkTensor (shape a ++ [2%nat])
          (concat (zip_with (fun x y => [x; y]) (data a) (data b))))
  else Raise (RuntimeError "stack expects each tensor to be equal size").

(** Python's [2 ** e] for an int [e]: a float once [e] is negative. *)
Definition py_pow2 (e : Z) : Q :=
  if e <? 0 then (1 # Pos.pow 2 (Z.to_pos (- e)))%Q else inject_Z (2 ^ e).

(** ** The kernels *)

Section Kernels.

Context {F : Type} {SF : Scalar F}.

(** [_quant_min_max_bounds_check] is imported from
    [torch.ao.quantization.fx._decomposed]; it is a parameter here. *)
Variable _quant_min_max_bounds_check : Z -> Z -> dtype -> result unit.

Definition fzero : F := f_of_Z 0.

(** [x.clamp(min=lo)] and [x.clamp(lo, hi)] on one element *)
Definition fclamp_min (lo x : F) : F := fmax x lo.
Definition fclamp (lo hi x : F) : F := fmin (fmax x lo) hi.

Definition zeros_like {A} (t : tensor A) : tensor F := tmap (fun _ => fzero) t.
Definition full_like {A} (t : tensor A) (v : F) : tensor F := tmap (fun _ => v) t.

(** Maximum and minimum of a non-empty slice. *)
Definition list_amax (l : list F) : F :=
  match l with
  | [] => fzero
  | x :: l' => fold_left fmax l' x
  end.

Definition list_amin (l : list F) : F :=
  match l with
  | [] => fzero
  | x :: l' => fold_left fmin l' x
  end.

Definition amax_last (keepdim : bool) (t : tensor F) : result (tensor F) :=
  reduce_last IndexError keepdim list_amax t.

Definition amin_last (keepdim : bool) (t : tensor F) : result (tensor F) :=
  reduce_last IndexError keepdim list_amin t.

(** [torch.aminmax(t, dim=-1, keepdim=keepdim)]; like [amin] and [amax],
    it raises IndexError when the reduced dimension is empty. *)
Definition aminmax_last (keepdim : bool) (t : tensor F)
  : result (tensor F * tensor F) :=
  mn <- reduce_last IndexError keepdim list_amin t ;;
  mx <- reduce_last IndexError keepdim list_amax t ;;
  Ok (mn, mx).

(** [torch.isnan(t).sum()] *)
Definition count_nan (t : tensor F) : nat :=
  length (filter fisnan (data t)).

(** [v.clamp(quant_min, quant_max).to(dtype)] on an element that has been
    rounded: the value is integral, [f_to_Z] reads it off. *)
Definition clamp_to (quant_min quant_max : Z) (dt : dtype) (v : F) : Z :=
  wrap_int dt (f_to_Z (fclamp (f_of_Z quant_min) (f_of_Z quant_max) v)).

Definition dynamically_quantize_per_channel
  (x : tensor F) (quant_min quant_max : Z) (target_dtype : dtype)
  (group_size : option Z) (scales_dtype : dtype)
  (enable_non_multiple_groups : bool)
  : result (tensor Z * tensor F * tensor Z) :=
  x_shape_1 <- size_at (shape x) 1 ;;
  let n1 := Z.of_nat x_shape_1 in
  xi <-
    match group_size with
    | None => Ok (x, n1)
    | Some group_size =>
        if group_size =? 0 then Ok (x, n1)
        else if (n1 mod group_size =? 0) || negb enable_non_multiple_groups then
          assert (0 <? group_size) "group size must be positive" ;;;
          assert (n1 mod group_size =? 0)
            "weights dimension 1 must be a multiple of group size" ;;;
          Ok (x, group_size)
        else
          assert (0 <? group_size) "group size must be positive" ;;;
          assert (negb (n1 mod group_size =? 0))
            "expected x.shape[1] to not be a multiple of group size" ;;;
          let padding := group_size - n1 mod group_size in
          x <- pad_last fzero x (Z.to_nat padding) ;;
          Ok (x, group_size)
    end ;;
  let x := fst xi in
  let items := snd xi in
  let eps := f_of_Q float32_eps in
  s0 <- size_at (shape x) 0 ;;
  s1 <- size_at (shape x) 1 ;;
  g <- py_floordiv (Z.of_nat s1) items ;;
  x <- view x [s0; Z.to_nat g; Z.to_nat items] ;;
  mm <- aminmax_last false x ;;
  let min_val := fst mm in
  let max_val := snd mm in
  min_val_neg <- tzip fmin min_val (zeros_like min_val) ;;
  max_val_pos <- tzip fmax max_val (zeros_like max_val) ;;
  max_val_pos <- tzip fmax (tmap fneg min_val_neg) max_val_pos ;;
  let scales :=
    tmap (fun v => fdiv v (f_of_Q (inject_Z (quant_max - quant_min) / 2)))
      max_val_pos in
  (* [.to(x.dtype)] leaves [scales] as it is: it already has x's dtype *)
  let scales := tmap (fclamp_min eps) scales in
  let zero_points : tensor Z := tmap (fun _ => 0) min_val_neg in
  x_div <- tzip fdiv x (unsqueeze_last scales) ;;
  let x_round := tmap fround x_div in
  x_zp <- tzip fadd x_round (tmap f_of_Z (unsqueeze_last zero_points)) ;;
  s0 <- size_at (shape x) 0 ;;
  quant <- view_infer (tmap (clamp_to quant_min quant_max target_dtype) x_zp)
             [s0] [] ;;
  let scales := tmap (fcast scales_dtype) scales in
  quant <- slice_dim1 quant x_shape_1 ;;
  Ok (quant, scales, zero_points).

Definition choose_qparams_per_token (input : tensor F) (dtype_ : dtype)
  : result (tensor F * tensor F) :=
  scales <- amax_last true (tmap fabs input) ;;
  (* float16 scales are widened to float32 here, which keeps every value *)
  quant_max <-
    (if dtype_eqb dtype_ int8 then
       let n_bits := 8 in Ok (2 ^ (n_bits - 1) - 1)
     else Raise (Exception "unsupported dtype in choose_qparams_per_token")) ;;
  let scales :=
    tmap (fun v => fdiv (fclamp_min (f_of_Q (1 # 100000)) v) (f_of_Z quant_max))
      scales in
  let zero_points := zeros_like scales in
  Ok (scales, zero_points).

Definition choose_qparams_per_token_asymmetric (input : tensor F)
  (dtype_ : dtype) : result (tensor F * tensor F) :=
  let qmin := -128 in
  let qmax := 127 in
  mm <- aminmax_last true input ;;
  let min_val := fst mm in
  let max_val := snd mm in
  min_val_neg <- tzip fmin min_val (zeros_like min_val) ;;
  max_val_pos <- tzip fmax max_val (zeros_like max_val) ;;
  let eps := f_of_Q float32_eps in
  scale <- tzip fsub max_val_pos min_val_neg ;;
  let scale := tmap (fun v => fdiv v (f_of_Z (qmax - qmin))) scale in
  let scale := tmap (fclamp_min eps) scale in
  descaled_min <- tzip fdiv min_val_neg scale ;;
  descaled_max <- tzip fdiv max_val_pos scale ;;
  let zero_point_from_min_error := tmap (fadd (f_of_Z qmin)) descaled_min in
  let zero_point_from_max_error := tmap (fadd (f_of_Z qmax)) descaled_max in
  err <- tzip fadd zero_point_from_min_error zero_point_from_max_error ;;
  zero_point <-
    twhere (tmap (fun v => fgtb v (f_of_Z 0)) err)
      (tmap (fsub (f_of_Z qmin)) descaled_min)
      (tmap (fsub (f_of_Z qmax)) descaled_max) ;;
  let zero_point :=
    tmap (fun v => fround (fclamp (f_of_Z qmin) (f_of_Z qmax) v)) zero_point in
  Ok (tmap (fcast float32) scale, tmap (fcast float32) zero_point).

Definition _per_token_quant_qparam_dim_check {A B C}
  (input : tensor A) (scales : tensor B) (zero_points : tensor C)
  : result unit :=
  let num_tokens := numel_of (removelast (shape input)) in
  assert (num_tokens =? numel scales)%nat "num_tokens == scales.numel()" ;;;
  assert (num_tokens =? numel zero_points)%nat
    "num_tokens == zero_points.numel()".

Definition quantize_per_token (input scales zero_points : tensor F)
  (quant_min quant_max : Z) (dtype_ : dtype) : result (tensor Z) :=
  _quant_min_max_bounds_check quant_min quant_max dtype_ ;;;
  _per_token_quant_qparam_dim_check input scales zero_points ;;;
  q <- tzip fdiv input scales ;;
  q <- tzip fadd q zero_points ;;
  Ok (tmap (fun v => clamp_to quant_min quant_max dtype_ (fround v)) q).

Definition dequantize_per_token (input : tensor Z)
  (scales zero_points : tensor F) (quant_min quant_max : Z)
  (dtype_ output_dtype : dtype) : result (tensor F) :=
  input <- tzip fsub (tmap f_of_Z input) zero_points ;;
  input <- tzip fmul (tmap (fcast output_dtype) input) scales ;;
  Ok input.

Definition get_group_qparams_symmetric (w : tensor F) (n_bit groupsize : Z)
  (precision : dtype) : result (tensor F * tensor F) :=
  w_last <- last_size (shape w) ;;
  let groupsize :=
    if Z.of_nat w_last <? groupsize then Z.of_nat w_last else groupsize in
  assert (1 <? groupsize) "groupsize > 1" ;;;
  m <- py_mod (Z.of_nat w_last) groupsize ;;
  assert (m =? 0) "w.shape[-1] % groupsize == 0" ;;;
  assert (dim w =? 2)%nat "w.dim() == 2" ;;;
  to_quant <- view_infer w [] [Z.to_nat groupsize] ;;
  assert (count_nan to_quant =? 0)%nat "torch.isnan(to_quant).sum() == 0" ;;;
  max_val <- amax_last true to_quant ;;
  min_val <- amin_last true to_quant ;;
  min_val_neg <- tzip fmin min_val (zeros_like min_val) ;;
  max_val_pos <- tzip fmax max_val (zeros_like max_val) ;;
  max_val_abs <- tzip fmax (tmap fneg min_val_neg) max_val_pos ;;
  let max_int := (py_pow2 (n_bit - 1) - 1)%Q in
  let min_int := (- py_pow2 (n_bit - 1))%Q in
  let scales :=
    tmap (fun v => fdiv v (f_of_Q ((max_int - min_int) / 2))) max_val_abs in
  scales <- tzip fmax scales (full_like scales (f_of_Q float32_eps)) ;;
  let zeros := full_like scales (f_of_Z 0) in
  w_shape_0 <- size_at (shape w) 0 ;;
  scales <- view_infer (tmap (fcast precision) scales) [w_shape_0] [] ;;
  zeros <- view_infer (tmap (fcast precision) zeros) [w_shape_0] [] ;;
  Ok (scales, zeros).

(** In [if group_size > input.shape[-1] and scales.shape[-1] == 1], [and]
    evaluates its right operand only when the left one holds. *)
Definition quantize_per_channel_group (input scales zero_points : tensor F)
  (quant_min quant_max : Z) (dtype_ : dtype) (group_size : Z)
  : result (tensor Z) :=
  assert (1 <? group_size) "group_size > 1" ;;;
  in_last <- last_size (shape input) ;;
  narrow <-
    (if Z.of_nat in_last <? group_size then
       sc_last <- last_size (shape scales) ;; Ok (sc_last =? 1)%nat
     else Ok false) ;;
  let group_size := if narrow : bool then Z.of_nat in_last else group_size in
  m <- py_mod (Z.of_nat in_last) group_size ;;
  assert (m =? 0) "input.shape[-1] % group_size == 0" ;;;
  assert (dim input =? 2)%nat "input.dim() == 2" ;;;
  to_quant <- view_infer input [] [Z.to_nat group_size] ;;
  assert (count_nan to_quant =? 0)%nat "torch.isnan(to_quant).sum() == 0" ;;;
  scales <- view_infer scales [] [1%nat] ;;
  zero_points <- view_infer zero_points [] [1%nat] ;;
  q <- tzip fdiv to_quant scales ;;
  q <- tzip fadd q zero_points ;;
  view (tmap (fun v => clamp_to quant_min quant_max dtype_ (fround v)) q)
    (shape input).

Definition group_quantize_tensor_symmetric (w : tensor F)
  (n_bit group_size : Z) (precision : dtype)
  : result (tensor Z * tensor F * tensor F) :=
  sz <- get_group_qparams_symmetric w n_bit group_size precision ;;
  let scales := fst sz in
  let zeros := snd sz in
  let n_bit := 4 in
  let max_int := 2 ^ (n_bit - 1) - 1 in
  let min_int := - (2 ^ (n_bit - 1)) in
  w_int8 <- quantize_per_channel_group w scales zeros min_int max_int int8
              group_size ;;
  Ok (w_int8, scales, zeros).

Definition dequantize_per_channel_group (w_int8 : tensor Z)
  (scales zero_points : tensor F) (quant_min quant_max : Z) (dtype_ : dtype)
  (group_size : Z) (output_dtype : dtype) : result (tensor F) :=
  assert (1 <? group_size) "group_size > 1" ;;;
  w_last <- last_size (shape w_int8) ;;
  narrow <-
    (if Z.of_nat w_last <? group_size then
       sc_last <- last_size (shape scales) ;; Ok (sc_last =? 1)%nat
     else Ok false) ;;
  let group_size := if narrow : bool then Z.of_nat w_last else group_size in
  m <- py_mod (Z.of_nat w_last) group_size ;;
  assert (m =? 0) "w_int8.shape[-1] % group_size == 0" ;;;
  assert (dim w_int8 =? 2)%nat "w_int8.dim() == 2" ;;;
  w_int8_grouped <- view_infer w_int8 [] [Z.to_nat group_size] ;;
  scales <- view_infer scales [] [1%nat] ;;
  zero_points <- view_infer zero_points [] [1%nat] ;;
  d <- tzip fsub (tmap f_of_Z w_int8_grouped) zero_points ;;
  d <- tzip fmul d scales ;;
  w_dq <- view d (shape w_int8) ;;
  Ok (tmap (fcast output_dtype) w_dq).

End Kernels.

(** ** int4 packing *)

Definition down_size (size : list nat) : result (list nat) :=
  last <- last_size size ;;
  assert (last mod 2 =? 0)%nat "size[-1] % 2 == 0" ;;;
  Ok (removelast size ++ [(last / 2)%nat]).

Definition up_size (size : list nat) : result (list nat) :=
  last <- last_size size ;;
  Ok (removelast size ++ [(last * 2)%nat]).

(** A 1-D tensor holding the given elements. *)
Definition tensor1 {A} (l : list A) : tensor A := mkTensor [length l] l.

Definition pack_int4_from_int8 (int8_data : tensor Z) : result (tensor Z) :=
  let shape_ := shape int8_data in
  last <- last_size shape_ ;;
  assert (last mod 2 =? 0)%nat "shape[-1] % 2 == 0" ;;;
  int8_data <- view_infer int8_data [] [] ;;
  packed <-
    tzip Z.lor
      (tmap (fun v => wrap_int int8 (Z.shiftl v 4))
         (tensor1 (evens (data int8_data))))
      (tensor1 (odds (data int8_data))) ;;
  sz <- down_size shape_ ;;
  view packed sz.

Definition unpack_int4_to_int8 (int8_data : tensor Z) : result (tensor Z) :=
  let shape_ := shape int8_data in
  let first_elements := tmap (fun v => wrap_int int8 (Z.shiftr v 4)) int8_data in
  let second_elements := tmap (fun v => wrap_int int8 (Z.land v 15)) int8_data in
  st <- stack_last first_elements second_elements ;;
  sz <- up_size shape_ ;;
  view st sz.

(** ** Exact arithmetic

    The instance the numeric claims are read in: elements are rationals,
    no operation rounds, and there is no NaN. *)

(** [torch.round]: to the nearest integer, ties to even. *)
Definition Qround_half_even (x : Q) : Q :=
  let f := Qfloor x in
  match (x - inject_Z f ?= 1 # 2)%Q with
  | Lt => inject_Z f
  | Gt => inject_Z (f + 1)
  | Eq => inject_Z (if Z.even f then f else f + 1)
  end.

Definition Qgtb (a b : Q) : bool :=
  match (a ?= b)%Q with Gt => true | _ => false end.

(** Conversion to an integer dtype truncates toward zero. *)
Definition Qtrunc (x : Q) : Z :=
  if Qle_bool 0 x then Qfloor x else Qceiling x.

#[export] Instance Q_Scalar : Scalar Q := {|
  f_of_Z := inject_Z;
  f_of_Q := fun q => q;
  fadd := Qplus;
  fsub := Qminus;
  fmul := Qmult;
  fdiv := Qdiv;
  fneg := Qopp;
  fabs := Qabs;
  fround := Qround_half_even;
  fmin := Qmin;
  fmax := Qmax;
  fgtb := Qgtb;
  fisnan := fun _ => false;
  fcast := fun _ x => x;
  f_to_Z := Qtrunc
|}.

(** ** IEEE binary32

    The float32 dtype itself, on the specification of IEEE 754 arithmetic
    of the standard library ([prec] = 24, [emax] = 128, round to nearest
    even).  It is used to run the kernels on concrete float32 tensors. *)

Module Binary32.

Definition prec : Z := 24.
Definition emax : Z := 128.

Definition of_Z (z : Z) : spec_float := binary_normalize prec emax z 0 false.

(** A Python float given as a fraction, converted to float32: both parts
    are exact for the constants used here, the division rounds once. *)
Definition of_Q (q : Q) : spec_float :=
  SFdiv prec emax (of_Z (Qnum q)) (of_Z (Zpos (Qden q))).

Definition is_nan (x : spec_float) : bool :=
  match x with S754_nan => true | _ => false end.

(** [torch.max] and [torch.min] propagate NaN. *)
Definition max (x y : spec_float) : spec_float :=
  if is_nan x || is_nan y then S754_nan
  else if SFltb x y then y else x.

Definition min (x y : spec_float) : spec_float :=
  if is_nan x || is_nan y then S754_nan
  else if SFltb y x then y else x.

(** The integer nearest to [m / 2^k], ties to even. *)
Definition nearest_even (m k : Z) : Z :=
  let q := m / 2 ^ k in
  let r := m mod 2 ^ k in
  match 2 * r ?= 2 ^ k with
  | Lt => q
  | Gt => q + 1
  | Eq => if Z.even q then q else q + 1
  end.

Definition round (x : spec_float) : spec_float :=
  match x with
  | S754_finite s m e =>
      if 0 <=? e then x
      else
        let n := nearest_even (Zpos m) (- e) in
        binary_normalize prec emax (if s then - n else n) 0 s
  | _ => x
  end.

(** Conversion to an integer dtype truncates toward zero. *)
Definition to_Z (x : spec_float) : Z :=
  match x with
  | S754_finite s m e =>
      let v := if 0 <=? e then Zpos m * 2 ^ e else Zpos m / 2 ^ (- e) in
      if s then - v else v
  | _ => 0
  end.

(** The value of [x] rounded into the format of precision [p] and maximal
    exponent [em]. *)
Definition normalize (p em : Z) (x : spec_float) : spec_float :=
  match x with
  | S754_finite s m e =>
      binary_normalize p em (if s then Zneg m else Zpos m) e s
  | _ => x
  end.

(** [x.to(dt)]: rounding into a narrower format, the result written as the
    binary32 number of the same value; a wider format keeps the value. *)
Definition cast (dt : dtype) (x : spec_float) : spec_float :=
  match dt with
  | float16 => normalize prec emax (normalize 11 16 x)
  | bfloat16 => normalize prec emax (normalize 8 128 x)
  | _ => x
  end.

End Binary32.

#[export] Instance Binary32_Scalar : Scalar spec_float := {|
  f_of_Z := Binary32.of_Z;
  f_of_Q := Binary32.of_Q;
  fadd := SFadd Binary32.prec Binary32.emax;
  fsub := SFsub Binary32.prec Binary32.emax;
  fmul := SFmul Binary32.prec Binary32.emax;
  fdiv := SFdiv Binary32.prec Binary32.emax;
  fneg := SFopp;
  fabs := SFabs;
  fround := Binary32.round;
  fmin := Binary32.min;
  fmax := Binary32.max;
  fgtb := fun a b => SFltb b a;
  fisnan := Binary32.is_nan;
  fcast := Binary32.cast;
  f_to_Z := Binary32.to_Z
|}.

(** ** The rules on one slice

    The rules of the specification, written from its sentences on the
    extremes [min_val], [max_val] of one slice, and the computation the
    tensor code performs on one slice; the kernels above are compared with
    them. *)

Section Reference.

Context {F : Type} {SF : Scalar F}.

(** "scale = (max_val_pos - min_val_neg) / (quant_max - quant_min),
    clamped below by epsilon", with quant_min = -128, quant_max = 127 *)
Definition asym_scale (min_val max_val : F) : F :=
  let min_val_neg := fmin min_val fzero in
  let max_val_pos := fmax max_val fzero in
  fclamp_min (f_of_Q float32_eps)
    (fdiv (fsub max_val_pos min_val_neg) (f_of_Z (127 - -128))).

(** The zero-point that makes the minimum exactly representable, and the
    one that makes the maximum exactly representable. *)
Definition zero_point_from_min (min_val max_val : F) : F :=
  fsub (f_of_Z (-128)) (fdiv (fmin min_val fzero) (asym_scale min_val max_val)).

Definition zero_point_from_max (min_val max_val : F) : F :=
  fsub (f_of_Z 127) (fdiv (fmax max_val fzero) (asym_scale min_val max_val)).

(** "error_from_min + error_from_max > 0 picks the min-derived zero-point" *)
Definition asym_picks_min (min_val max_val : F) : bool :=
  let scale := asym_scale min_val max_val in
  fgtb
    (fadd (fadd (f_of_Z (-128)) (fdiv (fmin min_val fzero) scale))
          (fadd (f_of_Z 127) (fdiv (fmax max_val fzero) scale)))
    (f_of_Z 0).

(** "then clamp the result to [quant_min, quant_max] and round" *)
Definition asym_zero_point (min_val max_val : F) : F :=
  fround
    (fclamp (f_of_Z (-128)) (f_of_Z 127)
       (if asym_picks_min min_val max_val
        then zero_point_from_min min_val max_val
        else zero_point_from_max min_val max_val)).

(** The same rule with the two candidates exchanged. *)
Definition asym_zero_point_swapped (min_val max_val : F) : F :=
  fround
    (fclamp (f_of_Z (-128)) (f_of_Z 127)
       (if asym_picks_min min_val max_val
        then zero_point_from_max min_val max_val
        else zero_point_from_min min_val max_val)).

(** The scale both symmetric choosers compute for one group, as the code
    has it; [half_range] stands for [float(quant_max - quant_min) / 2]. *)
Definition group_scale (half_range : Q) (g : list F) : F :=
  let min_val_neg := fmin (list_amin g) fzero in
  let max_val_pos := fmax (list_amax g) fzero in
  fmax (fdiv (fmax (fneg min_val_neg) max_val_pos) (f_of_Q half_range))
    (f_of_Q float32_eps).

(** "scale = max(|min_val|, |max_val|) / ((quant_max - quant_min) / 2),
    clamped below by a small epsilon" *)
Definition sym_scale (quant_min quant_max : Q) (min_val max_val : F) : F :=
  fclamp_min (f_of_Q float32_eps)
    (fdiv (fmax (fabs min_val) (fabs max_val))
       (f_of_Q ((quant_max - quant_min) / 2))).

(** One element quantized with the scale and zero-point of its group, as
    [dynamically_quantize_per_channel] does it: divide, round, add the
    zero-point, clamp, convert. *)
Definition quantize_value (quant_min quant_max : Z) (dt : dtype)
  (scale zero_point v : F) : Z :=
  clamp_to quant_min quant_max dt (fadd (fround (fdiv v scale)) zero_point).

(** "max(|values|)" of one token *)
Definition max_abs (values : list F) : F := list_amax (map fabs values).

(** The per-token scale of the simple chooser as the code computes it:
    the absolute maximum, clamped below at 1e-5, over [quant_max] = 127. *)
Definition per_token_scale (values : list F) : F :=
  fdiv (fclamp_min (f_of_Q (1 # 100000)) (max_abs values)) (f_of_Z 127).

End Reference.

(** The integer range of an [n_bit]-bit signed value, as
    [get_group_qparams_symmetric] derives it. *)
Definition max_int (n_bit : Z) : Q := py_pow2 (n_bit - 1) - 1.
Definition min_int (n_bit : Z) : Q := - py_pow2 (n_bit - 1).

(** [groupsize] after [if groupsize > w.shape[-1]: groupsize = w.shape[-1]] *)
Definition narrowed (last : nat) (groupsize : Z) : Z :=
  if Z.of_nat last <? groupsize then Z.of_nat last else groupsize.

(** Group [i] of row-major data cut into groups of [k] elements. *)
Definition group_at {A} (k i : nat) (xs : list A) : list A :=
  firstn k (skipn (i * k) xs).

(** "whenever the requested group_size exceeds the input's trailing
    dimension and the scales tensor's trailing dimension equals 1,
    group_size is replaced by the input's trailing dimension" *)
Definition narrowing_rule (last sc_last : nat) (group_size : Z) : Z :=
  if (Z.of_nat last <? group_size) && (sc_last =? 1)%nat
  then Z.of_nat last else group_size.

(** The values [pack_int4_from_int8] packs without loss, pair by pair: a
    signed nibble first, an unsigned nibble second. *)
Fixpoint pairs_packable (l : list Z) : Prop :=
  match l with
  | a :: b :: l' => (-8 <= a <= 7 /\ 0 <= b <= 15) /\ pairs_packable l'
  | _ => True
  end.

(** One packed byte and the two values read back from it. *)
Definition pack_pair (a b : Z) : Z := Z.lor (wrap_int int8 (Z.shiftl a 4)) b.
Definition unpack_first (p : Z) : Z := wrap_int int8 (Z.shiftr p 4).
Definition unpack_second (p : Z) : Z := wrap_int int8 (Z.land p 15).

(** ** Padded sizes *)

(** [reduce(f, seq)] without an initial value, on a sequence given by its
    first element and the rest: [f] combines the running value with the
    next element, left to right. *)
Definition py_reduce {A} (f : A -> A -> result A) (first : A) (rest : list A)
  : result A :=
  fold_left (fun acc y => a <- acc ;; f a y) rest (Ok first).

(** [lambda x, y: x * y // gcd(x, y)]; [math.gcd] is never negative. *)
Definition lcm_step (x y : Z) : result Z := py_floordiv (x * y) (Z.gcd x y).

(** The sequence reduced is [args + (1,)], which is never empty: its first
    element is the first of [args], or 1 when there is none. *)
Definition find_multiple (n : Z) (args : list Z) : result Z :=
  k <- py_reduce lcm_step (hd 1 args) (tl (args ++ [1])) ;;
  m <- py_mod n k ;;
  if m =? 0 then Ok n
  else Ok (n + k - m).

Definition _check_linear_int4_k (k group_size : Z) : result bool :=
  m <- py_mod k group_size ;;
  Ok (m =? 0).

Definition _calc_padded_size_linear_int4 (k groupsize : Z) : result Z :=
  find_multiple k [groupsize].

(** ** Linear layers on quantized weights *)

Section Linear.

Context {F : Type} {SF : Scalar F}.

(** The sum of the products of two rows, accumulated from left to right;
    in exact arithmetic the order is immaterial. *)
Definition dot (a b : list F) : F := fold_left fadd (zip_with fmul a b) fzero.

(** [F.linear(x, w)] without bias: the trailing dimension of [x] is [in],
    [w] has shape [out, in] or [in]; every row of [x] is multiplied with
    every row of [w].  [F.linear] also raises when [x] and [w] differ in
    dtype; tensors carry no dtype here, so a result of [linear] stands for
    a result of the call only where both operands have one dtype. *)
Definition linear (x w : tensor F) : result (tensor F) :=
  let mismatch := RuntimeError "mat1 and mat2 shapes cannot be multiplied" in
  match rev (shape x), shape w with
  | d :: _, [out; inn] =>
      if (d =? inn)%nat then
        Ok (mkTensor (removelast (shape x) ++ [out])
              (concat (map (fun row => map (dot row) (rows w)) (rows x))))
      else Raise mismatch
  | d :: _, [inn] =>
      if (d =? inn)%nat then
        Ok (mkTensor (removelast (shape x))
              (map (fun row => dot row (data w)) (rows x)))
      else Raise mismatch
  | _, _ =>
      Raise (RuntimeError "linear: inputs of unsupported rank")
  end.

Definition prepare_int4_weight_and_scales_and_zeros (weight : tensor F)
  (group_size : Z) (precision : dtype)
  : result (tensor Z * tensor F * tensor F) :=
  wsz <- group_quantize_tensor_symmetric weight 4 group_size precision ;;
  let weight_int8 := fst (fst wsz) in
  let scales := snd (fst wsz) in
  let zeros := snd wsz in
  Ok (weight_int8, scales, zeros).

Definition linear_forward_int4 (x : tensor F) (weight_int8 : tensor Z)
  (scales zeros : tensor F) (out_features : Z) (group_size : Z)
  (precision : dtype) : result (tensor F) :=
  let n_bit := 4 in
  let quant_min := - (2 ^ (n_bit - 1)) in
  let quant_max := 2 ^ (n_bit - 1) - 1 in
  w_dq <- dequantize_per_channel_group weight_int8 scales zeros
            quant_min quant_max int8 group_size precision ;;
  c <- linear x w_dq ;;
  Ok c.

End Linear.

(** ** Tensors created from a size

    [torch.empty] gives a tensor of a size and a dtype whose contents are
    not defined, [torch.ones] one filled with ones; the meta kernels and
    the buffers of the quantized modules are such tensors. *)

Inductive fill : Type := uninitialized | ones.

Record new_tensor : Type := mkNew {
  new_shape : list nat;
  new_dtype : dtype;
  new_fill : fill
}.

Definition torch_new (f : fill) (size : list Z) (dt : dtype)
  : result new_tensor :=
  if forallb (fun n => 0 <=? n) size
  then Ok (mkNew (map Z.to_nat size) dt f)
  else Raise (RuntimeError "Trying to create tensor with negative dimension").

Definition torch_empty : list Z -> dtype -> result new_tensor :=
  torch_new uninitialized.

Definition torch_ones : list Z -> dtype -> result new_tensor :=
  torch_new ones.

(** [torch.empty_like(t, dtype=dt)] *)
Definition empty_like {A} (t : tensor A) (dt : dtype) : new_tensor :=
  mkNew (shape t) dt uninitialized.

(** [t.squeeze(dim=-1)]: a trailing dimension of size 1 is dropped. *)
Definition squeeze_last {A} (t : tensor A) : tensor A :=
  match rev (shape t) with
  | 1%nat :: lead => mkTensor (rev lead) (data t)
  | _ => t
  end.

(** ** The meta kernels *)

Section MetaKernels.

Variable _quant_min_max_bounds_check : Z -> Z -> dtype -> result unit.

Definition choose_qparams_per_token_meta {A} (input : tensor A)
  (dtype_ : dtype) : result (new_tensor * new_tensor) :=
  n <- last_size (shape input) ;;
  let size := [1; Z.of_nat n] in
  a <- torch_empty size float64 ;;
  b <- torch_empty size int64 ;;
  Ok (a, b).

Definition choose_qparams_per_token_asymmetric_meta {A} (input : tensor A)
  (dtype_ : dtype) : result (new_tensor * new_tensor) :=
  n <- last_size (shape input) ;;
  let size := [1; Z.of_nat n] in
  a <- torch_empty size float64 ;;
  b <- torch_empty size int64 ;;
  Ok (a, b).

Definition quantize_per_token_meta {A B C} (input : tensor A)
  (scales : tensor B) (zero_points : tensor C) (quant_min quant_max : Z)
  (dtype_ : dtype) : result new_tensor :=
  _quant_min_max_bounds_check quant_min quant_max dtype_ ;;;
  Ok (empty_like input dtype_).

Definition dequantize_per_token_meta {A B C} (input : tensor A)
  (scales : tensor B) (zero_points : tensor C) (quant_min quant_max : Z)
  (dtype_ output_dtype : dtype) : result new_tensor :=
  _quant_min_max_bounds_check quant_min quant_max dtype_ ;;;
  Ok (empty_like input output_dtype).


End MetaKernels.

(** ** The quantized modules

    A class is a module here: [init] is its [__init__], run on the
    arguments the handlers pass, and gives the attributes and the buffers
    it registers; [forward] reads the contents of the buffers, which are
    passed to it. *)

Module WeightOnlyInt8Linear.

Record t : Type := mk {
  in_features : Z;
  out_features : Z;
  weight : new_tensor;
  scales : new_tensor
}.

Definition init (in_features out_features : Z) : result t :=
  weight <- torch_empty [out_features; in_features] int8 ;;
  scales <- torch_ones [out_features] bfloat16 ;;
  Ok (mk in_features out_features weight scales).

Definition forward {F} {SF : Scalar F} (weight : tensor Z)
  (scales : tensor F) (input : tensor F) : result (tensor F) :=
  y <- linear input (tmap f_of_Z weight) ;;
  tzip fmul y scales.

End WeightOnlyInt8Linear.

Module QuantizedGroupEmbedding.

Record t : Type := mk {
  group_size : Z;
  dtype_ : dtype;
  weight : new_tensor;
  scales : new_tensor
}.

Definition init (vocab_size embedding_dim : Z) (group_size : option Z)
  (dtype_ : dtype) : result t :=
  let group_size :=
    match group_size with None => embedding_dim | Some g => g end in
  weight <- torch_empty [vocab_size; embedding_dim] int8 ;;
  groups_per_row <- py_floordiv (embedding_dim + group_size - 1) group_size ;;
  scales <-
    (if 1 <? groups_per_row
     then torch_ones [vocab_size; groups_per_row] float16
     else torch_ones [vocab_size] float16) ;;
  Ok (mk group_size dtype_ weight scales).

End QuantizedGroupEmbedding.

Module Int8DynActInt4WeightLinear.

Record t : Type := mk {
  in_features : Z;
  out_features : Z;
  group_size : Z;
  precision : dtype;
  weight : new_tensor;
  scales : new_tensor;
  zeros : new_tensor
}.

(** The message of the first assertion prints the two numbers; the
    assertion is recorded by its expression. *)
Definition init (in_features out_features : Z) (bias : bool)
  (group_size : Z) (precision scales_precision : dtype) : result t :=
  m <- py_mod in_features group_size ;;
  assert (m =? 0) "in_features % group_size == 0" ;;;
  assert (negb bias) "require bias=False" ;;;
  weight <- torch_empty [out_features; in_features] int8 ;;
  g <- py_floordiv in_features group_size ;;
  scales <- torch_empty [out_features; g] scales_precision ;;
  g <- py_floordiv in_features group_size ;;
  zeros <- torch_empty [out_features; g] scales_precision ;;
  Ok (mk in_features out_features group_size precision weight scales zeros).

Section Forward.

Context {F : Type} {SF : Scalar F}.

Variable _quant_min_max_bounds_check : Z -> Z -> dtype -> result unit.

Definition forward (self : t) (weight : tensor Z) (scales zeros : tensor F)
  (input : tensor F) : result (tensor F) :=
  let input := tmap (fcast (precision self)) input in
  sz <- choose_qparams_per_token_asymmetric input int8 ;;
  let scales_ := fst sz in
  let zero_points := snd sz in
  let quant_min := -128 in
  let quant_max := 127 in
  input <- quantize_per_token _quant_min_max_bounds_check input scales_
             zero_points quant_min quant_max int8 ;;
  input <- dequantize_per_token input scales_ zero_points quant_min
             quant_max int8 (precision self) ;;
  linear_forward_int4 input weight scales zeros (out_features self)
    (group_size self) (precision self).

End Forward.

End Int8DynActInt4WeightLinear.

(** ** Packing scales and zeros *)

(** [torch.cat([a, b], 2)] on tensors of rank 3, as
    [pack_scales_and_zeros] uses it: the slices along the last dimension
    are joined. *)
Definition cat_dim2 {A} (a b : tensor A) : result (tensor A) :=
  match shape a, shape b with
  | [a0; a1; a2], [b0; b1; b2] =>
      if (a0 =? b0)%nat && (a1 =? b1)%nat then
        Ok (mkTensor [a0; a1; (a2 + b2)%nat]
              (concat (zip_with (@app A) (rows a) (rows b))))
      else Raise (RuntimeError
                    "Sizes of tensors must match except in dimension 2")
  | _, _ => Raise IndexError
  end.

(** [t.transpose(0, 1).contiguous()]: block [(i, j)] of the input becomes
    block [(j, i)] of the result. *)
Definition transpose01 {A} (t : tensor A) : result (tensor A) :=
  match shape t with
  | a :: b :: rest =>
      let blocks := chunks (a * b) (numel_of rest) (data t) in
      Ok (mkTensor (b :: a :: rest)
            (concat
               (flat_map
                  (fun j => map (fun i => nth (i * b + j) blocks []) (seq 0 a))
                  (seq 0 b))))
  | _ => Raise IndexError
  end.

(** The dtypes of [scales] and [zeros] are passed beside the tensors. *)
Definition pack_scales_and_zeros {A} (scales zeros : tensor A)
  (scales_dtype zeros_dtype precision : dtype) : result (tensor A) :=
  assert (if list_eq_dec Nat.eq_dec (shape scales) (shape zeros)
          then true else false) "scales.shape == zeros.shape" ;;;
  assert (dtype_eqb scales_dtype precision) "scales.dtype == precision" ;;;
  assert (dtype_eqb zeros_dtype precision) "zeros.dtype == precision" ;;;
  s0 <- size_at (shape scales) 0 ;;
  s1 <- size_at (shape scales) 1 ;;
  s <- view scales [s0; s1; 1%nat] ;;
  z0 <- size_at (shape zeros) 0 ;;
  z1 <- size_at (shape zeros) 1 ;;
  z <- view zeros [z0; z1; 1%nat] ;;
  c <- cat_dim2 s z ;;
  transpose01 c.

(** ** Replacing the layers of a model

    What the [replace_*] functions see of a model: a tree of modules with
    named children, as [named_children] yields them; a linear layer with
    its two sizes, an embedding with the shape of its weight, and the
    quantized modules put in their place.  [setattr(module, name, new)]
    replaces the child of that name. *)

#[warnings="-register-all"] Inductive torch_module : Type :=
| nn_Linear (in_features out_features : nat)
| nn_Embedding (vocab_size embedding_dim : nat)
| WeightOnlyInt8Linear_ (m : WeightOnlyInt8Linear.t)
| QuantizedGroupEmbedding_ (m : QuantizedGroupEmbedding.t)
| Int8DynActInt4WeightLinear_ (m : Int8DynActInt4WeightLinear.t)
| nn_Module (children : list (string * torch_module)).

(** [for x in l: ...] where the body gives the new value of [x] or raises:
    the first exception ends the loop. *)
Definition for_each {A B} (body : A -> result B) : list A -> result (list B) :=
  fix loop (l : list A) : result (list B) :=
    match l with
    | [] => Ok []
    | x :: rest =>
        y <- body x ;;
        ys <- loop rest ;;
        Ok (y :: ys)
    end.

Fixpoint replace_linear_weight_only_int8_per_channel (module : torch_module)
  (node_type : string) {struct module} : result torch_module :=
  match module with
  | nn_Module children =>
      children <-
        for_each
          (fun named_child =>
             let '(name, child) := named_child in
             child <-
               match child with
               | nn_Linear in_features out_features =>
                   if (node_type =? "*")%string
                      || ((node_type =? "output")%string
                          && (name =? "output")%string)
                      || ((node_type =? "!output")%string
                          && negb (name =? "output")%string)
                   then
                     new <- WeightOnlyInt8Linear.init (Z.of_nat in_features)
                              (Z.of_nat out_features) ;;
                     Ok (WeightOnlyInt8Linear_ new)
                   else Ok child
               | _ =>
                   replace_linear_weight_only_int8_per_channel child node_type
               end ;;
             Ok (name, child))
          children ;;
      Ok (nn_Module children)
  | _ => Ok module
  end.

Fixpoint replace_embedding_weight_only_grouped_int8_per_channel
  (module : torch_module) (bitwidth : Z) (group_size : option Z)
  {struct module} : result torch_module :=
  match module with
  | nn_Module children =>
      children <-
        for_each
          (fun named_child =>
             let '(name, child) := named_child in
             child <-
               match child with
               | nn_Embedding vocab_size embedding_dim =>
                   new <- QuantizedGroupEmbedding.init (Z.of_nat vocab_size)
                            (Z.of_nat embedding_dim) group_size float16 ;;
                   Ok (QuantizedGroupEmbedding_ new)
               | _ =>
                   replace_embedding_weight_only_grouped_int8_per_channel
                     child bitwidth group_size
               end ;;
             Ok (name, child))
          children ;;
      Ok (nn_Module children)
  | _ => Ok module
  end.

Fixpoint replace_linear_8da4w (module : torch_module) (group_size : Z)
  (padding_allowed : bool) (precision scales_precision : dtype)
  {struct module} : result torch_module :=
  match module with
  | nn_Module children =>
      children <-
        for_each
          (fun named_child =>
             let '(name, child) := named_child in
             child <-
               match child with
               | nn_Linear in_features out_features =>
                   ok <- _check_linear_int4_k (Z.of_nat in_features)
                           group_size ;;
                   if ok || padding_allowed then
                     new <- Int8DynActInt4WeightLinear.init
                              (Z.of_nat in_features) (Z.of_nat out_features)
                              false group_size precision scales_precision ;;
                     Ok (Int8DynActInt4WeightLinear_ new)
                   else Ok child
               | _ =>
                   replace_linear_8da4w child group_size padding_allowed
                     precision scales_precision
               end ;;
             Ok (name, child))
          children ;;
      Ok (nn_Module children)
  | _ => Ok module
  end.

(** The linear layers and the embeddings these traversals meet, with their
    names and sizes, in the order of the traversal. *)
Fixpoint linear_children (module : torch_module)
  : list (string * (nat * nat)) :=
  match module with
  | nn_Module children =>
      flat_map
        (fun named_child =>
           let '(name, child) := named_child in
           match child with
           | nn_Linear in_features out_features =>
               [(name, (in_features, out_features))]
           | _ => linear_children child
           end)
        children
  | _ => []
  end.

Fixpoint embedding_children (module : torch_module)
  : list (string * (nat * nat)) :=
  match module with
  | nn_Module children =>
      flat_map
        (fun named_child =>
           let '(name, child) := named_child in
           match child with
           | nn_Embedding vocab_size embedding_dim =>
               [(name, (vocab_size, embedding_dim))]
           | _ => embedding_children child
           end)
        children
  | _ => []
  end.

(** * Properties *)

(** ** Lists, chunks and shapes *)

Lemma dtype_eqb_spec a b : reflect (a = b) (dtype_eqb a b).
Proof. destruct a, b; simpl; constructor; congruence. Qed.

Lemma numel_of_app a b : numel_of (a ++ b) = (numel_of a * numel_of b)%nat.
Proof.
  induction a as [|x a IH]; simpl; [lia|]. rewrite IH. lia.
Qed.

Lemma numel_of_rev a : numel_of (rev a) = numel_of a.
Proof.
  induction a as [|x a IH]; simpl; [reflexivity|].
  rewrite numel_of_app, IH. simpl. lia.
Qed.

Lemma chunks_length {A} k n (xs : list A) : length (chunks k n xs) = k.
Proof.
  revert xs. induction k as [|k IH]; intros xs; simpl; [reflexivity|].
  now rewrite IH.
Qed.

Lemma chunks_all_length {A} k n (xs : list A) :
  length xs = (k * n)%nat ->
  Forall (fun c => length c = n) (chunks k n xs).
Proof.
  revert xs. induction k as [|k IH]; intros xs H; simpl; constructor.
  - rewrite length_firstn. lia.
  - apply IH. rewrite length_skipn. lia.
Qed.

Lemma concat_chunks {A} k n (xs : list A) :
  length xs = (k * n)%nat -> concat (chunks k n xs) = xs.
Proof.
  revert xs. induction k as [|k IH]; intros xs H; simpl.
  - destruct xs; [reflexivity | discriminate].
  - rewrite IH by (rewrite length_skipn; lia). apply firstn_skipn.
Qed.

Lemma chunks_map {A B} (f : A -> B) k n (xs : list A) :
  chunks k n (map f xs) = map (map f) (chunks k n xs).
Proof.
  revert xs. induction k as [|k IH]; intros xs; simpl; [reflexivity|].
  now rewrite firstn_map, skipn_map, IH.
Qed.

Lemma chunks_nth {A} k n (xs : list A) i :
  (i < k)%nat -> nth i (chunks k n xs) [] = firstn n (skipn (i * n) xs).
Proof.
  revert xs i. induction k as [|k IH]; intros xs i Hi; [lia|].
  destruct i as [|i]; simpl; [reflexivity|].
  rewrite IH by lia. now rewrite skipn_skipn, Nat.add_comm.
Qed.

Lemma chunks_concat {A} n (ls : list (list A)) :
  Forall (fun c => length c = n) ls ->
  chunks (length ls) n (concat ls) = ls.
Proof.
  induction 1 as [|c ls Hc _ IH]; simpl; [reflexivity|].
  rewrite firstn_app, skipn_app, Hc, Nat.sub_diag. simpl.
  rewrite firstn_all2, skipn_all2, app_nil_r by lia. simpl.
  now rewrite IH.
Qed.

Lemma concat_length_const {A} n (ls : list (list A)) :
  Forall (fun c => length c = n) ls ->
  length (concat ls) = (length ls * n)%nat.
Proof.
  induction 1 as [|c ls Hc _ IH]; simpl; [reflexivity|].
  rewrite length_app, IH, Hc. lia.
Qed.

Lemma zip_with_length {A B C} (f : A -> B -> C) xs ys :
  length xs = length ys -> length (zip_with f xs ys) = length xs.
Proof.
  revert ys. induction xs as [|x xs IH]; intros [|y ys] H; simpl in *;
    try discriminate; [reflexivity|]. now rewrite IH by lia.
Qed.

Lemma zip_with_map {A B C D} (f : B -> C -> D) (g : A -> B) (h : A -> C) l :
  zip_with f (map g l) (map h l) = map (fun x => f (g x) (h x)) l.
Proof.
  induction l as [|x l IH]; simpl; [reflexivity|]. now rewrite IH.
Qed.

Lemma rows_shape {A} lead d (xs : list A) :
  rows (mkTensor (lead ++ [d]) xs) = chunks (numel_of lead) d xs.
Proof.
  unfold rows. simpl. rewrite rev_app_distr. simpl.
  now rewrite numel_of_rev.
Qed.

Lemma last_size_app lead d : last_size (lead ++ [d]) = Ok d.
Proof. unfold last_size. now rewrite rev_app_distr. Qed.

Lemma removelast_snoc {A} (l : list A) x : removelast (l ++ [x]) = l.
Proof. now rewrite removelast_app, app_nil_r by discriminate. Qed.

(** ** Broadcasting *)

Lemma broadcast_dim_same x : broadcast_dim x x = Ok x.
Proof. unfold broadcast_dim. now rewrite Nat.eqb_refl. Qed.

Lemma broadcast_rev_same s : broadcast_rev s s = Ok s.
Proof.
  induction s as [|x s IH]; simpl; [reflexivity|].
  now rewrite broadcast_dim_same, IH.
Qed.

Lemma broadcast_shapes_same s : broadcast_shapes s s = Ok s.
Proof.
  unfold broadcast_shapes. rewrite broadcast_rev_same. simpl.
  now rewrite rev_involutive.
Qed.

Lemma pad_shape_same s : pad_shape (length s) s = s.
Proof. unfold pad_shape. now rewrite Nat.sub_diag. Qed.

Lemma expand_data_same {A} s (xs : list A) :
  length xs = numel_of s -> expand_data s s xs = xs.
Proof.
  revert xs. induction s as [|d s IH]; intros xs H; simpl; [reflexivity|].
  rewrite Nat.eqb_refl. simpl in H.
  assert (Hall := chunks_all_length d (numel_of s) xs H).
  rewrite <- (concat_chunks d (numel_of s) xs H) at 2. f_equal.
  rewrite <- (map_id (chunks d (numel_of s) xs)) at 2.
  apply map_ext_in. intros c Hc. apply IH.
  rewrite Forall_forall in Hall. now apply Hall.
Qed.

(** Operands of one shape are combined position by position. *)
Lemma tzip_same {A B C} (f : A -> B -> C) sh xs ys :
  length xs = numel_of sh -> length ys = numel_of sh ->
  tzip f (mkTensor sh xs) (mkTensor sh ys) = Ok (mkTensor sh (zip_with f xs ys)).
Proof.
  intros Hx Hy. unfold tzip. simpl. rewrite broadcast_shapes_same. simpl.
  now rewrite pad_shape_same, !expand_data_same.
Qed.

Lemma tzip_map_same {A B C D} (f : B -> C -> D) (g : A -> B) (h : A -> C)
  sh (l : list A) :
  length l = numel_of sh ->
  tzip f (mkTensor sh (map g l)) (mkTensor sh (map h l))
  = Ok (mkTensor sh (map (fun x => f (g x) (h x)) l)).
Proof.
  intros H. rewrite tzip_same by now rewrite length_map.
  now rewrite zip_with_map.
Qed.

(** ** Reductions *)

Lemma reduce_last_snoc {A B} e k (f : list A -> B) lead d xs :
  d <> 0%nat ->
  reduce_last e k f (mkTensor (lead ++ [d]) xs)
  = Ok (mkTensor (lead ++ (if k then [1%nat] else []))
          (map f (chunks (numel_of lead) d xs))).
Proof.
  intros Hd. unfold reduce_last. rewrite rows_shape. simpl.
  rewrite rev_app_distr. simpl.
  destruct (Nat.eqb_spec d 0); [contradiction|].
  now rewrite rev_involutive.
Qed.

Lemma reduce_last_empty {A B} e k (f : list A -> B) lead xs :
  reduce_last e k f (mkTensor (lead ++ [0%nat]) xs) = Raise e.
Proof.
  unfold reduce_last. simpl. rewrite rev_app_distr. reflexivity.
Qed.

Lemma numel_of_snoc1 lead : numel_of (lead ++ [1%nat]) = numel_of lead.
Proof. rewrite numel_of_app. simpl. lia. Qed.

(** ** The per-token choosers, row by row *)

Section PerToken.

Context {F : Type} {SF : Scalar F}.

Lemma choose_qparams_per_token_rows lead d (xs : list F) :
  d <> 0%nat ->
  choose_qparams_per_token (mkTensor (lead ++ [d]) xs) int8
  = Ok (mkTensor (lead ++ [1%nat])
          (map per_token_scale (chunks (numel_of lead) d xs)),
        mkTensor (lead ++ [1%nat])
          (map (fun _ => fzero) (chunks (numel_of lead) d xs))).
Proof.
  intros Hd. unfold choose_qparams_per_token, amax_last, zeros_like, tmap.
  simpl. rewrite reduce_last_snoc by assumption. simpl.
  rewrite chunks_map, !map_map. reflexivity.
Qed.

Lemma choose_qparams_per_token_unsupported lead d (xs : list F) dt :
  d <> 0%nat -> dt <> int8 ->
  choose_qparams_per_token (mkTensor (lead ++ [d]) xs) dt
  = Raise (Exception "unsupported dtype in choose_qparams_per_token").
Proof.
  intros Hd Hdt. unfold choose_qparams_per_token, amax_last, tmap. simpl.
  rewrite reduce_last_snoc by assumption. simpl.
  destruct (dtype_eqb_spec dt int8); [contradiction | reflexivity].
Qed.

Lemma choose_qparams_per_token_asymmetric_rows lead d (xs : list F) dt :
  d <> 0%nat ->
  choose_qparams_per_token_asymmetric (mkTensor (lead ++ [d]) xs) dt
  = Ok (mkTensor (lead ++ [1%nat])
          (map (fun r => fcast float32 (asym_scale (list_amin r) (list_amax r)))
             (chunks (numel_of lead) d xs)),
        mkTensor (lead ++ [1%nat])
          (map (fun r =>
                  fcast float32 (asym_zero_point (list_amin r) (list_amax r)))
             (chunks (numel_of lead) d xs))).
Proof.
  intros Hd.
  assert (Hlen : length (chunks (numel_of lead) d xs)
                 = numel_of (lead ++ [1%nat]))
    by now rewrite chunks_length, numel_of_snoc1.
  unfold choose_qparams_per_token_asymmetric, aminmax_last, twhere,
    zeros_like, tmap.
  rewrite !reduce_last_snoc by assumption. simpl.
  repeat (rewrite ?map_map; rewrite tzip_map_same by exact Hlen; simpl).
  rewrite !map_map. reflexivity.
Qed.

End PerToken.

(** ** Well-formed results *)

Lemma Forall2_rev_intro {A B} (R : A -> B -> Prop) l l' :
  Forall2 R l l' -> Forall2 R (rev l) (rev l').
Proof.
  induction 1 as [|x y l l' Hxy _ IH]; simpl; [constructor|].
  apply Forall2_app; [exact IH | repeat constructor; exact Hxy].
Qed.

Lemma Forall2_compat_refl s : Forall2 compat_dim s s.
Proof. induction s; constructor; [now left | assumption]. Qed.

Lemma Forall2_compat_ones s :
  Forall2 compat_dim (repeat 1%nat (length s)) s.
Proof. induction s; simpl; constructor; [now right | assumption]. Qed.

Lemma broadcast_dim_compat x y d :
  broadcast_dim x y = Ok d -> compat_dim x d /\ compat_dim y d.
Proof.
  unfold broadcast_dim, compat_dim.
  destruct (Nat.eqb_spec x y); [intros [= <-]; subst; auto|].
  destruct (Nat.eqb_spec x 1); [intros [= <-]; auto|].
  destruct (Nat.eqb_spec y 1); [intros [= <-]; auto | discriminate].
Qed.

Lemma broadcast_rev_compat a : forall b r,
  broadcast_rev a b = Ok r ->
  Forall2 compat_dim (a ++ repeat 1%nat (length r - length a)) r /\
  Forall2 compat_dim (b ++ repeat 1%nat (length r - length b)) r.
Proof.
  induction a as [|x a IH]; intros b r H.
  - simpl in H. injection H as <-. simpl. rewrite Nat.sub_0_r, Nat.sub_diag.
    rewrite app_nil_r. split;
      [apply Forall2_compat_ones | apply Forall2_compat_refl].
  - destruct b as [|y b].
    + simpl in H. injection H as <-. rewrite Nat.sub_diag, app_nil_r.
      rewrite Nat.sub_0_r. split;
        [apply Forall2_compat_refl | apply Forall2_compat_ones].
    + simpl in H. destruct (broadcast_dim x y) as [d|] eqn:Hd;
        [|discriminate]. simpl in H.
      destruct (broadcast_rev a b) as [r'|] eqn:Hr; [|discriminate].
      simpl in H. injection H as <-.
      destruct (broadcast_dim_compat _ _ Hd) as [Hx Hy].
      destruct (IH _ _ Hr) as [Ha Hb].
      split; simpl; constructor; assumption.
Qed.

Lemma rev_repeat {A} (x : A) n : rev (repeat x n) = repeat x n.
Proof.
  induction n as [|n IH]; simpl; [reflexivity|].
  rewrite IH. clear IH. induction n; simpl; [reflexivity|]. now f_equal.
Qed.

Lemma broadcast_shapes_compat a b sh :
  broadcast_shapes a b = Ok sh ->
  Forall2 compat_dim (pad_shape (length sh) a) sh /\
  Forall2 compat_dim (pad_shape (length sh) b) sh.
Proof.
  unfold broadcast_shapes, pad_shape. intros H.
  destruct (broadcast_rev (rev a) (rev b)) as [r|] eqn:Hr; [|discriminate].
  simpl in H. injection H as <-.
  destruct (broadcast_rev_compat _ _ Hr) as [Ha Hb].
  apply Forall2_rev_intro in Ha, Hb.
  rewrite rev_app_distr, rev_repeat, rev_involutive, length_rev in Ha, Hb.
  rewrite length_rev. split; assumption.
Qed.

Lemma numel_of_pad_shape n sh : numel_of (pad_shape n sh) = numel_of sh.
Proof.
  unfold pad_shape. rewrite numel_of_app.
  induction (n - length sh)%nat as [|k IH]; simpl in *; lia.
Qed.

Lemma expand_data_length {A} src tgt :
  Forall2 compat_dim src tgt ->
  forall xs : list A,
    length xs = numel_of src -> length (expand_data src tgt xs) = numel_of tgt.
Proof.
  induction 1 as [|d e ds es Hde _ IH]; intros xs Hxs; simpl; [exact Hxs|].
  simpl in Hxs.
  assert (Hblocks :
    Forall (fun c => length c = numel_of es)
      (map (expand_data ds es) (chunks d (numel_of ds) xs))).
  { apply Forall_map.
    eapply Forall_impl; [|apply chunks_all_length; exact Hxs].
    intros c Hc. now apply IH. }
  destruct (Nat.eqb_spec d e) as [->|Hne].
  - rewrite (concat_length_const Hblocks), length_map, chunks_length.
    reflexivity.
  - destruct Hde as [-> | ->]; [contradiction|].
    simpl in Hblocks |- *. inversion Hblocks as [|c l Hc _]; subst.
    rewrite app_nil_r.
    rewrite (@concat_length_const _ (numel_of es)), repeat_length;
      [reflexivity|].
    apply Forall_forall. intros c Hin. apply repeat_spec in Hin. now subst.
Qed.

Lemma tzip_ok {A B C} (f : A -> B -> C) a b c :
  wf a -> wf b -> tzip f a b = Ok c ->
  broadcast_shapes (shape a) (shape b) = Ok (shape c) /\ wf c.
Proof.
  unfold tzip, wf. intros Ha Hb H.
  destruct (broadcast_shapes (shape a) (shape b)) as [sh|] eqn:Hsh;
    [|discriminate].
  simpl in H. injection H as <-. simpl. split; [reflexivity|].
  destruct (broadcast_shapes_compat _ _ Hsh) as [Ca Cb].
  rewrite zip_with_length;
    rewrite !expand_data_length;
    rewrite ?numel_of_pad_shape; auto.
Qed.

Lemma tzip_total {A B C} (f : A -> B -> C) a b sh :
  broadcast_shapes (shape a) (shape b) = Ok sh ->
  exists c, tzip f a b = Ok c /\ shape c = sh.
Proof.
  intros H. unfold tzip. rewrite H. simpl. eexists. split; reflexivity.
Qed.

Lemma tmap_wf {A B} (f : A -> B) t : wf t -> wf (tmap f t).
Proof. unfold wf, tmap. simpl. now rewrite length_map. Qed.

(** ** Views *)

Lemma view_infer_groups {A} sh (xs : list A) k :
  k <> 0%nat -> (numel_of sh mod k = 0)%nat ->
  view_infer (mkTensor sh xs) [] [k]
  = Ok (mkTensor [(numel_of sh / k)%nat; k] xs).
Proof.
  intros Hk Hm. unfold view_infer, numel. cbn [shape data].
  replace (numel_of [] * numel_of [k])%nat with k by (simpl; lia).
  destruct (Nat.eqb_spec k 0); [contradiction|].
  rewrite Hm. reflexivity.
Qed.

Lemma view_infer_rows {A} sh (xs : list A) r :
  r <> 0%nat -> (numel_of sh mod r = 0)%nat ->
  view_infer (mkTensor sh xs) [r] []
  = Ok (mkTensor [r; (numel_of sh / r)%nat] xs).
Proof.
  intros Hr Hm. unfold view_infer, numel. cbn [shape data].
  replace (numel_of [r] * numel_of [])%nat with r by (simpl; lia).
  destruct (Nat.eqb_spec r 0); [contradiction|].
  rewrite Hm. reflexivity.
Qed.

Lemma numel_of_2 a b : numel_of [a; b] = (a * b)%nat.
Proof. simpl. lia. Qed.

Lemma reduce_last_2 {A B} e k (f : list A -> B) a d xs :
  d <> 0%nat ->
  reduce_last e k f (mkTensor [a; d] xs)
  = Ok (mkTensor (a :: (if k then [1%nat] else [])) (map f (chunks a d xs))).
Proof.
  intros Hd. change [a; d] with ([a] ++ [d]).
  rewrite reduce_last_snoc by assumption. simpl. now rewrite Nat.mul_1_r.
Qed.

Section Groups.

Context {F : Type} {SF : Scalar F}.

Lemma get_group_qparams_symmetric_groups r q k (xs : list F) n_bit gs prec :
  (1 < k)%nat -> r <> 0%nat ->
  narrowed (q * k) gs = Z.of_nat k ->
  count_nan (mkTensor [r; (q * k)%nat] xs) = 0%nat ->
  get_group_qparams_symmetric (mkTensor [r; (q * k)%nat] xs) n_bit gs prec
  = Ok (mkTensor [r; q]
          (map (fun g =>
                  fcast prec
                    (group_scale ((max_int n_bit - min_int n_bit) / 2) g))
             (chunks (r * q) k xs)),
        mkTensor [r; q]
          (map (fun _ => fcast prec (f_of_Z 0)) (chunks (r * q) k xs))).
Proof.
  intros Hk Hr Hn Hnan.
  unfold get_group_qparams_symmetric.
  cbn [shape last_size rev app bind]. fold (narrowed (q * k) gs). rewrite Hn.
  unfold py_mod.
  destruct (Z.ltb_spec 1 (Z.of_nat k)); [|lia].
  destruct (Z.eqb_spec (Z.of_nat k) 0); [lia|].
  cbn [assert bind].
  rewrite <- Nat2Z.inj_mod, Nat.Div0.mod_mul.
  cbn [Z.of_nat Z.eqb assert bind dim shape length Nat.eqb].
  rewrite Nat2Z.id.
  assert (Hnum : numel_of [r; (q * k)%nat] = (r * q * k)%nat)
    by (rewrite numel_of_2; lia).
  rewrite view_infer_groups by (rewrite ?Hnum, ?Nat.Div0.mod_mul; lia).
  rewrite Hnum, Nat.div_mul by lia. cbn [bind].
  unfold count_nan in *. cbn [data] in *. rewrite Hnan.
  cbn [Nat.eqb assert bind].
  unfold amax_last, amin_last, zeros_like, full_like, tmap.
  rewrite !reduce_last_2 by lia. cbn [bind shape data].
  assert (Hlen : length (chunks (r * q) k xs) = numel_of [(r * q)%nat; 1%nat])
    by (rewrite chunks_length, numel_of_2; lia).
  repeat (rewrite ?map_map; rewrite tzip_map_same by exact Hlen;
          cbn [bind shape data]).
  cbn [size_at nth_error bind].
  rewrite !view_infer_rows
    by (rewrite ?numel_of_2, ?Nat.mul_1_r, <- ?Nat.mul_assoc,
          ?(Nat.mul_comm r), ?Nat.Div0.mod_mul; lia).
  rewrite numel_of_2, Nat.mul_1_r, (Nat.mul_comm r q), Nat.div_mul by lia.
  cbn [bind]. rewrite !map_map. reflexivity.
Qed.

End Groups.

(** ** A parameter per group, spread over the elements of the group *)

Lemma concat_repeat_singleton {A} (y : A) k :
  concat (repeat [y] k) = repeat y k.
Proof. induction k as [|k IH]; simpl; [reflexivity|]. now rewrite IH. Qed.

Lemma concat_concat_map {A B} (g : A -> list B) (ls : list (list A)) :
  concat (map (fun c => concat (map g c)) ls) = concat (map g (concat ls)).
Proof.
  induction ls as [|c ls IH]; simpl; [reflexivity|].
  now rewrite map_app, concat_app, IH.
Qed.

Lemma expand_spread {A} lead k : forall ys : list A,
  length ys = numel_of lead ->
  expand_data (lead ++ [1%nat]) (lead ++ [k]) ys
  = concat (map (fun y => repeat y k) ys).
Proof.
  induction lead as [|d lead IH]; intros ys Hys.
  - destruct ys as [|y [|? ?]]; try discriminate.
    cbn [app map concat]. rewrite app_nil_r.
    destruct k as [|[|k]]; try reflexivity.
    cbn [expand_data Nat.eqb chunks numel_of fold_right firstn map concat].
    rewrite app_nil_r. apply concat_repeat_singleton.
  - cbn [app expand_data]. rewrite Nat.eqb_refl.
    rewrite numel_of_snoc1. simpl in Hys.
    assert (Hall := chunks_all_length d (numel_of lead) ys Hys).
    rewrite (map_ext_in _ (fun c => concat (map (fun y => repeat y k) c))).
    + rewrite <- (concat_chunks d (numel_of lead) ys Hys) at 2.
      apply concat_concat_map.
    + intros c Hc. apply IH. rewrite Forall_forall in Hall. now apply Hall.
Qed.

Lemma zip_with_app {A B C} (f : A -> B -> C) xs xs' ys ys' :
  length xs = length ys ->
  zip_with f (xs ++ xs') (ys ++ ys') = zip_with f xs ys ++ zip_with f xs' ys'.
Proof.
  revert ys. induction xs as [|x xs IH]; intros [|y ys] H; simpl in *;
    try discriminate; [reflexivity|]. now rewrite IH by lia.
Qed.

Lemma zip_with_repeat {A B C} (f : A -> B -> C) xs y :
  zip_with f xs (repeat y (length xs)) = map (fun v => f v y) xs.
Proof. induction xs as [|x xs IH]; simpl; [reflexivity|]. now rewrite IH. Qed.

(** Combining grouped data with one parameter per group. *)
Lemma zip_with_spread {A B C D} (f : B -> C -> D) (g1 : A -> list B)
  (g2 : A -> C) k (l : list A) :
  Forall (fun x => length (g1 x) = k) l ->
  zip_with f (concat (map g1 l)) (concat (map (fun y => repeat y k) (map g2 l)))
  = concat (map (fun x => map (fun v => f v (g2 x)) (g1 x)) l).
Proof.
  induction 1 as [|x l Hx _ IH]; simpl; [reflexivity|].
  rewrite zip_with_app by now rewrite repeat_length.
  rewrite IH, <- Hx, zip_with_repeat. reflexivity.
Qed.

Lemma concat_map_map {A B C} (f : B -> C) (g : A -> list B) l :
  map f (concat (map g l)) = concat (map (fun x => map f (g x)) l).
Proof. now rewrite concat_map, map_map. Qed.

Lemma tzip_bcast_last {A B C} (f : A -> B -> C) lead k xs ys :
  length xs = numel_of (lead ++ [k]) -> length ys = numel_of lead ->
  tzip f (mkTensor (lead ++ [k]) xs) (mkTensor (lead ++ [1%nat]) ys)
  = Ok (mkTensor (lead ++ [k])
          (zip_with f xs (concat (map (fun y => repeat y k) ys)))).
Proof.
  intros Hx Hy. unfold tzip. cbn [shape data].
  assert (Hsh : broadcast_shapes (lead ++ [k]) (lead ++ [1%nat])
                = Ok (lead ++ [k])).
  { unfold broadcast_shapes. rewrite !rev_app_distr. simpl.
    assert (Hd : broadcast_dim k 1 = Ok k).
    { unfold broadcast_dim. destruct (Nat.eqb_spec k 1); [now subst|].
      reflexivity. }
    rewrite Hd, broadcast_rev_same. simpl. now rewrite rev_involutive. }
  rewrite Hsh. cbn [bind].
  rewrite pad_shape_same.
  replace (pad_shape (length (lead ++ [k])) (lead ++ [1%nat]))
    with (lead ++ [1%nat])
    by (unfold pad_shape; now rewrite !length_app, Nat.sub_diag).
  now rewrite expand_data_same, expand_spread.
Qed.

Lemma slice_dim1_2 {A} r c n (d : list A) :
  slice_dim1 (mkTensor [r; c] d) n
  = Ok (mkTensor [r; Nat.min n c] (concat (map (firstn n) (chunks r c d)))).
Proof.
  unfold slice_dim1. cbn [shape data numel_of fold_right].
  now rewrite !Nat.mul_1_r.
Qed.

Lemma map_firstn_all {A} n (ls : list (list A)) :
  Forall (fun c => length c = n) ls -> map (firstn n) ls = ls.
Proof.
  induction 1 as [|c ls Hc _ IH]; simpl; [reflexivity|].
  now rewrite IH, firstn_all2 by lia.
Qed.

Section PerChannel.

Context {F : Type} {SF : Scalar F}.

Lemma length_concat_groups {A B} (h : list A -> A -> B) k (l : list (list A)) :
  Forall (fun c => length c = k) l ->
  length (concat (map (fun g => map (h g) g) l)) = (length l * k)%nat.
Proof.
  intros H. rewrite (@concat_length_const _ k), length_map; [reflexivity|].
  apply Forall_map. eapply Forall_impl; [|exact H].
  intros c Hc. now rewrite length_map.
Qed.

(** The part of [dynamically_quantize_per_channel] after the group size is
    settled, run on [r] rows of [q] groups of [k] elements. *)
Lemma zip_with_spread_chunks {A C D} (f : A -> C -> D) (g2 : list A -> C)
  n k (xs : list A) :
  length xs = (n * k)%nat ->
  zip_with f xs
    (concat (map (fun y => repeat y k) (map g2 (chunks n k xs))))
  = concat (map (fun g => map (fun v => f v (g2 g)) g) (chunks n k xs)).
Proof.
  intros H. rewrite <- (concat_chunks n k xs H) at 1.
  rewrite <- (map_id (chunks n k xs)) at 1.
  rewrite (@zip_with_spread _ _ _ _ f (fun g => g) g2 k);
    [reflexivity | now apply chunks_all_length].
Qed.

(** Symbolic execution of [dynamically_quantize_per_channel] from the view
    into [r] rows of [q] groups of [k] elements up to the view back into
    rows; [dqpc_tail] goes on to the final slice. *)
Ltac dqpc_body r q k xs :=
  unfold py_floordiv;
  destruct (Z.eqb_spec (Z.of_nat k) 0); [lia|];
  rewrite <- Nat2Z.inj_div, Nat.div_mul by assumption;
  cbn [bind]; rewrite !Nat2Z.id;
  unfold view, numel; cbn [shape data];
  replace (numel_of [r; q; k] =? numel_of [r; (q * k)%nat])%nat with true
    by (symmetry; apply Nat.eqb_eq; simpl; lia);
  cbn [bind];
  unfold aminmax_last;
  change [r; q; k] with ([r; q] ++ [k]);
  rewrite !reduce_last_snoc by assumption;
  rewrite numel_of_2, app_nil_r;
  cbn [bind fst snd];
  assert (Hlen : length (chunks (r * q) k xs) = numel_of [r; q])
    by (rewrite chunks_length, numel_of_2; reflexivity);
  assert (Hall : Forall (fun c => length c = k) (chunks (r * q) k xs))
    by (apply chunks_all_length; lia);
  assert (Hnum : numel_of ([r; q] ++ [k]) = (r * q * k)%nat)
    by (simpl; lia);
  unfold zeros_like, tmap at 1 2; cbn [shape data];
  repeat (rewrite ?map_map; rewrite tzip_map_same by exact Hlen;
          cbn [bind shape data]; unfold tmap at 1; cbn [shape data]);
  unfold unsqueeze_last, tmap; cbn [shape data]; rewrite !map_map;
  rewrite tzip_bcast_last
    by (rewrite ?length_map, ?chunks_length, ?Hnum, ?numel_of_2; lia);
  cbn [bind shape data];
  rewrite zip_with_spread_chunks by lia;
  rewrite concat_map_map;
  rewrite tzip_bcast_last;
  [| rewrite (@concat_length_const _ k), length_map, chunks_length, Hnum;
     [lia|];
     apply Forall_map; eapply Forall_impl; [|exact Hall];
     intros ? ?; now rewrite !length_map
   | rewrite ?length_map, ?chunks_length, ?numel_of_2; lia ];
  cbn [bind shape data size_at nth_error app];
  rewrite zip_with_spread;
  [| eapply Forall_impl; [|exact Hall]; intros ? ?; now rewrite !length_map ];
  rewrite concat_map_map.

Ltac dqpc_tail r q k xs :=
  dqpc_body r q k xs;
  rewrite view_infer_rows
    by (simpl; rewrite ?Nat.Div0.mod_mul; try lia;
        rewrite Nat.mul_comm; apply Nat.Div0.mod_mul);
  cbn [bind];
  replace (numel_of [r; q; k] / r)%nat with (q * k)%nat
    by (simpl; rewrite Nat.mul_1_r, (Nat.mul_comm r (q * k)), Nat.div_mul; lia);
  (* the chain of maps on one group is [quantize_value] *)
  rewrite (map_ext
             (fun g : list _ =>
                map (clamp_to _ _ _)
                  (map (fun v => fadd v (f_of_Z 0))
                     (map fround (map (fun v => fdiv v _) g))))
             (fun g : list _ =>
                map (quantize_value _ _ _ (group_scale _ g) (f_of_Z 0)) g))
    by (intros; rewrite !map_map; reflexivity).

Lemma dqpc_multiple r q k (xs : list F) qmin qmax dt sdt en :
  k <> 0%nat -> r <> 0%nat -> length xs = (r * (q * k))%nat ->
  dynamically_quantize_per_channel (mkTensor [r; (q * k)%nat] xs) qmin qmax dt
    (Some (Z.of_nat k)) sdt en
  = Ok (mkTensor [r; (q * k)%nat]
          (concat
             (map (fun g =>
                     map (quantize_value qmin qmax dt
                            (group_scale (inject_Z (qmax - qmin) / 2) g)
                            (f_of_Z 0)) g)
                (chunks (r * q) k xs))),
        mkTensor [r; q]
          (map (fun g =>
                  fcast sdt (group_scale (inject_Z (qmax - qmin) / 2) g))
             (chunks (r * q) k xs)),
        mkTensor [r; q] (map (fun _ => 0) (chunks (r * q) k xs))).
Proof.
  intros Hk Hr Hxs.
  unfold dynamically_quantize_per_channel.
  cbn [shape size_at nth_error bind].
  destruct (Z.eqb_spec (Z.of_nat k) 0); [lia|].
  rewrite <- Nat2Z.inj_mod, Nat.Div0.mod_mul.
  cbn [Z.of_nat Z.eqb orb].
  destruct (Z.ltb_spec 0 (Z.of_nat k)); [|lia].
  cbn [assert bind fst snd shape size_at nth_error].
  dqpc_tail r q k xs.
  rewrite slice_dim1_2, Nat.min_id. cbn [bind].
  rewrite map_firstn_all, concat_chunks; [reflexivity | |].
  - rewrite (length_concat_groups _ Hall), chunks_length. lia.
  - apply chunks_all_length.
    rewrite (length_concat_groups _ Hall), chunks_length. lia.
Qed.

Lemma rows_2 {A} r c (xs : list A) :
  rows (mkTensor [r; c] xs) = chunks r c xs.
Proof. unfold rows. simpl. now rewrite Nat.mul_1_r. Qed.

Lemma padded_width c k :
  k <> 0%nat -> (c + (k - c mod k) = S (c / k) * k)%nat.
Proof.
  intros Hk. pose proof (Nat.div_mod_eq c k) as E.
  pose proof (Nat.mod_upper_bound c k Hk). nia.
Qed.

Lemma pad_rows_length {A} (z : A) r c p (xs : list A) :
  length xs = (r * c)%nat ->
  length (concat (map (fun row => row ++ repeat z p) (chunks r c xs)))
  = (r * (c + p))%nat.
Proof.
  intros H. rewrite (@concat_length_const _ (c + p)%nat).
  - now rewrite length_map, chunks_length.
  - apply Forall_map. eapply Forall_impl; [|apply chunks_all_length; exact H].
    intros row Hrow. now rewrite length_app, repeat_length, Hrow.
Qed.

Lemma dqpc_padded r c k (xs : list F) qmin qmax dt sdt :
  k <> 0%nat -> r <> 0%nat -> (c mod k <> 0)%nat ->
  length xs = (r * c)%nat ->
  let q := S (c / k) in
  let xs' :=
    concat (map (fun row => row ++ repeat fzero (k - c mod k)) (chunks r c xs))
  in
  dynamically_quantize_per_channel (mkTensor [r; c] xs) qmin qmax dt
    (Some (Z.of_nat k)) sdt true
  = Ok (mkTensor [r; c]
          (concat
             (map (firstn c)
                (chunks r (q * k)
                   (concat
                      (map (fun g =>
                              map (quantize_value qmin qmax dt
                                     (group_scale
                                        (inject_Z (qmax - qmin) / 2) g)
                                     (f_of_Z 0)) g)
                         (chunks (r * q) k xs')))))),
        mkTensor [r; q]
          (map (fun g =>
                  fcast sdt (group_scale (inject_Z (qmax - qmin) / 2) g))
             (chunks (r * q) k xs')),
        mkTensor [r; q] (map (fun _ => 0) (chunks (r * q) k xs'))).
Proof.
  intros Hk Hr Hc Hxs q xs'.
  assert (Hxs' : length xs' = (r * (q * k))%nat).
  { unfold xs', q. rewrite pad_rows_length, padded_width by assumption.
    reflexivity. }
  unfold dynamically_quantize_per_channel.
  cbn [shape size_at nth_error bind].
  destruct (Z.eqb_spec (Z.of_nat k) 0); [lia|].
  rewrite <- Nat2Z.inj_mod.
  destruct (Z.eqb_spec (Z.of_nat (c mod k)) 0); [lia|].
  cbn [negb orb].
  destruct (Z.ltb_spec 0 (Z.of_nat k)); [|lia].
  cbn [assert bind].
  rewrite <- Nat2Z.inj_sub, Nat2Z.id
    by (pose proof (Nat.mod_upper_bound c k Hk); lia).
  unfold pad_last. cbn [shape rev app]. rewrite rows_2.
  rewrite padded_width by assumption. fold q. fold xs'.
  assert (Hmin : Nat.min c (q * k) = c)
    by (unfold q; rewrite <- padded_width by assumption; lia).
  clearbody q xs'.
  cbn [bind fst snd shape size_at nth_error].
  dqpc_tail r q k xs'.
  rewrite slice_dim1_2, Hmin. reflexivity.
Qed.

(** A matrix without rows is not quantized: the last view, [(0, -1)], is
    ambiguous and raises. *)
Lemma dqpc_no_rows c k (xs : list F) qmin qmax dt sdt :
  k <> 0%nat -> (c mod k <> 0)%nat -> length xs = 0%nat ->
  exists msg,
    dynamically_quantize_per_channel (mkTensor [0%nat; c] xs) qmin qmax dt
      (Some (Z.of_nat k)) sdt true
    = Raise (RuntimeError msg).
Proof.
  intros Hk Hc Hxs.
  set (q := S (c / k)).
  set (xs' := concat (map (fun row => row ++ repeat fzero (k - c mod k))
                        (chunks 0 c xs))).
  assert (Hxs' : length xs' = (0 * (q * k))%nat) by reflexivity.
  unfold dynamically_quantize_per_channel.
  cbn [shape size_at nth_error bind].
  destruct (Z.eqb_spec (Z.of_nat k) 0); [lia|].
  rewrite <- Nat2Z.inj_mod.
  destruct (Z.eqb_spec (Z.of_nat (c mod k)) 0); [lia|].
  cbn [negb orb].
  destruct (Z.ltb_spec 0 (Z.of_nat k)); [|lia].
  cbn [assert bind].
  rewrite <- Nat2Z.inj_sub, Nat2Z.id
    by (pose proof (Nat.mod_upper_bound c k Hk); lia).
  unfold pad_last. cbn [shape rev app]. rewrite rows_2.
  rewrite padded_width by assumption. fold q. fold xs'.
  clearbody q xs'.
  cbn [bind fst snd shape size_at nth_error].
  dqpc_body 0%nat q k xs'.
  unfold view_infer. eexists. reflexivity.
Qed.

End PerChannel.

(** ** Facts of exact arithmetic *)

Local Open Scope Q_scope.

Lemma fold_Qmin_le l : forall x, fold_left Qmin l x <= x.
Proof.
  induction l as [|y l IH]; intros x; simpl; [apply Qle_refl|].
  eapply Qle_trans; [apply IH | apply Q.le_min_l].
Qed.

Lemma fold_Qmax_ge l : forall x, x <= fold_left Qmax l x.
Proof.
  induction l as [|y l IH]; intros x; simpl; [apply Qle_refl|].
  eapply Qle_trans; [apply Q.le_max_l | apply IH].
Qed.

Lemma list_amin_le_amax (g : list Q) :
  g <> [] -> list_amin g <= list_amax g.
Proof.
  destruct g as [|x l]; [congruence | intros _]. simpl.
  eapply Qle_trans; [apply fold_Qmin_le | apply fold_Qmax_ge].
Qed.

Lemma fold_Qmax_nonneg l : forall x, 0 <= x -> 0 <= fold_left Qmax l x.
Proof.
  intros x Hx. eapply Qle_trans; [exact Hx | apply fold_Qmax_ge].
Qed.

Lemma max_abs_nonneg (values : list Q) : 0 <= max_abs values.
Proof.
  unfold max_abs. destruct values as [|x l]; simpl; [apply Qle_refl|].
  apply fold_Qmax_nonneg, Qabs_nonneg.
Qed.

(** Case analysis on every [Qmax], [Qmin] and [Qabs] of the goal. *)
Ltac q_case_max a b :=
  let H := fresh in
  destruct (Q.max_spec a b) as [[? H] | [? H]]; rewrite H in *; clear H.

Ltac q_case_min a b :=
  let H := fresh in
  destruct (Q.min_spec a b) as [[? H] | [? H]]; rewrite H in *; clear H.

Ltac q_case_abs a :=
  let H := fresh in
  destruct (Qlt_le_dec a 0) as [H | H];
  [ rewrite (Qabs_neg a) in * by (apply Qlt_le_weak; exact H)
  | rewrite (Qabs_pos a) in * by exact H ].

Ltac q_cases :=
  repeat match goal with
  | |- context [Qmax ?a ?b] => q_case_max a b
  | |- context [Qmin ?a ?b] => q_case_min a b
  | |- context [Qabs ?a] => q_case_abs a
  | _ : context [Qmax ?a ?b] |- _ => q_case_max a b
  | _ : context [Qmin ?a ?b] |- _ => q_case_min a b
  | _ : context [Qabs ?a] |- _ => q_case_abs a
  end.

Lemma max_neg_min_abs (mn mx : Q) :
  mn <= mx -> Qmax (- Qmin mn 0) (Qmax mx 0) == Qmax (Qabs mn) (Qabs mx).
Proof. intros H. q_cases; lra. Qed.

Lemma group_scale_sym_scale (quant_min quant_max : Q) (g : list Q) :
  g <> [] ->
  group_scale ((quant_max - quant_min) / 2) g
  == sym_scale quant_min quant_max (list_amin g) (list_amax g).
Proof.
  intros Hg. unfold group_scale, sym_scale, fclamp_min, fzero.
  cbn [fmax fmin fdiv fneg fabs f_of_Q f_of_Z Q_Scalar].
  rewrite (max_neg_min_abs (list_amin_le_amax Hg)). reflexivity.
Qed.

Lemma float32_eps_pos : 0 < float32_eps.
Proof. reflexivity. Qed.

Lemma group_scale_pos (h : Q) (g : list Q) : 0 < group_scale h g.
Proof.
  unfold group_scale. cbn [fmax f_of_Q Q_Scalar].
  eapply Qlt_le_trans; [apply float32_eps_pos | apply Q.le_max_r].
Qed.

Lemma count_nan_Q (t : tensor Q) : count_nan t = 0%nat.
Proof.
  unfold count_nan. cbn [fisnan Q_Scalar].
  induction (data t); simpl; auto.
Qed.

Lemma per_token_scale_Q (values : list Q) :
  per_token_scale values == Qmax (max_abs values) (1 # 100000) / 127 /\
  (1 # 100000) / 127 <= per_token_scale values.
Proof.
  unfold per_token_scale, fclamp_min.
  cbn [fmax fdiv f_of_Q f_of_Z Q_Scalar]. split; [reflexivity|].
  apply Qmult_le_compat_r; [apply Q.le_max_r | discriminate].
Qed.

Lemma per_token_scale_large (values : list Q) :
  (1 # 100000) <= max_abs values ->
  per_token_scale values == max_abs values / 127.
Proof.
  intros H. unfold per_token_scale, fclamp_min.
  cbn [fmax fdiv f_of_Q f_of_Z Q_Scalar].
  rewrite (Q.max_l _ _ H). reflexivity.
Qed.

Local Close Scope Q_scope.

Local Open Scope Q_scope.

Lemma fold_Qmax_zero l : forall x,
  x == 0 -> Forall (fun v => v == 0) l -> fold_left Qmax l x == 0.
Proof.
  induction l as [|y l IH]; intros x Hx Hl; simpl; [exact Hx|].
  inversion Hl as [|? ? Hy Hl']; subst. apply IH; [|exact Hl'].
  rewrite Hx, Hy. apply Q.max_id.
Qed.

Lemma max_abs_zero (values : list Q) :
  Forall (fun v => v == 0) values -> max_abs values == 0.
Proof.
  unfold max_abs. intros H. destruct H as [|x l Hx Hl]; simpl;
    [reflexivity|].
  apply fold_Qmax_zero.
  - rewrite Hx. reflexivity.
  - apply Forall_map. eapply Forall_impl; [|exact Hl].
    intros v Hv. cbn [fabs Q_Scalar]. rewrite Hv. reflexivity.
Qed.

Lemma Forall_firstn {A} (P : A -> Prop) n l : Forall P l -> Forall P (firstn n l).
Proof.
  revert l. induction n as [|n IH]; intros l H; simpl; [constructor|].
  destruct H; constructor; auto.
Qed.

Lemma Forall_skipn {A} (P : A -> Prop) n l : Forall P l -> Forall P (skipn n l).
Proof.
  revert l. induction n as [|n IH]; intros l H; simpl; [exact H|].
  destruct H; [constructor | auto].
Qed.

Lemma Forall_chunks {A} (P : A -> Prop) k n (xs : list A) :
  Forall P xs -> Forall (Forall P) (chunks k n xs).
Proof.
  revert xs. induction k as [|k IH]; intros xs H; simpl; constructor.
  - now apply Forall_firstn.
  - apply IH. now apply Forall_skipn.
Qed.

(** ** The claims on the per-token choosers *)

(** C7, the claim as stated fails: for an all-zero token the code returns
    the scale 1e-5 / 127, not max(|values|) / 127 = 0, in exact arithmetic
    and on float32 alike. *)
Lemma choose_qparams_per_token_zero_token :
  (exists scales zero_points,
     choose_qparams_per_token (mkTensor [1; 2]%nat [0; 0]) int8
     = Ok (scales, zero_points) /\
     ~ nth 0 (data scales) 0 == max_abs [0; 0] / 127) /\
  (exists scale zero_points,
     choose_qparams_per_token
       (mkTensor [1; 2]%nat [Binary32.of_Z 0; Binary32.of_Z 0]) int8
     = Ok (mkTensor [1; 1]%nat [scale], zero_points) /\
     max_abs [Binary32.of_Z 0; Binary32.of_Z 0] = S754_zero false /\
     SFltb (S754_zero false) scale = true).
Proof.
  split.
  - eexists. eexists. split; [reflexivity|]. vm_compute. discriminate.
  - eexists. eexists. split; [vm_compute; reflexivity|].
    split; reflexivity.
Qed.

(** C7 (amended): [choose_qparams_per_token] raises the unsupported-dtype
    exception for every requested dtype other than int8; for int8 it
    returns one zero-point 0 and one scale per token, and the scale is
    max(max(|values|), 1e-5) / 127: it is max(|values|) / 127 exactly when
    the absolute maximum of the token is at least 1e-5. *)
Theorem choose_qparams_per_token_clamped lead d (xs : list Q) :
  d <> 0%nat ->
  let input := mkTensor (lead ++ [d]) xs in
  (forall dt, dt <> int8 ->
     choose_qparams_per_token input dt
     = Raise (Exception "unsupported dtype in choose_qparams_per_token")) /\
  choose_qparams_per_token input int8
  = Ok (mkTensor (lead ++ [1%nat]) (map per_token_scale (rows input)),
        mkTensor (lead ++ [1%nat]) (map (fun _ => 0) (rows input))) /\
  (forall values,
     per_token_scale values == Qmax (max_abs values) (1 # 100000) / 127) /\
  (forall values,
     (1 # 100000) <= max_abs values ->
     per_token_scale values == max_abs values / 127).
Proof.
  intros Hd input. unfold input. rewrite rows_shape.
  split; [|split; [|split]].
  - intros dt Hdt. now apply choose_qparams_per_token_unsupported.
  - exact (choose_qparams_per_token_rows lead xs Hd).
  - intros values. apply per_token_scale_Q.
  - apply per_token_scale_large.
Qed.

Lemma choose_qparams_per_token_clamped_witness :
  2%nat <> 0%nat /\
  choose_qparams_per_token (mkTensor [2; 2]%nat [3; -4; 0; 0]) int8
  = Ok (mkTensor [2; 1]%nat (map per_token_scale [[3; -4]; [0; 0]]),
        mkTensor [2; 1]%nat [0; 0]).
Proof.
  assert (H : 2%nat <> 0%nat) by discriminate.
  split; [exact H|].
  exact (proj1 (proj2
    (choose_qparams_per_token_clamped [2%nat] [3; -4; 0; 0] H))).
Defined.

(** C9: for every input, all-zero tensors included,
    [choose_qparams_per_token] clamps the absolute maximum of each token at
    1e-5 before it divides by quant_max = 127, so every returned scale is at
    least 1e-5 / 127.  The bound is reached by an all-zero input and lies
    below the float32 machine epsilon that bounds the other choosers, in
    exact arithmetic and on float32. *)
Theorem choose_qparams_per_token_scale_floor lead d (xs : list Q) :
  d <> 0%nat ->
  exists scales zero_points,
    choose_qparams_per_token (mkTensor (lead ++ [d]) xs) int8
    = Ok (scales, zero_points) /\
    length (data scales) = numel_of lead /\
    Forall2 (fun values s => s == Qmax (max_abs values) (1 # 100000) / 127)
      (rows (mkTensor (lead ++ [d]) xs)) (data scales) /\
    Forall (fun s => (1 # 100000) / 127 <= s) (data scales) /\
    (Forall (fun v => v == 0) xs ->
     Forall (fun s => s == (1 # 100000) / 127) (data scales)) /\
    (1 # 100000) / 127 < float32_eps /\
    (exists scale zps,
       choose_qparams_per_token
         (mkTensor [1; 2]%nat [Binary32.of_Z 0; Binary32.of_Z 0]) int8
       = Ok (mkTensor [1; 1]%nat [scale], zps) /\
       scale = fdiv (Binary32.of_Q (1 # 100000)) (Binary32.of_Z 127) /\
       SFltb scale (Binary32.of_Q float32_eps) = true).
Proof.
  intros Hd. eexists. eexists.
  split; [exact (choose_qparams_per_token_rows lead xs Hd)|].
  rewrite rows_shape. cbn [data].
  split; [now rewrite length_map, chunks_length|].
  split; [|split; [|split; [|split]]];
    [| | | | eexists; eexists; split; [vm_compute; reflexivity|];
             split; reflexivity].
  - induction (chunks (numel_of lead) d xs); simpl; constructor;
      [apply per_token_scale_Q | assumption].
  - apply Forall_map, Forall_forall. intros values _.
    apply per_token_scale_Q.
  - intros Hz. apply Forall_map.
    eapply Forall_impl; [|apply Forall_chunks; exact Hz].
    intros values Hv. cbv beta in Hv.
    rewrite (proj1 (per_token_scale_Q values)), (max_abs_zero Hv).
    reflexivity.
  - reflexivity.
Qed.

Lemma choose_qparams_per_token_scale_floor_witness :
  1%nat <> 0%nat /\
  exists scales zero_points,
    choose_qparams_per_token (mkTensor [2; 1]%nat [0; 5]) int8
    = Ok (scales, zero_points) /\
    Forall (fun s => (1 # 100000) / 127 <= s) (data scales).
Proof.
  assert (H : 1%nat <> 0%nat) by discriminate.
  split; [exact H|].
  destruct (choose_qparams_per_token_scale_floor [2%nat] [0; 5] H)
    as (scales & zero_points & Hrun & _ & _ & Hfloor & _).
  exists scales, zero_points. split; [exact Hrun | exact Hfloor].
Defined.

Local Close Scope Q_scope.

(** ** The asymmetric chooser *)

Local Open Scope Q_scope.

(** C1: for every input row [choose_qparams_per_token_asymmetric] (with
    qmin = -128, qmax = 127) returns the scale
    (max(max_val, 0) - min(min_val, 0)) / (qmax - qmin) clamped below by the
    float32 machine epsilon, and the zero-point chosen by the rule "if
    (qmin + min_val_neg / scale) + (qmax + max_val_pos / scale) > 0 then
    qmin - min_val_neg / scale else qmax - max_val_pos / scale", clamped to
    [qmin, qmax] and then rounded.  In exact arithmetic min_val = -1,
    max_val = 3 gives the scale 4/255 and the zero-point -64 through the
    min-anchored branch; the rule is not symmetric in its two candidates:
    for an all-zero row it yields 127 where the rule with the candidates
    exchanged would yield -128.  On float32 the row [-1, 3] gets the
    float32 nearest to 4/255 and the zero-point -64 as well. *)
Theorem choose_qparams_per_token_asymmetric_rule
  (F : Type) (SF : Scalar F) lead d (xs : list F) dt :
  d <> 0%nat ->
  let input := mkTensor (lead ++ [d]) xs in
  choose_qparams_per_token_asymmetric input dt
  = Ok (mkTensor (lead ++ [1%nat])
          (map (fun row =>
                  fcast float32 (asym_scale (list_amin row) (list_amax row)))
             (rows input)),
        mkTensor (lead ++ [1%nat])
          (map (fun row =>
                  fcast float32
                    (asym_zero_point (list_amin row) (list_amax row)))
             (rows input))) /\
  (asym_scale (-1) 3 == 4 # 255 /\
   asym_picks_min (-1) 3 = true /\
   asym_zero_point (-1) 3 == -64) /\
  (choose_qparams_per_token_asymmetric (mkTensor [1; 2]%nat [0; 0]) int8
   = Ok (mkTensor [1; 1]%nat [float32_eps], mkTensor [1; 1]%nat [127]) /\
   asym_picks_min 0 0 = false /\
   asym_zero_point 0 0 == 127 /\
   asym_zero_point_swapped 0 0 == -128) /\
  (choose_qparams_per_token_asymmetric
     (mkTensor [1; 2]%nat [Binary32.of_Z (-1); Binary32.of_Z 3]) int8
   = Ok (mkTensor [1; 1]%nat [Binary32.of_Q (4 # 255)],
         mkTensor [1; 1]%nat [Binary32.of_Z (-64)])).
Proof.
  intros Hd input. unfold input. rewrite rows_shape. split.
  - now apply choose_qparams_per_token_asymmetric_rows.
  - split; [|split]; [repeat split; reflexivity .. | vm_compute; reflexivity].
Qed.

Lemma choose_qparams_per_token_asymmetric_rule_witness :
  2%nat <> 0%nat /\
  choose_qparams_per_token_asymmetric (mkTensor [1; 2]%nat [-1; 3]) int8
  = Ok (mkTensor [1; 1]%nat [asym_scale (-1) 3],
        mkTensor [1; 1]%nat [asym_zero_point (-1) 3]).
Proof.
  assert (H : 2%nat <> 0%nat) by discriminate.
  split; [exact H|].
  exact (proj1
    (choose_qparams_per_token_asymmetric_rule Q_Scalar [1%nat] [-1; 3] int8 H)).
Defined.

Local Close Scope Q_scope.

(** ** The symmetric choosers *)

Lemma chunks_nth_error {A} k n (xs : list A) i :
  (i < k)%nat -> nth_error (chunks k n xs) i = Some (group_at n i xs).
Proof.
  intros Hi. unfold group_at. rewrite <- (chunks_nth n xs Hi).
  apply nth_error_nth'. now rewrite chunks_length.
Qed.

Lemma Forall2_map_r {A B} (P : A -> B -> Prop) (f : A -> B) l :
  Forall (fun x => P x (f x)) l -> Forall2 P l (map f l).
Proof. induction 1; simpl; constructor; assumption. Qed.

Lemma chunks_nonempty {A} k n (xs : list A) :
  n <> 0%nat -> length xs = (k * n)%nat ->
  Forall (fun g => g <> []) (chunks k n xs).
Proof.
  intros Hn H. eapply Forall_impl; [|apply chunks_all_length; exact H].
  intros g Hg ->. simpl in Hg. congruence.
Qed.

Lemma dqpc_none {F} {SF : Scalar F} r c (xs : list F) qmin qmax dt sdt en :
  c <> 0%nat ->
  dynamically_quantize_per_channel (mkTensor [r; c] xs) qmin qmax dt None sdt en
  = dynamically_quantize_per_channel (mkTensor [r; c] xs) qmin qmax dt
      (Some (Z.of_nat c)) sdt en.
Proof.
  intros Hc. unfold dynamically_quantize_per_channel.
  cbn [shape size_at nth_error bind].
  destruct (Z.eqb_spec (Z.of_nat c) 0); [lia|].
  rewrite Z.mod_same by lia. cbn [Z.eqb orb].
  destruct (Z.ltb_spec 0 (Z.of_nat c)); [|lia].
  reflexivity.
Qed.

Local Open Scope Q_scope.

Lemma group_scale_sym_scale_eq (h quant_min quant_max : Q) (g : list Q) :
  g <> [] -> h == (quant_max - quant_min) / 2 ->
  group_scale h g
  == sym_scale quant_min quant_max (list_amin g) (list_amax g).
Proof.
  intros Hg Hh. rewrite <- (group_scale_sym_scale _ _ Hg).
  unfold group_scale. cbn [fmax fmin fdiv fneg f_of_Q f_of_Z Q_Scalar].
  rewrite Hh. reflexivity.
Qed.

Lemma n_bit_half_range_pos (n_bit : Z) :
  (1 <= n_bit)%Z -> 0 < (max_int n_bit - min_int n_bit) / 2.
Proof.
  intros Hn. unfold max_int, min_int, py_pow2.
  destruct (Z.ltb_spec (n_bit - 1) 0); [lia|].
  assert (Hp : 1 <= inject_Z (2 ^ (n_bit - 1))).
  { change 1 with (inject_Z 1). rewrite <- Zle_Qle.
    pose proof (Z.pow_pos_nonneg 2 (n_bit - 1)). lia. }
  generalize dependent (inject_Z (2 ^ (n_bit - 1))). intros p Hp.
  apply Qlt_shift_div_l; [reflexivity | lra].
Qed.

Lemma quant_half_range_pos (quant_min quant_max : Z) :
  (quant_min < quant_max)%Z -> 0 < inject_Z (quant_max - quant_min) / 2.
Proof.
  intros H. assert (0 < inject_Z (quant_max - quant_min)).
  { change 0 with (inject_Z 0). rewrite <- Zlt_Qlt. lia. }
  apply Qlt_shift_div_l; [reflexivity|]. now rewrite Qmult_0_l.
Qed.

(** C4: for every block of a weight matrix (in exact arithmetic every block
    is finite; a block has [k] > 1 elements) the symmetric choosers
    [get_group_qparams_symmetric] and [dynamically_quantize_per_channel]
    return the zero-point 0 and the scale
    max(|min_val|, |max_val|) / ((quant_max - quant_min) / 2) clamped below
    by the float32 machine epsilon; the divisor is positive for a valid
    range and every returned scale is strictly positive. *)
Theorem symmetric_qparams_scale_positive
  (r q k : nat) (xs : list Q) (n_bit gs : Z) (precision : dtype)
  (quant_min quant_max : Z) (target_dtype scales_dtype : dtype) (en : bool) :
  (1 < k)%nat -> r <> 0%nat -> length xs = (r * (q * k))%nat ->
  narrowed (q * k) gs = Z.of_nat k ->
  (1 <= n_bit)%Z -> (quant_min < quant_max)%Z ->
  let w := mkTensor [r; (q * k)%nat] xs in
  let blocks := chunks (r * q) k xs in
  (exists scales zeros,
     get_group_qparams_symmetric w n_bit gs precision = Ok (scales, zeros) /\
     0 < (max_int n_bit - min_int n_bit) / 2 /\
     Forall2
       (fun block s =>
          s == sym_scale (min_int n_bit) (max_int n_bit)
                 (list_amin block) (list_amax block) /\ 0 < s)
       blocks (data scales) /\
     Forall2 (fun block z => z == 0) blocks (data zeros)) /\
  (exists quant scales zero_points,
     dynamically_quantize_per_channel w quant_min quant_max target_dtype
       (Some (Z.of_nat k)) scales_dtype en
     = Ok (quant, scales, zero_points) /\
     0 < inject_Z (quant_max - quant_min) / 2 /\
     Forall2
       (fun block s =>
          s == sym_scale (inject_Z quant_min) (inject_Z quant_max)
                 (list_amin block) (list_amax block) /\ 0 < s)
       blocks (data scales) /\
     Forall2 (fun block z => z = 0%Z) blocks (data zero_points) /\
     (q = 1%nat ->
      dynamically_quantize_per_channel w quant_min quant_max target_dtype
        None scales_dtype en
      = Ok (quant, scales, zero_points))).
Proof.
  intros Hk Hr Hxs Hn Hbit Hrange w blocks.
  assert (Hne : Forall (fun g : list Q => g <> []) blocks)
    by (apply chunks_nonempty; lia).
  split.
  - eexists. eexists. split.
    + apply get_group_qparams_symmetric_groups; try assumption.
      apply count_nan_Q.
    + split; [now apply n_bit_half_range_pos|]. cbn [data]. split.
      * apply Forall2_map_r. eapply Forall_impl; [|exact Hne].
        intros g Hg. cbn [fcast Q_Scalar]. split;
          [now apply group_scale_sym_scale | apply group_scale_pos].
      * apply Forall2_map_r, Forall_forall. intros; reflexivity.
  - eexists. eexists. eexists. split.
    + apply dqpc_multiple; [lia | assumption | assumption].
    + split; [now apply quant_half_range_pos|]. cbn [data]. split.
      * apply Forall2_map_r. eapply Forall_impl; [|exact Hne].
        intros g Hg. cbn [fcast Q_Scalar]. split;
          [|apply group_scale_pos].
        apply group_scale_sym_scale_eq; [exact Hg|].
        unfold Zminus. rewrite inject_Z_plus, inject_Z_opp. reflexivity.
      * split; [apply Forall2_map_r, Forall_forall; intros; reflexivity|].
        intros ->. unfold w. rewrite dqpc_none by lia.
        replace (Z.of_nat (1 * k)) with (Z.of_nat k) by (f_equal; lia).
        apply dqpc_multiple; [lia | assumption | assumption].
Qed.

Lemma symmetric_qparams_scale_positive_witness :
  exists scales zeros,
    get_group_qparams_symmetric
      (mkTensor [2; 4]%nat [1; 2; 3; 4; -5; 6; 0; 0]) 4 2 float32
    = Ok (scales, zeros) /\
    Forall2
      (fun block s =>
         s == sym_scale (min_int 4) (max_int 4)
                (list_amin block) (list_amax block) /\ 0 < s)
      [[1; 2]; [3; 4]; [-5; 6]; [0; 0]] (data scales).
Proof.
  assert (H1 : (1 < 2)%nat) by (apply Nat.lt_succ_diag_r).
  assert (H2 : 2%nat <> 0%nat) by discriminate.
  assert (H3 : (1 <= 4)%Z) by discriminate.
  assert (H4 : (-8 < 7)%Z) by reflexivity.
  destruct (@symmetric_qparams_scale_positive
              2 2 2 [1; 2; 3; 4; -5; 6; 0; 0] 4 2 float32 (-8) 7
              int8 float16 true H1 H2 eq_refl eq_refl H3 H4)
    as [(scales & zeros & Hrun & _ & Hs & _) _].
  exists scales, zeros. split; [exact Hrun | exact Hs].
Defined.

Local Close Scope Q_scope.

(** ** Independence of the groups *)

Lemma nth_error_map_group {A B} (f : list A -> B) k n (xs : list A) i :
  (i < k)%nat ->
  nth_error (map f (chunks k n xs)) i = Some (f (group_at n i xs)).
Proof.
  intros Hi. now rewrite nth_error_map, chunks_nth_error.
Qed.

(** C8: the symmetric group choosers compute the (scale, zero_point) pair of
    group [i] from the elements of group [i] alone: two inputs of one shape
    that agree on group [i] get the same pair for it, whatever the other
    groups hold. *)
Theorem group_qparams_independent
  (F : Type) (SF : Scalar F) (r q k : nat) (xs xs' : list F)
  (n_bit gs : Z) (precision : dtype) (quant_min quant_max : Z)
  (target_dtype scales_dtype : dtype) (en : bool) (i : nat) :
  (1 < k)%nat -> r <> 0%nat ->
  length xs = (r * (q * k))%nat -> length xs' = (r * (q * k))%nat ->
  narrowed (q * k) gs = Z.of_nat k ->
  count_nan (mkTensor [r; (q * k)%nat] xs) = 0%nat ->
  count_nan (mkTensor [r; (q * k)%nat] xs') = 0%nat ->
  (i < r * q)%nat ->
  group_at k i xs = group_at k i xs' ->
  let w := mkTensor [r; (q * k)%nat] xs in
  let w' := mkTensor [r; (q * k)%nat] xs' in
  (exists scales zeros scales' zeros' s z,
     get_group_qparams_symmetric w n_bit gs precision = Ok (scales, zeros) /\
     get_group_qparams_symmetric w' n_bit gs precision = Ok (scales', zeros') /\
     nth_error (data scales) i = Some s /\
     nth_error (data scales') i = Some s /\
     nth_error (data zeros) i = Some z /\
     nth_error (data zeros') i = Some z) /\
  (exists quant scales zps quant' scales' zps' s z,
     dynamically_quantize_per_channel w quant_min quant_max target_dtype
       (Some (Z.of_nat k)) scales_dtype en = Ok (quant, scales, zps) /\
     dynamically_quantize_per_channel w' quant_min quant_max target_dtype
       (Some (Z.of_nat k)) scales_dtype en = Ok (quant', scales', zps') /\
     nth_error (data scales) i = Some s /\
     nth_error (data scales') i = Some s /\
     nth_error (data zps) i = Some z /\
     nth_error (data zps') i = Some z).
Proof.
  intros Hk Hr Hxs Hxs' Hn Hnan Hnan' Hi Hg w w'. split.
  - do 6 eexists. split; [|split].
    + now apply get_group_qparams_symmetric_groups.
    + now apply get_group_qparams_symmetric_groups.
    + cbn [data]. rewrite !nth_error_map_group by exact Hi.
      rewrite Hg. repeat split; reflexivity.
  - do 8 eexists. split; [|split].
    + apply dqpc_multiple; [lia | assumption | assumption].
    + apply dqpc_multiple; [lia | assumption | assumption].
    + cbn [data]. rewrite !nth_error_map_group by exact Hi.
      rewrite Hg. repeat split; reflexivity.
Qed.

Lemma group_qparams_independent_witness :
  exists scales zeros scales' zeros' s z,
    get_group_qparams_symmetric
      (mkTensor [1; 4]%nat [1; 2; 3; 4]%Q) 4 2 float32 = Ok (scales, zeros) /\
    get_group_qparams_symmetric
      (mkTensor [1; 4]%nat [1; 2; -7; 9]%Q) 4 2 float32
    = Ok (scales', zeros') /\
    nth_error (data scales) 0 = Some s /\
    nth_error (data scales') 0 = Some s /\
    nth_error (data zeros) 0 = Some z /\
    nth_error (data zeros') 0 = Some z.
Proof.
  assert (H1 : (1 < 2)%nat) by (apply Nat.lt_succ_diag_r).
  assert (H2 : 1%nat <> 0%nat) by discriminate.
  assert (H3 : (0 < 1 * 2)%nat) by (apply Nat.lt_0_succ).
  exact (proj1
    (@group_qparams_independent Q Q_Scalar 1 2 2
       [1; 2; 3; 4]%Q [1; 2; -7; 9]%Q 4 2 float32 (-8) 7 int8 float16 true 0
       H1 H2 eq_refl eq_refl eq_refl eq_refl eq_refl H3 eq_refl)).
Defined.

(** ** Padding to a multiple of the group size *)

Section Padding.

Context {F : Type} {SF : Scalar F}.

(** C5: when the row length [c] of a 2-D input is not a multiple of the
    positive group size, [dynamically_quantize_per_channel] (non-multiple
    groups enabled) pads every row on the right with zeros up to the next
    multiple of the group size, quantizes the padded matrix group by group,
    and trims the quantized rows back to [c] columns.  Whenever a quantized
    tensor is returned it has the shape of the input, and one is returned
    for every input with at least one row; it holds the first [c] columns
    of the quantized padded matrix.  The groups are the runs of
    [group_size] elements of the zero-padded rows: there is one scale and
    one zero-point, 0, for each of them, the scale its [group_scale], and
    the quantized padded matrix holds every element of a group quantized
    with the scale of that group. *)
Theorem dynamically_quantize_per_channel_padding
  (r c : nat) (gs : Z) (xs : list F) (quant_min quant_max : Z)
  (target_dtype scales_dtype : dtype) :
  (0 < gs)%Z -> (Z.of_nat c mod gs <> 0)%Z ->
  length xs = (r * c)%nat ->
  let x := mkTensor [r; c] xs in
  let padding := Z.to_nat (gs - Z.of_nat c mod gs) in
  let k := Z.to_nat gs in
  let q := S (c / k) in
  let half_range := (inject_Z (quant_max - quant_min) / 2)%Q in
  (forall quant scales zero_points,
     dynamically_quantize_per_channel x quant_min quant_max target_dtype
       (Some gs) scales_dtype true
     = Ok (quant, scales, zero_points) ->
     shape quant = shape x) /\
  (r <> 0%nat ->
   exists x_padded quant_padded quant scales zero_points,
     pad_last fzero x padding = Ok x_padded /\
     shape x_padded = [r; (c + padding)%nat] /\
     rows x_padded = map (fun row => row ++ repeat fzero padding) (rows x) /\
     (Z.of_nat (c + padding) mod gs = 0)%Z /\
     (0 < Z.of_nat padding < gs)%Z /\
     dynamically_quantize_per_channel x_padded quant_min quant_max
       target_dtype (Some gs) scales_dtype true
     = Ok (quant_padded, scales, zero_points) /\
     shape quant_padded = [r; (c + padding)%nat] /\
     dynamically_quantize_per_channel x quant_min quant_max target_dtype
       (Some gs) scales_dtype true
     = Ok (quant, scales, zero_points) /\
     shape quant = shape x /\ wf quant /\
     rows quant = map (firstn c) (rows quant_padded) /\
     (c + padding = q * k)%nat /\
     data x_padded
     = concat (map (fun row => row ++ repeat fzero padding) (rows x)) /\
     shape scales = [r; q] /\ shape zero_points = [r; q] /\
     data scales
     = map (fun g => fcast scales_dtype (group_scale half_range g))
         (chunks (r * q) k (data x_padded)) /\
     data zero_points
     = map (fun _ => 0%Z) (chunks (r * q) k (data x_padded)) /\
     data quant_padded
     = concat
         (map (fun g =>
                 map (quantize_value quant_min quant_max target_dtype
                        (group_scale half_range g) (f_of_Z 0)) g)
            (chunks (r * q) k (data x_padded)))).
Proof.
  intros Hgs Hmod Hxs x padding k q half_range.
  assert (Hk : k <> 0%nat) by (unfold k; lia).
  assert (Egs : gs = Z.of_nat k) by (unfold k; lia).
  assert (Hck : (c mod k <> 0)%nat).
  { intros E. apply Hmod. rewrite Egs, <- Nat2Z.inj_mod, E. reflexivity. }
  match goal with |- _ /\ ?B => assert (Hmain : B) end;
  [ intros Hr
  | split; [|exact Hmain];
    intros quant scales zero_points Hrun;
    destruct (Nat.eq_dec r 0) as [-> | Hr];
    [ destruct (@dqpc_no_rows F SF c k xs quant_min quant_max target_dtype
                  scales_dtype Hk Hck Hxs) as [msg Hraise];
      unfold x in Hrun; rewrite Egs, Hraise in Hrun; discriminate
    | destruct (Hmain Hr)
        as (? & ? & quant0 & ? & ? & _ & _ & _ & _ & _ & _ & _ & Hrun0
            & Hshape & _);
      rewrite Hrun in Hrun0; injection Hrun0 as <- _ _; exact Hshape ] ].
  assert (Epad : padding = (k - c mod k)%nat).
  { unfold padding. rewrite Egs, <- Nat2Z.inj_mod.
    pose proof (Nat.mod_upper_bound c k Hk). lia. }
  assert (Ew : (c + padding = q * k)%nat)
    by (rewrite Epad; now apply padded_width).
  assert (Hlt : (0 < padding < k)%nat).
  { rewrite Epad. pose proof (Nat.mod_upper_bound c k Hk). lia. }
  clearbody padding k. subst gs.
  pose proof (@dqpc_padded F SF r c k xs quant_min quant_max target_dtype
                scales_dtype Hk Hr Hck Hxs) as Hrun.
  cbv zeta in Hrun. rewrite <- Epad in Hrun. fold q half_range in Hrun.
  set (xs' := concat (map (fun row => row ++ repeat fzero padding)
                        (chunks r c xs))) in *.
  assert (Hxs' : length xs' = (r * (q * k))%nat).
  { unfold xs'. rewrite pad_rows_length by assumption. now rewrite Ew. }
  pose proof (@dqpc_multiple F SF r q k xs' quant_min quant_max
                target_dtype scales_dtype true Hk Hr Hxs') as Hrun'.
  fold half_range in Hrun'.
  rewrite <- Ew in Hrun', Hrun.
  set (qdata := concat (map _ (chunks (r * q) k xs'))) in *.
  assert (Hq : length qdata = (r * (c + padding))%nat).
  { unfold qdata. rewrite (@length_concat_groups _ _ _ k), chunks_length.
    - rewrite Ew. lia.
    - apply chunks_all_length. lia. }
  assert (Htrim : Forall (fun row : list Z => length row = c)
                    (map (firstn c) (chunks r (c + padding) qdata))).
  { apply Forall_map.
    eapply Forall_impl; [|apply chunks_all_length; exact Hq].
    intros row Hrow. cbv beta in Hrow. rewrite length_firstn, Hrow. lia. }
  exists (mkTensor [r; (c + padding)%nat] xs').
  do 4 eexists.
  split; [|split; [|split; [|split; [|split; [|split; [|split;
    [|split; [|split; [|split; [|split]]]]]]]]]].
  - unfold pad_last, x. cbn [shape rev app]. rewrite rows_2. reflexivity.
  - reflexivity.
  - unfold x. rewrite !rows_2. unfold xs'.
    rewrite <- (chunks_length r c xs) at 1.
    rewrite <- (length_map (fun row => row ++ repeat fzero padding)).
    apply chunks_concat. apply Forall_map.
    eapply Forall_impl; [|apply chunks_all_length; exact Hxs].
    intros row Hrow. now rewrite length_app, repeat_length, Hrow.
  - rewrite Ew, <- Nat2Z.inj_mod, Nat.Div0.mod_mul. reflexivity.
  - lia.
  - exact Hrun'.
  - reflexivity.
  - exact Hrun.
  - reflexivity.
  - unfold wf. cbn [shape data].
    rewrite (concat_length_const Htrim), length_map, chunks_length, numel_of_2.
    reflexivity.
  - rewrite !rows_2.
    rewrite <- (chunks_length r (c + padding) qdata) at 1.
    rewrite <- (length_map (firstn c)).
    now apply chunks_concat.
  - split; [exact Ew|].
    split; [unfold x; rewrite rows_2; reflexivity|].
    repeat split; reflexivity.
Qed.

End Padding.

Lemma dynamically_quantize_per_channel_padding_witness :
  exists quant scales zero_points,
    dynamically_quantize_per_channel
      (mkTensor [2; 3]%nat [1; 2; 3; 4; -5; 6]%Q) (-8) 7 int8 (Some 2)
      float16 true
    = Ok (quant, scales, zero_points) /\
    shape quant = [2; 3]%nat.
Proof.
  assert (H1 : 2%nat <> 0%nat) by discriminate.
  assert (H2 : (0 < 2)%Z) by reflexivity.
  assert (H3 : (Z.of_nat 3 mod 2 <> 0)%Z) by discriminate.
  destruct (proj2 (@dynamically_quantize_per_channel_padding Q Q_Scalar 2 3 2
              [1; 2; 3; 4; -5; 6]%Q (-8) 7 int8 float16 H2 H3 eq_refl) H1)
    as (xp & qp & quant & scales & zps & _ & _ & _ & _ & _ & _ & _ & Hrun
        & Hshape & _).
  exists quant, scales, zps. split; [exact Hrun | exact Hshape].
Defined.


(** ** Single-column weights *)

Section SingleColumn.

Context {F : Type} {SF : Scalar F}.

Lemma get_group_qparams_symmetric_single_column r (xs : list F)
  n_bit gs precision :
  get_group_qparams_symmetric (mkTensor [r; 1%nat] xs) n_bit gs precision
  = Raise (AssertionError "groupsize > 1").
Proof.
  unfold get_group_qparams_symmetric. cbn [shape last_size rev app bind].
  destruct (Z.ltb_spec (Z.of_nat 1) gs) as [Hlt | Hge].
  - reflexivity.
  - destruct (Z.ltb_spec 1 gs); [simpl in Hge; lia | reflexivity].
Qed.

Lemma view_infer_column {A} r (xs : list A) :
  view_infer (mkTensor [r; 1%nat] xs) [] [1%nat] = Ok (mkTensor [r; 1%nat] xs).
Proof.
  rewrite view_infer_groups by (rewrite ?Nat.mod_1_r; lia).
  now rewrite numel_of_2, Nat.mul_1_r, Nat.div_1_r.
Qed.

Lemma quantize_per_channel_group_single_column r (xs sc zp : list F)
  quant_min quant_max dt gs :
  (1 < gs)%Z -> length xs = r -> length sc = r -> length zp = r ->
  count_nan (mkTensor [r; 1%nat] xs) = 0%nat ->
  quantize_per_channel_group (mkTensor [r; 1%nat] xs) (mkTensor [r; 1%nat] sc)
    (mkTensor [r; 1%nat] zp) quant_min quant_max dt gs
  = Ok (mkTensor [r; 1%nat]
          (map (fun v => clamp_to quant_min quant_max dt (fround v))
             (zip_with fadd (zip_with fdiv xs sc) zp))).
Proof.
  intros Hgs Hxs Hsc Hzp Hnan.
  unfold quantize_per_channel_group.
  destruct (Z.ltb_spec 1 gs); [|lia].
  cbn [assert bind shape last_size rev app].
  destruct (Z.ltb_spec (Z.of_nat 1) gs); [|simpl in *; lia].
  cbn [bind Nat.eqb]. change (Z.of_nat 1) with 1%Z.
  change (py_mod 1 1) with (@Ok Z 0).
  cbn [bind Z.eqb assert dim shape length Nat.eqb].
  change (Z.to_nat 1) with 1%nat.
  rewrite view_infer_column. cbn [bind].
  unfold count_nan in *. cbn [data] in *. rewrite Hnan.
  cbn [Nat.eqb assert bind].
  rewrite !view_infer_column. cbn [bind].
  assert (Hn : numel_of [r; 1%nat] = r) by (rewrite numel_of_2; lia).
  rewrite tzip_same by (rewrite Hn; assumption). cbn [bind].
  rewrite tzip_same
    by (rewrite Hn, ?zip_with_length; congruence).
  cbn [bind]. unfold view, tmap, numel. cbn [shape data].
  rewrite Nat.eqb_refl. reflexivity.
Qed.

End SingleColumn.

(** C10: [get_group_qparams_symmetric] fails its [groupsize > 1] assertion
    for every 2-D input whose trailing dimension is 1, whatever group size
    is requested (a larger group size is first narrowed to 1), so
    [group_quantize_tensor_symmetric] never quantizes a single-column
    matrix; [quantize_per_channel_group] itself accepts such an input, with
    one scale and zero-point per row, through its own narrowing rule. *)
Theorem single_column_weights_rejected
  (F : Type) (SF : Scalar F) (r : nat) (xs : list F)
  (n_bit gs : Z) (precision : dtype) :
  get_group_qparams_symmetric (mkTensor [r; 1%nat] xs) n_bit gs precision
  = Raise (AssertionError "groupsize > 1") /\
  group_quantize_tensor_symmetric (mkTensor [r; 1%nat] xs) n_bit gs precision
  = Raise (AssertionError "groupsize > 1") /\
  (forall sc zp quant_min quant_max dt,
     (1 < gs)%Z -> length xs = r -> length sc = r -> length zp = r ->
     count_nan (mkTensor [r; 1%nat] xs) = 0%nat ->
     exists q,
       quantize_per_channel_group (mkTensor [r; 1%nat] xs)
         (mkTensor [r; 1%nat] sc) (mkTensor [r; 1%nat] zp)
         quant_min quant_max dt gs = Ok q /\
       shape q = [r; 1%nat] /\ wf q).
Proof.
  split; [|split].
  - apply get_group_qparams_symmetric_single_column.
  - unfold group_quantize_tensor_symmetric.
    now rewrite get_group_qparams_symmetric_single_column.
  - intros sc zp quant_min quant_max dt Hgs Hxs Hsc Hzp Hnan.
    eexists. split; [now apply quantize_per_channel_group_single_column|].
    split; [reflexivity|]. unfold wf. cbn [shape data].
    rewrite length_map, !zip_with_length, numel_of_2 by
      (rewrite ?zip_with_length; congruence).
    lia.
Qed.

Lemma single_column_weights_rejected_witness :
  exists q,
    quantize_per_channel_group (mkTensor [2; 1]%nat [3; -1]%Q)
      (mkTensor [2; 1]%nat [1 # 2; 1 # 4]%Q) (mkTensor [2; 1]%nat [0; 0]%Q)
      (-8) 7 int8 128 = Ok q /\
    shape q = [2; 1]%nat /\ wf q.
Proof.
  assert (H : (1 < 128)%Z) by reflexivity.
  exact (proj2 (proj2
    (@single_column_weights_rejected Q Q_Scalar 2 [3; -1]%Q 4 128 float32))
    [1 # 2; 1 # 4]%Q [0; 0]%Q (-8) 7 int8 H eq_refl eq_refl eq_refl eq_refl).
Defined.

(** ** The narrowing rule of the per-channel-group operators *)

Lemma bind_ok_inv {A B} (m : result A) (k : A -> result B) b :
  bind m k = Ok b -> exists a, m = Ok a /\ k a = Ok b.
Proof. destruct m as [a|e]; simpl; [eauto | discriminate]. Qed.

Lemma assert_ok_inv b cond : assert b cond = Ok tt -> b = true.
Proof. destruct b; [reflexivity | discriminate]. Qed.

Lemma broadcast_dim_one g : broadcast_dim g 1 = Ok g.
Proof.
  unfold broadcast_dim. destruct (Nat.eqb_spec g 1); [now subst | reflexivity].
Qed.

Lemma broadcast_shapes_col a g b :
  broadcast_shapes [a; g] [b; 1%nat] = (x <- broadcast_dim a b ;; Ok [x; g]).
Proof.
  unfold broadcast_shapes. simpl. rewrite broadcast_dim_one. simpl.
  destruct (broadcast_dim a b); reflexivity.
Qed.

(** Broadcasting the rows of the grouped data against the scales and then
    the zero-points, or the other way round, gives the same row count. *)
Lemma broadcast_dim_swap G S Z m1 :
  broadcast_dim G S = Ok m1 -> broadcast_dim m1 Z = Ok G ->
  exists m1', broadcast_dim G Z = Ok m1' /\ broadcast_dim m1' S = Ok G.
Proof.
  intros H1 H2.
  destruct (broadcast_dim_compat _ _ H1) as [HG _].
  destruct (broadcast_dim_compat _ _ H2) as [Hm HZ].
  assert (E : m1 = G) by (destruct HG, Hm; congruence).
  subst m1. exists G. split; [|exact H1].
  destruct HZ as [-> | ->];
    [apply broadcast_dim_same | apply broadcast_dim_one].
Qed.

Section Narrowing.

Context {F : Type} {SF : Scalar F}.

Lemma narrow_step c sc slead gs :
  (if Z.of_nat c <? gs
   then sc_last <- last_size (slead ++ [sc]) ;; Ok (sc_last =? 1)%nat
   else Ok false)
  = Ok ((Z.of_nat c <? gs) && (sc =? 1)%nat).
Proof.
  rewrite last_size_app. destruct (Z.of_nat c <? gs); reflexivity.
Qed.

Lemma quantize_per_channel_group_narrowed
  (input scales zps : tensor F) qmin qmax dt gs gs2 lead c slead sc :
  shape input = lead ++ [c] -> shape scales = slead ++ [sc] ->
  1 < gs -> 1 < gs2 ->
  narrowing_rule c sc gs = narrowing_rule c sc gs2 ->
  quantize_per_channel_group input scales zps qmin qmax dt gs
  = quantize_per_channel_group input scales zps qmin qmax dt gs2.
Proof.
  intros Hin Hsc Hgs Hgs2 Heq. unfold quantize_per_channel_group.
  rewrite Hin, Hsc.
  destruct (Z.ltb_spec 1 gs); [|lia]. destruct (Z.ltb_spec 1 gs2); [|lia].
  cbn [assert bind]. rewrite last_size_app. cbn [bind].
  rewrite !narrow_step. cbn [bind].
  change (if (Z.of_nat c <? gs) && (sc =? 1)%nat then Z.of_nat c else gs)
    with (narrowing_rule c sc gs).
  change (if (Z.of_nat c <? gs2) && (sc =? 1)%nat then Z.of_nat c else gs2)
    with (narrowing_rule c sc gs2).
  now rewrite Heq.
Qed.

Lemma dequantize_per_channel_group_narrowed
  (w_int8 : tensor Z) (scales zps : tensor F) qmin qmax dt odt gs gs2
  lead c slead sc :
  shape w_int8 = lead ++ [c] -> shape scales = slead ++ [sc] ->
  1 < gs -> 1 < gs2 ->
  narrowing_rule c sc gs = narrowing_rule c sc gs2 ->
  dequantize_per_channel_group w_int8 scales zps qmin qmax dt gs odt
  = dequantize_per_channel_group w_int8 scales zps qmin qmax dt gs2 odt.
Proof.
  intros Hin Hsc Hgs Hgs2 Heq. unfold dequantize_per_channel_group.
  rewrite Hin, Hsc.
  destruct (Z.ltb_spec 1 gs); [|lia]. destruct (Z.ltb_spec 1 gs2); [|lia].
  cbn [assert bind]. rewrite last_size_app. cbn [bind].
  rewrite !narrow_step. cbn [bind].
  change (if (Z.of_nat c <? gs) && (sc =? 1)%nat then Z.of_nat c else gs)
    with (narrowing_rule c sc gs).
  change (if (Z.of_nat c <? gs2) && (sc =? 1)%nat then Z.of_nat c else gs2)
    with (narrowing_rule c sc gs2).
  now rewrite Heq.
Qed.

Lemma narrowing_rule_nonzero c sc gs :
  1 < gs -> Z.of_nat c mod narrowing_rule c sc gs <> 0 ->
  narrowing_rule c sc gs <> 0.
Proof.
  unfold narrowing_rule. intros Hgs Hm E.
  destruct ((Z.of_nat c <? gs) && (sc =? 1)%nat); [|lia].
  rewrite E in Hm. now rewrite Z.mod_0_r in Hm.
Qed.

Lemma quantize_per_channel_group_indivisible
  (input scales zps : tensor F) qmin qmax dt gs lead c slead sc :
  shape input = lead ++ [c] -> shape scales = slead ++ [sc] ->
  1 < gs -> Z.of_nat c mod narrowing_rule c sc gs <> 0 ->
  quantize_per_channel_group input scales zps qmin qmax dt gs
  = Raise (AssertionError "input.shape[-1] % group_size == 0").
Proof.
  intros Hin Hsc Hgs Hm. unfold quantize_per_channel_group.
  rewrite Hin, Hsc. destruct (Z.ltb_spec 1 gs); [|lia].
  cbn [assert bind]. rewrite last_size_app. cbn [bind].
  rewrite narrow_step. cbn [bind].
  change (if (Z.of_nat c <? gs) && (sc =? 1)%nat then Z.of_nat c else gs)
    with (narrowing_rule c sc gs).
  unfold py_mod.
  destruct (Z.eqb_spec (narrowing_rule c sc gs) 0) as [E|_];
    [now apply narrowing_rule_nonzero in Hm|].
  cbn [bind].
  destruct (Z.eqb_spec (Z.of_nat c mod narrowing_rule c sc gs) 0);
    [contradiction | reflexivity].
Qed.

Lemma dequantize_per_channel_group_indivisible
  (w_int8 : tensor Z) (scales zps : tensor F) qmin qmax dt odt gs
  lead c slead sc :
  shape w_int8 = lead ++ [c] -> shape scales = slead ++ [sc] ->
  1 < gs -> Z.of_nat c mod narrowing_rule c sc gs <> 0 ->
  dequantize_per_channel_group w_int8 scales zps qmin qmax dt gs odt
  = Raise (AssertionError "w_int8.shape[-1] % group_size == 0").
Proof.
  intros Hin Hsc Hgs Hm. unfold dequantize_per_channel_group.
  rewrite Hin, Hsc. destruct (Z.ltb_spec 1 gs); [|lia].
  cbn [assert bind]. rewrite last_size_app. cbn [bind].
  rewrite narrow_step. cbn [bind].
  change (if (Z.of_nat c <? gs) && (sc =? 1)%nat then Z.of_nat c else gs)
    with (narrowing_rule c sc gs).
  unfold py_mod.
  destruct (Z.eqb_spec (narrowing_rule c sc gs) 0) as [E|_];
    [now apply narrowing_rule_nonzero in Hm|].
  cbn [bind].
  destruct (Z.eqb_spec (Z.of_nat c mod narrowing_rule c sc gs) 0);
    [contradiction | reflexivity].
Qed.

Lemma view_infer_groups_inv {A} (t t' : tensor A) g :
  view_infer t [] [g] = Ok t' ->
  g <> 0%nat /\ (numel t mod g = 0)%nat /\
  t' = mkTensor [(numel t / g)%nat; g] (data t).
Proof.
  unfold view_infer.
  replace (numel_of [] * numel_of [g])%nat with g by (simpl; lia).
  destruct (Nat.eqb_spec g 0); [discriminate|].
  destruct (Nat.eqb_spec (numel t mod g) 0); [|discriminate].
  intros [= <-]. auto.
Qed.

Lemma tzip_shape_inv {A B C} (f : A -> B -> C) a b c :
  tzip f a b = Ok c -> broadcast_shapes (shape a) (shape b) = Ok (shape c).
Proof.
  unfold tzip. destruct (broadcast_shapes (shape a) (shape b));
    [|discriminate]. simpl. now intros [= <-].
Qed.

Lemma quantize_then_dequantize_per_channel_group
  (input scales zps : tensor F) qmin qmax dt odt gs q :
  quantize_per_channel_group input scales zps qmin qmax dt gs = Ok q ->
  shape q = shape input /\
  exists w,
    dequantize_per_channel_group q scales zps qmin qmax dt gs odt = Ok w /\
    shape w = shape input.
Proof.
  unfold quantize_per_channel_group. intros H.
  apply bind_ok_inv in H as ([] & Hgs & H).
  apply bind_ok_inv in H as (c & Hc & H).
  apply bind_ok_inv in H as (narrow & Hnar & H).
  set (g := if narrow then Z.of_nat c else gs) in *.
  apply bind_ok_inv in H as (m & Hm & H).
  apply bind_ok_inv in H as ([] & Hdiv & H).
  apply bind_ok_inv in H as ([] & Hdim & H).
  apply bind_ok_inv in H as (tq & Htq & H).
  apply bind_ok_inv in H as ([] & Hnan & H).
  apply bind_ok_inv in H as (s' & Hs & H).
  apply bind_ok_inv in H as (z' & Hz & H).
  apply bind_ok_inv in H as (q1 & H1 & H).
  apply bind_ok_inv in H as (q2 & H2 & H).
  apply assert_ok_inv in Hgs, Hdiv, Hdim.
  apply view_infer_groups_inv in Htq as (Hg0 & Hgm & ->).
  pose proof Hs as Hs0. pose proof Hz as Hz0.
  apply view_infer_groups_inv in Hs as (_ & _ & Es).
  apply view_infer_groups_inv in Hz as (_ & _ & Ez).
  apply tzip_shape_inv in H1, H2. rewrite Es in H1. rewrite Ez in H2.
  cbn [shape] in H1, H2.
  rewrite broadcast_shapes_col in H1.
  apply bind_ok_inv in H1 as (m1 & Hb1 & [= E1]).
  rewrite <- E1, broadcast_shapes_col in H2.
  apply bind_ok_inv in H2 as (m2 & Hb2 & [= E2]).
  unfold view in H.
  destruct (Nat.eqb_spec (numel_of (shape input))
              (numel (tmap (fun v => clamp_to qmin qmax dt (fround v)) q2)))
    as [Hnum|]; [|discriminate].
  injection H as <-. split; [reflexivity|].
  unfold numel, tmap in Hnum. cbn [shape] in Hnum.
  rewrite <- E2, numel_of_2 in Hnum.
  set (G := (numel input / Z.to_nat g)%nat) in *.
  assert (HG : numel_of (shape input) = (G * Z.to_nat g)%nat).
  { unfold G, numel in *. rewrite Nat.mul_comm.
    now apply Nat.Div0.div_exact. }
  assert (Em : m2 = G).
  { rewrite HG in Hnum. apply Nat.mul_cancel_r in Hnum; congruence. }
  subst m2.
  destruct (@broadcast_dim_swap _ _ _ _ Hb1 Hb2) as (m1' & Hb1' & Hb2').
  unfold dequantize_per_channel_group. cbn [shape data].
  rewrite Hgs. cbn [assert bind]. rewrite Hc. cbn [bind].
  rewrite Hnar. cbn [bind]. fold g. rewrite Hm. cbn [bind].
  rewrite Hdiv. cbn [assert bind].
  unfold dim in *. cbn [shape]. rewrite Hdim. cbn [assert bind].
  rewrite view_infer_groups by assumption. cbn [bind].
  rewrite Hs0, Hz0. cbn [bind]. rewrite Es, Ez.
  fold (numel input). fold G.
  unfold tzip at 1. cbn [shape data tmap].
  rewrite broadcast_shapes_col, Hb1'. cbn [bind].
  unfold tzip. cbn [shape data].
  rewrite broadcast_shapes_col, Hb2'. cbn [bind].
  unfold view, numel. cbn [shape data]. rewrite numel_of_2, HG, Nat.eqb_refl.
  cbn [bind]. eexists. split; reflexivity.
Qed.

End Narrowing.

(** C6: [quantize_per_channel_group] and [dequantize_per_channel_group]
    apply one narrowing rule.  Both reject a group size that is not above 1;
    past that, each depends on the requested group size only through the
    narrowed one (the trailing dimension, when the request exceeds it and
    the scales have trailing dimension 1), so every request that narrows to
    the same value gives the same result; both fail unless the narrowed
    group size divides the trailing dimension; and whenever the quantizer
    returns, the dequantizer called with the same arguments returns a tensor
    of the input's shape. *)
Theorem per_channel_group_narrowing
  (F : Type) (SF : Scalar F) (input : tensor F) (w_int8 : tensor Z)
  (scales zero_points : tensor F) (quant_min quant_max : Z)
  (dt output_dtype : dtype) (group_size : Z)
  (lead slead : list nat) (c sc : nat) :
  shape input = lead ++ [c] -> shape w_int8 = lead ++ [c] ->
  shape scales = slead ++ [sc] ->
  let g := narrowing_rule c sc group_size in
  let quantize := quantize_per_channel_group input scales zero_points
                    quant_min quant_max dt in
  let dequantize gs := dequantize_per_channel_group w_int8 scales zero_points
                         quant_min quant_max dt gs output_dtype in
  (group_size <= 1 ->
   quantize group_size = Raise (AssertionError "group_size > 1") /\
   dequantize group_size = Raise (AssertionError "group_size > 1")) /\
  (1 < group_size ->
   forall gs2, 1 < gs2 -> narrowing_rule c sc gs2 = g ->
     quantize group_size = quantize gs2 /\
     dequantize group_size = dequantize gs2) /\
  (1 < group_size -> Z.of_nat c mod g <> 0 ->
   quantize group_size
   = Raise (AssertionError "input.shape[-1] % group_size == 0") /\
   dequantize group_size
   = Raise (AssertionError "w_int8.shape[-1] % group_size == 0")) /\
  (forall q,
     quantize group_size = Ok q ->
     shape q = shape input /\
     exists w,
       dequantize_per_channel_group q scales zero_points quant_min quant_max
         dt group_size output_dtype = Ok w /\
       shape w = shape input).
Proof.
  intros Hin Hw Hsc g quantize dequantize. unfold quantize, dequantize.
  split; [|split; [|split]].
  - intros Hle. unfold quantize_per_channel_group,
      dequantize_per_channel_group.
    destruct (Z.ltb_spec 1 group_size); [lia|]. split; reflexivity.
  - intros Hgs gs2 Hgs2 Heq. split.
    + eapply quantize_per_channel_group_narrowed; eauto.
    + eapply dequantize_per_channel_group_narrowed; eauto.
  - intros Hgs Hm. split.
    + eapply quantize_per_channel_group_indivisible; eauto.
    + eapply dequantize_per_channel_group_indivisible; eauto.
  - intros q Hq. now apply quantize_then_dequantize_per_channel_group.
Qed.

Lemma per_channel_group_narrowing_witness :
  quantize_per_channel_group (mkTensor [2; 4]%nat [1; 2; 3; 4; 5; 6; 7; 8]%Q)
    (mkTensor [2; 1]%nat [1; 2]%Q) (mkTensor [2; 1]%nat [0; 0]%Q)
    (-8) 7 int8 128
  = quantize_per_channel_group
      (mkTensor [2; 4]%nat [1; 2; 3; 4; 5; 6; 7; 8]%Q)
      (mkTensor [2; 1]%nat [1; 2]%Q) (mkTensor [2; 1]%nat [0; 0]%Q)
      (-8) 7 int8 4.
Proof.
  assert (H1 : 1 < 128) by reflexivity.
  assert (H2 : 1 < 4) by reflexivity.
  exact (proj1 (proj1 (proj2
    (@per_channel_group_narrowing Q Q_Scalar
       (mkTensor [2; 4]%nat [1; 2; 3; 4; 5; 6; 7; 8]%Q)
       (mkTensor [2; 4]%nat [1; 2; 3; 4; 5; 6; 7; 7])
       (mkTensor [2; 1]%nat [1; 2]%Q) (mkTensor [2; 1]%nat [0; 0]%Q)
       (-8) 7 int8 float32 128 [2%nat] [2%nat] 4 1
       eq_refl eq_refl eq_refl)) H1 4 H2 eq_refl)).
Defined.

(** ** int4 packing *)

Lemma nibble_range lo n (z : Z) :
  lo <= z < lo + Z.of_nat n ->
  In z (map (fun i => lo + Z.of_nat i) (seq 0 n)).
Proof.
  intros H. apply in_map_iff. exists (Z.to_nat (z - lo)). split; [lia|].
  apply in_seq. lia.
Qed.

Lemma pack_pair_roundtrip a b :
  -8 <= a <= 7 -> 0 <= b <= 15 ->
  unpack_first (pack_pair a b) = a /\ unpack_second (pack_pair a b) = b.
Proof.
  intros Ha Hb.
  assert (Hall :
    forallb (fun a =>
      forallb (fun b =>
        (unpack_first (pack_pair a b) =? a)
        && (unpack_second (pack_pair a b) =? b))
        (map (fun i => 0 + Z.of_nat i) (seq 0 16)))
      (map (fun i => -8 + Z.of_nat i) (seq 0 16)) = true)
    by (vm_compute; reflexivity).
  rewrite forallb_forall in Hall.
  specialize (Hall a (@nibble_range (-8) 16 a ltac:(lia))).
  rewrite forallb_forall in Hall.
  specialize (Hall b (@nibble_range 0 16 b ltac:(lia))).
  apply andb_true_iff in Hall. destruct Hall as [H1 H2].
  split; now apply Z.eqb_eq.
Qed.

Lemma odds_cons2 {A} (a b : A) l : odds (a :: b :: l) = b :: odds l.
Proof. destruct l; reflexivity. Qed.

Lemma evens_odds_length {A} n : forall l : list A,
  length l = (2 * n)%nat -> length (evens l) = n /\ length (odds l) = n.
Proof.
  induction n as [|n IH]; intros l H.
  - destruct l; [split; reflexivity | discriminate].
  - destruct l as [|a [|b l]]; try (simpl in H; lia).
    destruct (IH l) as [He Ho]; [simpl in H; lia|].
    rewrite odds_cons2. simpl. now rewrite He, Ho.
Qed.

Lemma unpack_pack_data n : forall l : list Z,
  length l = (2 * n)%nat -> pairs_packable l ->
  let packed := zip_with Z.lor
                  (map (fun v => wrap_int int8 (Z.shiftl v 4)) (evens l))
                  (odds l) in
  concat (zip_with (fun x y => [x; y])
            (map (fun v => wrap_int int8 (Z.shiftr v 4)) packed)
            (map (fun v => wrap_int int8 (Z.land v 15)) packed)) = l.
Proof.
  induction n as [|n IH]; intros l H Hp.
  - destruct l; [reflexivity | discriminate].
  - destruct l as [|a [|b l]]; try (simpl in H; lia).
    destruct Hp as [[Ha Hb] Hp].
    specialize (IH l ltac:(simpl in H; lia) Hp). cbv zeta in IH |- *.
    destruct (pack_pair_roundtrip Ha Hb) as [H1 H2].
    unfold pack_pair, unpack_first, unpack_second in H1, H2.
    rewrite odds_cons2. change (evens (a :: b :: l)) with (a :: evens l).
    cbn [map zip_with concat app]. rewrite H1, H2. f_equal. f_equal.
    exact IH.
Qed.

Lemma pack_int4_from_int8_odd lead d (xs : list Z) :
  (d mod 2 <> 0)%nat ->
  pack_int4_from_int8 (mkTensor (lead ++ [d]) xs)
  = Raise (AssertionError "shape[-1] % 2 == 0").
Proof.
  intros Hd. unfold pack_int4_from_int8. cbn [shape].
  rewrite last_size_app. cbn [bind].
  destruct (Nat.eqb_spec (d mod 2) 0); [contradiction | reflexivity].
Qed.

Lemma view_infer_flat {A} (t : tensor A) :
  view_infer t [] [] = Ok (mkTensor [numel t] (data t)).
Proof.
  unfold view_infer. change (numel_of [] * numel_of [])%nat with 1%nat.
  change (1 =? 0)%nat with false. cbv iota.
  now rewrite Nat.mod_1_r, Nat.div_1_r.
Qed.

Lemma pack_int4_from_int8_even lead m (xs : list Z) :
  length xs = (numel_of lead * (m * 2))%nat ->
  pack_int4_from_int8 (mkTensor (lead ++ [(m * 2)%nat]) xs)
  = Ok (mkTensor (lead ++ [m])
          (zip_with Z.lor
             (map (fun v => wrap_int int8 (Z.shiftl v 4)) (evens xs))
             (odds xs))).
Proof.
  intros Hxs.
  destruct (@evens_odds_length _ (numel_of lead * m) xs ltac:(lia))
    as [He Ho].
  unfold pack_int4_from_int8. cbn [shape].
  rewrite last_size_app. cbn [bind].
  rewrite Nat.Div0.mod_mul. cbn [Nat.eqb assert bind].
  rewrite view_infer_flat. cbn [bind].
  unfold tensor1, tmap. cbn [shape data].
  rewrite He, Ho.
  rewrite tzip_same
    by (rewrite ?length_map, ?He, ?Ho; simpl; lia).
  cbn [bind]. unfold down_size. rewrite last_size_app. cbn [bind].
  rewrite Nat.Div0.mod_mul. cbn [Nat.eqb assert bind].
  rewrite removelast_snoc, Nat.div_mul by discriminate.
  unfold view, numel. cbn [shape data].
  replace (numel_of (lead ++ [m]) =? numel_of [(numel_of lead * m)%nat])%nat
    with true
    by (symmetry; apply Nat.eqb_eq; rewrite numel_of_app; simpl; lia).
  reflexivity.
Qed.

Lemma unpack_int4_to_int8_shape lead m (ps : list Z) :
  length ps = (numel_of lead * m)%nat ->
  unpack_int4_to_int8 (mkTensor (lead ++ [m]) ps)
  = Ok (mkTensor (lead ++ [(m * 2)%nat])
          (concat
             (zip_with (fun x y => [x; y])
                (map (fun v => wrap_int int8 (Z.shiftr v 4)) ps)
                (map (fun v => wrap_int int8 (Z.land v 15)) ps)))).
Proof.
  intros Hps. unfold unpack_int4_to_int8, stack_last, tmap.
  cbn [shape data].
  destruct (list_eq_dec Nat.eq_dec (lead ++ [m]) (lead ++ [m]));
    [|contradiction].
  cbn [bind]. unfold up_size. rewrite last_size_app. cbn [bind].
  rewrite removelast_snoc.
  unfold view, numel. cbn [shape data].
  replace (numel_of (lead ++ [(m * 2)%nat])
           =? numel_of ((lead ++ [m]) ++ [2%nat]))%nat with true
    by (symmetry; apply Nat.eqb_eq; rewrite !numel_of_app; simpl; lia).
  reflexivity.
Qed.

(** The round trip that does hold: the first value of every pair in
    [-8, 7], the second in [0, 15]. *)
Lemma unpack_pack_packable lead m (xs : list Z) :
  length xs = (numel_of lead * (m * 2))%nat -> pairs_packable xs ->
  (p <- pack_int4_from_int8 (mkTensor (lead ++ [(m * 2)%nat]) xs) ;;
   unpack_int4_to_int8 p)
  = Ok (mkTensor (lead ++ [(m * 2)%nat]) xs).
Proof.
  intros Hxs Hp.
  destruct (@evens_odds_length _ (numel_of lead * m) xs ltac:(lia))
    as [He Ho].
  rewrite pack_int4_from_int8_even by assumption. cbn [bind].
  rewrite unpack_int4_to_int8_shape
    by (rewrite zip_with_length; rewrite length_map; congruence).
  now rewrite (@unpack_pack_data (numel_of lead * m)) by (assumption || lia).
Qed.

(** A negative second value is never recovered: the low nibble read back
    is at least 0. *)
Lemma unpack_pack_negative_second_never a b :
  -8 <= a <= 7 -> -8 <= b < 0 ->
  (p <- pack_int4_from_int8 (mkTensor [1; 2]%nat [a; b]) ;;
   unpack_int4_to_int8 p)
  <> Ok (mkTensor [1; 2]%nat [a; b]).
Proof.
  intros Ha Hb.
  change [1%nat; 2%nat] with ([1%nat] ++ [(1 * 2)%nat]).
  rewrite pack_int4_from_int8_even by reflexivity. cbn [bind].
  rewrite unpack_int4_to_int8_shape by reflexivity.
  cbn [evens odds tl map zip_with concat app].
  remember (Z.lor (wrap_int int8 (Z.shiftl a 4)) b) as p eqn:Ep.
  assert (Hl : 0 <= Z.land p (Z.ones 4) < 2 ^ 4)
    by (rewrite Z.land_ones by lia; apply Z.mod_pos_bound; lia).
  change (Z.ones 4) with 15 in Hl.
  assert (Hw : wrap_int int8 (Z.land p 15) = Z.land p 15).
  { unfold wrap_int, wrap_signed. rewrite Z.mod_small by (simpl in *; lia).
    lia. }
  rewrite Hw. clear Ep Hw. intros [= _ H2].
  lia.
Qed.

(** C2: the round trip fails on the code.  The int8 row [0, -1] lies in
    [-8, 7] and has an even length; it is packed into the byte -1, because
    the sign bits of the second value cover the high nibble, and unpacked
    into [-1, 15]. *)
Theorem unpack_pack_negative_second :
  pack_int4_from_int8 (mkTensor [1; 2]%nat [0; -1])
  = Ok (mkTensor [1; 1]%nat [-1]) /\
  unpack_int4_to_int8 (mkTensor [1; 1]%nat [-1])
  = Ok (mkTensor [1; 2]%nat [-1; 15]) /\
  (p <- pack_int4_from_int8 (mkTensor [1; 2]%nat [0; -1]) ;;
   unpack_int4_to_int8 p)
  <> Ok (mkTensor [1; 2]%nat [0; -1]).
Proof.
  split; [reflexivity|]. split; [reflexivity | discriminate].
Qed.

(** ** The dimension check of the per-token operators *)

Lemma quantize_per_token_dim_mismatch {F} {SF : Scalar F}
  (check : Z -> Z -> dtype -> result unit)
  (input scales zero_points : tensor F) quant_min quant_max dt :
  check quant_min quant_max dt = Ok tt ->
  numel_of (removelast (shape input)) <> numel scales \/
  numel_of (removelast (shape input)) <> numel zero_points ->
  exists cond,
    quantize_per_token check input scales zero_points quant_min quant_max dt
    = Raise (AssertionError cond).
Proof.
  intros Hcheck Hne. unfold quantize_per_token.
  rewrite Hcheck. cbn [bind].
  unfold _per_token_quant_qparam_dim_check.
  destruct (Nat.eqb_spec (numel_of (removelast (shape input))) (numel scales));
    cbn [assert bind]; [|eexists; reflexivity].
  destruct (Nat.eqb_spec (numel_of (removelast (shape input)))
              (numel zero_points));
    cbn [assert bind]; [|eexists; reflexivity].
  destruct Hne; contradiction.
Qed.

(** C3: [dequantize_per_token] does not run the check.  For an input of
    shape (2, 3, 8), that is 6 tokens, and scales and zero-points of 3
    elements (shape (3, 1)), the check of [quantize_per_token] raises the
    dimension-mismatch assertion, while [dequantize_per_token] broadcasts
    the 3 parameters over the 6 tokens and returns a tensor.  With the 5
    parameters of the specification's example it fails, but in the
    broadcast of the subtraction, not in a dimension check. *)
Theorem dequantize_per_token_no_dim_check :
  let input := mkTensor [2; 3; 8]%nat (repeat 1 48) in
  let scales := mkTensor [3; 1]%nat [1; 2; 3]%Q in
  let zero_points := mkTensor [3; 1]%nat [0; 0; 0]%Q in
  _per_token_quant_qparam_dim_check input scales zero_points
  = Raise (AssertionError "num_tokens == scales.numel()") /\
  quantize_per_token (fun _ _ _ => Ok tt) (tmap inject_Z input) scales
    zero_points (-128) 127 int8
  = Raise (AssertionError "num_tokens == scales.numel()") /\
  dequantize_per_token input scales zero_points (-128) 127 int8 float32
  = Ok (mkTensor [2; 3; 8]%nat
          (concat (repeat (repeat 1 8 ++ repeat 2 8 ++ repeat 3 8) 2))%Q) /\
  dequantize_per_token input
    (mkTensor [5]%nat [1; 1; 1; 1; 1]%Q) (mkTensor [5]%nat [0; 0; 0; 0; 0]%Q)
    (-128) 127 int8 float32
  = Raise (RuntimeError
             "The size of tensor a must match the size of tensor b").
Proof.
  cbv zeta. split; [reflexivity|]. split; [reflexivity|].
  split; [vm_compute; reflexivity | reflexivity].
Qed.

(** ** Runs on float32

    The symmetric chooser on an all-zero, an all-positive and an
    all-negative block of float32 values: the scales are the machine
    epsilon and twice the float32 nearest to 2 / 7.5, all positive. *)

Example get_group_qparams_symmetric_binary32 :
  let f := Binary32.of_Z in
  exists s0 s1 s2,
    get_group_qparams_symmetric
      (mkTensor [3; 2]%nat [f 0; f 0; f 1; f 2; f (-1); f (-2)]) 4 2 float32
    = Ok (mkTensor [3; 1]%nat [s0; s1; s2],
          mkTensor [3; 1]%nat [f 0; f 0; f 0]) /\
    s0 = Binary32.of_Q float32_eps /\
    s1 = Binary32.of_Q (4 # 15) /\ s2 = Binary32.of_Q (4 # 15) /\
    SFltb (f 0) s0 = true /\ SFltb (f 0) s1 = true.
Proof.
  do 3 eexists. split; [vm_compute; reflexivity|].
  repeat split; reflexivity.
Qed.

(** The per-channel chooser on an all-zero float32 row with float16
    scales: the scale is the machine epsilon, which float16 holds. *)
Example dynamically_quantize_per_channel_binary32 :
  let f := Binary32.of_Z in
  dynamically_quantize_per_channel (mkTensor [1; 2]%nat [f 0; f 0])
    (-128) 127 int8 None float16 true
  = Ok (mkTensor [1; 2]%nat [0; 0],
        mkTensor [1; 1]%nat [Binary32.of_Q float32_eps],
        mkTensor [1; 1]%nat [0]).
Proof. vm_compute. reflexivity. Qed.

(** Group-wise int4 quantization of a float32 matrix, and the dequantized
    values. *)
Example group_quantize_binary32 :
  let f := Binary32.of_Z in
  exists scales zeros,
    group_quantize_tensor_symmetric
      (mkTensor [2; 4]%nat (map f [1; 2; 3; 4; -5; 6; 7; 8])) 4 2 float32
    = Ok (mkTensor [2; 4]%nat [4; 7; 6; 7; -6; 7; 7; 7], scales, zeros) /\
    exists w_dq,
      dequantize_per_channel_group
        (mkTensor [2; 4]%nat [4; 7; 6; 7; -6; 7; 7; 7]) scales zeros
        (-8) 7 int8 2 float32 = Ok w_dq /\
      shape w_dq = [2; 4]%nat.
Proof.
  do 2 eexists. split; [vm_compute; reflexivity|].
  eexists. split; [vm_compute; reflexivity | reflexivity].
Qed.

(** ** Padded sizes *)

Lemma lcm_step_pos x y :
  0 < x -> 0 < y -> lcm_step x y = Ok (Z.lcm x y) /\ 0 < Z.lcm x y.
Proof.
  intros Hx Hy. unfold lcm_step, py_floordiv.
  pose proof (Z.gcd_nonneg x y) as Hg.
  assert (Hg0 : Z.gcd x y <> 0)
    by (intros E; apply Z.gcd_eq_0_l in E; lia).
  destruct (Z.eqb_spec (Z.gcd x y) 0); [contradiction|].
  assert (E : x * y / Z.gcd x y = Z.lcm x y).
  { unfold Z.lcm.
    rewrite Z.divide_div_mul_exact by (auto using Z.gcd_divide_r).
    rewrite Z.abs_eq; [reflexivity|].
    apply Z.mul_nonneg_nonneg; [lia|].
    apply Z.div_pos; lia. }
  rewrite E. split; [reflexivity|].
  pose proof (Z.lcm_nonneg x y).
  assert (Z.lcm x y <> 0) by (rewrite Z.lcm_eq_0; lia). lia.
Qed.

Lemma py_reduce_lcm rest : forall x,
  0 < x -> Forall (fun a => 0 < a) rest ->
  py_reduce lcm_step x rest = Ok (fold_left Z.lcm rest x) /\
  0 < fold_left Z.lcm rest x.
Proof.
  unfold py_reduce.
  induction rest as [|y rest IH]; intros x Hx Hr; simpl; [auto|].
  inversion Hr as [|? ? Hy Hr']; subst.
  destruct (lcm_step_pos Hx Hy) as [-> Hl]. now apply IH.
Qed.

Lemma fold_lcm_divide rest : forall x m,
  (fold_left Z.lcm rest x | m) <-> (x | m) /\ Forall (fun a => (a | m)) rest.
Proof.
  induction rest as [|y rest IH]; intros x m; simpl.
  - split; [intros H; split; [exact H | constructor] | now intros [H _]].
  - rewrite IH, Z.lcm_divide_iff. split.
    + intros [[Hx Hy] Hr]. split; [exact Hx | now constructor].
    + intros [Hx Hr]. inversion Hr; subst. auto.
Qed.

Lemma args_with_unit (args : list Z) :
  hd 1 args :: tl (args ++ [1]) = args ++ [1].
Proof. destruct args; reflexivity. Qed.

(** The modulus [find_multiple] works with: the least common multiple of
    its arguments. *)
Lemma find_multiple_modulus args :
  Forall (fun a => 0 < a) args ->
  exists k,
    py_reduce lcm_step (hd 1 args) (tl (args ++ [1])) = Ok k /\ 0 < k /\
    forall m, (k | m) <-> Forall (fun a => (a | m)) args.
Proof.
  intros Hargs.
  assert (Hall : Forall (fun a => 0 < a) (hd 1 args :: tl (args ++ [1]))).
  { rewrite args_with_unit. apply Forall_app. split; [exact Hargs|].
    repeat constructor. }
  inversion Hall as [|? ? Hx Hr]; subst.
  destruct (py_reduce_lcm Hx Hr) as [Hk Hpos].
  eexists. split; [exact Hk|]. split; [exact Hpos|].
  intros m. rewrite fold_lcm_divide.
  assert (E : (hd 1 args | m) /\ Forall (fun a => (a | m)) (tl (args ++ [1]))
              <-> Forall (fun a => (a | m)) (args ++ [1])).
  { rewrite <- args_with_unit. split.
    - intros [H1 H2]. now constructor.
    - intros H. inversion H; subst. auto. }
  rewrite E, Forall_app. split; [now intros [H _]|].
  intros H. split; [exact H|]. repeat constructor. apply Z.divide_1_l.
Qed.

Lemma round_up_least n k :
  0 < k ->
  let m := if n mod k =? 0 then n else n + k - n mod k in
  n <= m < n + k /\ (k | m) /\
  forall m', n <= m' -> (k | m') -> m <= m'.
Proof.
  intros Hk m. pose proof (Z.mod_pos_bound n k Hk) as Hb.
  pose proof (Z.div_mod n k ltac:(lia)) as E.
  unfold m. clear m.
  generalize dependent (n mod k). generalize dependent (n / k).
  intros q r Hb E.
  destruct (Z.eqb_spec r 0) as [E0|E0].
  - split; [lia|]. split; [|intros; lia].
    exists q. lia.
  - split; [lia|]. split.
    + exists (q + 1). lia.
    + intros m' Hm' [j ->].
      assert (q < j) by (apply Z.nle_gt; intros Hle; nia). nia.
Qed.

(** X1: [find_multiple] with positive arguments returns the least number
    that is at least [n] and a multiple of every argument; without
    arguments this is [n] itself. *)
Theorem find_multiple_least (n : Z) (args : list Z) :
  Forall (fun a => 0 < a) args ->
  exists m,
    find_multiple n args = Ok m /\ n <= m /\
    Forall (fun a => (a | m)) args /\
    forall m', n <= m' -> Forall (fun a => (a | m')) args -> m <= m'.
Proof.
  intros Hargs. destruct (find_multiple_modulus Hargs) as (k & Hk & Hpos & Hdiv).
  unfold find_multiple. rewrite Hk. cbn [bind]. unfold py_mod.
  destruct (Z.eqb_spec k 0); [lia|]. cbn [bind].
  destruct (round_up_least n Hpos) as (Hb & Hm & Hleast).
  exists (if n mod k =? 0 then n else n + k - n mod k).
  split; [now destruct (n mod k =? 0)|].
  split; [lia|]. split; [now apply Hdiv|].
  intros m' Hm' Hall. apply Hleast; [exact Hm'|]. now apply Hdiv.
Qed.

Lemma find_multiple_least_witness :
  exists m,
    find_multiple 100 [8; 12] = Ok m /\ 100 <= m /\
    Forall (fun a => (a | m)) [8; 12] /\
    forall m', 100 <= m' -> Forall (fun a => (a | m')) [8; 12] -> m <= m'.
Proof.
  apply (@find_multiple_least 100 [8; 12]).
  repeat constructor.
Defined.

Lemma py_reduce_raise {A} (f : A -> A -> result A) rest e :
  fold_left (fun acc y => a <- acc ;; f a y) rest (Raise e) = Raise e.
Proof. induction rest; simpl; auto. Qed.

Lemma lcm_step_zero x y :
  x = 0 \/ y = 0 ->
  lcm_step x y = Ok 0 \/ lcm_step x y = Raise ZeroDivisionError.
Proof.
  intros H. unfold lcm_step, py_floordiv.
  replace (x * y) with 0 by (destruct H; subst; lia).
  destruct (Z.eqb_spec (Z.gcd x y) 0); [now right | left].
  now rewrite Z.div_0_l.
Qed.

Lemma lcm_step_raise x y e : lcm_step x y = Raise e -> e = ZeroDivisionError.
Proof.
  unfold lcm_step, py_floordiv.
  destruct (Z.gcd x y =? 0); [now intros [= <-] | discriminate].
Qed.

Lemma py_reduce_lcm_zero rest :
  py_reduce lcm_step 0 rest = Ok 0 \/
  py_reduce lcm_step 0 rest = Raise ZeroDivisionError.
Proof.
  unfold py_reduce. induction rest as [|y rest IH]; simpl; [auto|].
  destruct (@lcm_step_zero 0 y) as [-> | ->]; [now left | exact IH |].
  right. apply py_reduce_raise.
Qed.

Lemma py_reduce_lcm_has_zero rest : forall x,
  In 0 rest ->
  py_reduce lcm_step x rest = Ok 0 \/
  py_reduce lcm_step x rest = Raise ZeroDivisionError.
Proof.
  induction rest as [|y rest IH]; intros x Hin; [contradiction|].
  unfold py_reduce. simpl. destruct Hin as [-> | Hin].
  - destruct (@lcm_step_zero x 0) as [-> | ->];
      [now right | apply py_reduce_lcm_zero |].
    right. apply py_reduce_raise.
  - destruct (lcm_step x y) as [a|e] eqn:E.
    + apply IH, Hin.
    + apply lcm_step_raise in E. subst e.
      right. apply py_reduce_raise.
Qed.

(** X2: [find_multiple] raises ZeroDivisionError as soon as one of its
    arguments is 0, whatever the others are. *)
Theorem find_multiple_zero_argument (n : Z) (args : list Z) :
  In 0 args -> find_multiple n args = Raise ZeroDivisionError.
Proof.
  intros Hin. unfold find_multiple.
  assert (H : py_reduce lcm_step (hd 1 args) (tl (args ++ [1])) = Ok 0 \/
              py_reduce lcm_step (hd 1 args) (tl (args ++ [1]))
              = Raise ZeroDivisionError).
  { destruct args as [|x args]; [contradiction|]. cbn [hd tl app].
    destruct Hin as [-> | Hin].
    - apply py_reduce_lcm_zero.
    - apply py_reduce_lcm_has_zero, in_or_app. now left. }
  destruct H as [-> | ->]; reflexivity.
Qed.

Lemma find_multiple_zero_argument_witness :
  find_multiple 7 [4; 0; 6] = Raise ZeroDivisionError.
Proof.
  apply (@find_multiple_zero_argument 7 [4; 0; 6]).
  right. left. reflexivity.
Defined.

(** X3: [_calc_padded_size_linear_int4] with a positive group size returns
    a size that passes [_check_linear_int4_k], lies in
    [k, k + groupsize - 1], is [k] exactly when [k] passes the check
    already, and is left as it is when it is padded again. *)
Theorem padded_size_linear_int4 (k groupsize : Z) :
  0 < groupsize ->
  exists m,
    _calc_padded_size_linear_int4 k groupsize = Ok m /\
    _check_linear_int4_k m groupsize = Ok true /\
    k <= m < k + groupsize /\
    (_check_linear_int4_k k groupsize = Ok true <-> m = k) /\
    _calc_padded_size_linear_int4 m groupsize = Ok m.
Proof.
  intros Hg. unfold _calc_padded_size_linear_int4, _check_linear_int4_k,
    find_multiple, py_reduce, lcm_step, py_floordiv, py_mod.
  cbn [hd tl app fold_left bind].
  rewrite Z.mul_1_r, Z.gcd_1_r. cbn [Z.eqb bind]. rewrite Z.div_1_r.
  destruct (Z.eqb_spec groupsize 0); [lia|]. cbn [bind].
  destruct (@round_up_least k groupsize Hg) as (Hb & [j Hj] & _).
  set (m := if k mod groupsize =? 0 then k else k + groupsize - k mod groupsize)
    in *.
  exists m.
  assert (Hm : m mod groupsize = 0) by (rewrite Hj; apply Z.mod_mul; lia).
  split; [unfold m; now destruct (k mod groupsize =? 0)|].
  rewrite Hm. cbn [Z.eqb]. split; [reflexivity|]. split; [exact Hb|].
  split; [|reflexivity].
  unfold m. pose proof (Z.mod_pos_bound k groupsize Hg).
  destruct (Z.eqb_spec (k mod groupsize) 0); split; intros H0;
    try reflexivity; try discriminate; lia.
Qed.

Lemma padded_size_linear_int4_witness :
  exists m,
    _calc_padded_size_linear_int4 100 32 = Ok m /\
    _check_linear_int4_k m 32 = Ok true /\
    100 <= m < 100 + 32 /\
    (_check_linear_int4_k 100 32 = Ok true <-> m = 100) /\
    _calc_padded_size_linear_int4 m 32 = Ok m.
Proof. apply (@padded_size_linear_int4 100 32). reflexivity. Defined.

(** ** int4 packing: the round trips that hold *)

Lemma evens_odds_interleave {A} (a : list A) : forall b,
  length a = length b ->
  evens (concat (zip_with (fun x y => [x; y]) a b)) = a /\
  odds (concat (zip_with (fun x y => [x; y]) a b)) = b.
Proof.
  induction a as [|x a IH]; intros [|y b] H; try discriminate;
    [split; reflexivity|].
  destruct (IH b) as [He Ho]; [simpl in H; lia|].
  cbn [zip_with concat app]. rewrite odds_cons2.
  cbn [evens]. now rewrite He, Ho.
Qed.

Lemma interleave_length {A} (a : list A) : forall b,
  length a = length b ->
  length (concat (zip_with (fun x y => [x; y]) a b)) = (length a * 2)%nat.
Proof.
  induction a as [|x a IH]; intros [|y b] H; try discriminate;
    [reflexivity|].
  cbn [zip_with concat app length]. rewrite IH by (simpl in H; lia). lia.
Qed.

(** Every int8 byte is the pack of the two values unpacked from it, and
    these are a signed nibble and an unsigned nibble. *)
Lemma pack_unpack_byte p :
  -128 <= p <= 127 ->
  pack_pair (unpack_first p) (unpack_second p) = p /\
  (-8 <= unpack_first p <= 7 /\ 0 <= unpack_second p <= 15).
Proof.
  intros Hp.
  assert (Hall :
    forallb (fun p =>
      (pack_pair (unpack_first p) (unpack_second p) =? p)
      && ((-8 <=? unpack_first p) && (unpack_first p <=? 7))
      && ((0 <=? unpack_second p) && (unpack_second p <=? 15)))
      (map (fun i => -128 + Z.of_nat i) (seq 0 256)) = true)
    by (vm_compute; reflexivity).
  rewrite forallb_forall in Hall.
  specialize (Hall p (@nibble_range (-128) 256 p ltac:(lia))).
  rewrite !andb_true_iff, !Z.leb_le, Z.eqb_eq in Hall. lia.
Qed.

(** A packed byte is an int8 value. *)
Lemma pack_pair_int8 a b :
  -8 <= a <= 7 -> 0 <= b <= 15 -> -128 <= pack_pair a b <= 127.
Proof.
  intros Ha Hb.
  assert (Hall :
    forallb (fun a =>
      forallb (fun b =>
        (-128 <=? pack_pair a b) && (pack_pair a b <=? 127))
        (map (fun i => 0 + Z.of_nat i) (seq 0 16)))
      (map (fun i => -8 + Z.of_nat i) (seq 0 16)) = true)
    by (vm_compute; reflexivity).
  rewrite forallb_forall in Hall.
  specialize (Hall a (@nibble_range (-8) 16 a ltac:(lia))).
  rewrite forallb_forall in Hall.
  specialize (Hall b (@nibble_range 0 16 b ltac:(lia))).
  rewrite andb_true_iff, !Z.leb_le in Hall. exact Hall.
Qed.

Lemma pairs_packable_interleave (ps : list Z) :
  Forall (fun p => -128 <= p <= 127) ps ->
  pairs_packable
    (concat (zip_with (fun x y => [x; y])
               (map unpack_first ps) (map unpack_second ps))) /\
  zip_with Z.lor
    (map (fun v => wrap_int int8 (Z.shiftl v 4)) (map unpack_first ps))
    (map unpack_second ps) = ps.
Proof.
  induction 1 as [|p ps Hp _ [IH1 IH2]]; [split; [exact I | reflexivity]|].
  destruct (pack_unpack_byte Hp) as [E R].
  cbn [map zip_with concat app pairs_packable]. split; [now split|].
  rewrite IH2. f_equal. exact E.
Qed.

Lemma packed_int8 n : forall l : list Z,
  length l = (2 * n)%nat -> pairs_packable l ->
  Forall (fun p => -128 <= p <= 127)
    (zip_with Z.lor (map (fun v => wrap_int int8 (Z.shiftl v 4)) (evens l))
       (odds l)).
Proof.
  induction n as [|n IH]; intros l H Hp.
  - destruct l; [constructor | discriminate].
  - destruct l as [|a [|b l]]; try (simpl in H; lia).
    destruct Hp as [[Ha Hb] Hp]. rewrite odds_cons2.
    cbn [evens map zip_with]. constructor.
    + exact (pack_pair_int8 Ha Hb).
    + apply IH; [simpl in H; lia | exact Hp].
Qed.

(** X4: unpacking an int8 tensor and packing the result gives the tensor
    back: [pack_int4_from_int8] is a left inverse of [unpack_int4_to_int8]
    on every int8 tensor of rank at least 1.  The unpacked tensor has twice
    the trailing dimension and holds, pair by pair, a value of [-8, 7] and a
    value of [0, 15]. *)
Theorem pack_after_unpack (lead : list nat) (m : nat) (ps : list Z) :
  length ps = (numel_of lead * m)%nat ->
  Forall (fun p => -128 <= p <= 127) ps ->
  exists u,
    unpack_int4_to_int8 (mkTensor (lead ++ [m]) ps) = Ok u /\
    shape u = lead ++ [(m * 2)%nat] /\ wf u /\
    pairs_packable (data u) /\
    pack_int4_from_int8 u = Ok (mkTensor (lead ++ [m]) ps).
Proof.
  intros Hlen Hps.
  destruct (pairs_packable_interleave Hps) as [Hpk Hlor].
  assert (Hl : length (map unpack_first ps) = length (map unpack_second ps))
    by now rewrite !length_map.
  destruct (evens_odds_interleave _ _ Hl) as [He Ho].
  pose proof (interleave_length _ _ Hl) as Hn. rewrite length_map in Hn.
  eexists. split; [now apply unpack_int4_to_int8_shape|].
  fold unpack_first unpack_second.
  change (map (fun v => wrap_int int8 (Z.shiftr v 4)) ps)
    with (map unpack_first ps).
  change (map (fun v => wrap_int int8 (Z.land v 15)) ps)
    with (map unpack_second ps).
  split; [reflexivity|]. split.
  { unfold wf. cbn [shape data]. rewrite Hn, numel_of_app. simpl. lia. }
  split; [exact Hpk|].
  rewrite pack_int4_from_int8_even by (rewrite Hn; lia).
  now rewrite He, Ho, Hlor.
Qed.

Lemma pack_after_unpack_witness :
  exists u,
    unpack_int4_to_int8 (mkTensor [2; 2]%nat [-1; 127; -128; 23]) = Ok u /\
    shape u = [2; 4]%nat /\ wf u /\
    pairs_packable (data u) /\
    pack_int4_from_int8 u = Ok (mkTensor [2; 2]%nat [-1; 127; -128; 23]).
Proof.
  apply (@pack_after_unpack [2%nat] 2 [-1; 127; -128; 23] eq_refl).
  repeat constructor; discriminate.
Defined.

(** X5: packing and unpacking gives the tensor back when, pair by pair, the
    first value lies in [-8, 7] and the second in [0, 15]; the packed tensor
    has half the trailing dimension and holds int8 values. *)
Theorem unpack_after_pack (lead : list nat) (m : nat) (xs : list Z) :
  length xs = (numel_of lead * (m * 2))%nat -> pairs_packable xs ->
  exists p,
    pack_int4_from_int8 (mkTensor (lead ++ [(m * 2)%nat]) xs) = Ok p /\
    shape p = lead ++ [m] /\ wf p /\
    Forall (fun b => -128 <= b <= 127) (data p) /\
    unpack_int4_to_int8 p = Ok (mkTensor (lead ++ [(m * 2)%nat]) xs).
Proof.
  intros Hxs Hp.
  destruct (@evens_odds_length _ (numel_of lead * m) xs ltac:(lia))
    as [He Ho].
  pose proof (unpack_pack_packable lead m xs Hxs Hp) as Hrt.
  rewrite pack_int4_from_int8_even in Hrt |- * by assumption.
  cbn [bind] in Hrt.
  eexists. split; [reflexivity|]. split; [reflexivity|]. split.
  { unfold wf. cbn [shape data].
    rewrite zip_with_length, length_map, He, numel_of_app by
      (rewrite length_map; congruence).
    simpl. lia. }
  split; [|exact Hrt].
  apply (@packed_int8 (numel_of lead * m)); [lia | exact Hp].
Qed.

Lemma unpack_after_pack_witness :
  exists p,
    pack_int4_from_int8 (mkTensor [1; 4]%nat [-8; 15; 7; 0]) = Ok p /\
    shape p = [1; 2]%nat /\ wf p /\
    Forall (fun b => -128 <= b <= 127) (data p) /\
    unpack_int4_to_int8 p = Ok (mkTensor [1; 4]%nat [-8; 15; 7; 0]).
Proof.
  apply (@unpack_after_pack [1%nat] 2 [-8; 15; 7; 0] eq_refl).
  repeat split; discriminate.
Defined.

(** ** Rounding and clamping in exact arithmetic *)

Local Open Scope Q_scope.

Lemma Qround_half_even_spec (x : Q) :
  exists n : Z,
    Qround_half_even x = inject_Z n /\
    inject_Z n - (1 # 2) <= x /\ x <= inject_Z n + (1 # 2) /\
    (forall L : Z, Z.even L = true -> inject_Z L - (1 # 2) <= x -> (L <= n)%Z).
Proof.
  unfold Qround_half_even.
  pose proof (Qfloor_le x) as Hlo. pose proof (Qlt_floor x) as Hhi.
  set (f := Qfloor x) in *.
  rewrite inject_Z_plus in Hhi. change (inject_Z 1) with 1 in Hhi.
  assert (Hfl : forall L : Z, inject_Z L - (1 # 2) <= x -> (L - 1 <= f)%Z).
  { intros L HL. apply Z.lt_succ_r. unfold Z.succ, Z.sub.
    rewrite Zlt_Qlt, !inject_Z_plus, inject_Z_opp.
    change (inject_Z 1) with 1. lra. }
  destruct (x - inject_Z f ?= 1 # 2) eqn:C.
  - apply Qeq_alt in C. destruct (Z.even f) eqn:Ev.
    + exists f. split; [reflexivity|]. split; [lra|]. split; [lra|].
      intros L HevL HL. pose proof (Hfl L HL).
      destruct (Z.eq_dec f (L - 1)) as [E|]; [|lia].
      rewrite E in Ev. replace (L - 1)%Z with (Z.pred L) in Ev by lia.
      rewrite Z.even_pred in Ev. rewrite <- Z.negb_even in Ev.
      rewrite HevL in Ev. discriminate.
    + exists (f + 1)%Z. rewrite inject_Z_plus. change (inject_Z 1) with 1.
      split; [reflexivity|]. split; [lra|]. split; [lra|].
      intros L _ HL. pose proof (Hfl L HL). lia.
  - apply Qlt_alt in C. exists f. split; [reflexivity|].
    split; [lra|]. split; [lra|].
    intros L _ HL. pose proof (Hfl L HL).
    destruct (Z.eq_dec f (L - 1)) as [E|]; [|lia].
    rewrite E in C. unfold Z.sub in C.
    rewrite inject_Z_plus, inject_Z_opp in C.
    change (inject_Z 1) with 1 in C. lra.
  - apply Qgt_alt in C. exists (f + 1)%Z.
    rewrite inject_Z_plus. change (inject_Z 1) with 1.
    split; [reflexivity|]. split; [lra|]. split; [lra|].
    intros L _ HL. pose proof (Hfl L HL). lia.
Qed.

Lemma Qtrunc_comp (x y : Q) : x == y -> Qtrunc x = Qtrunc y.
Proof.
  intros E. unfold Qtrunc. rewrite (Qfloor_comp _ _ E), (Qceiling_comp _ _ E).
  assert (Hb : Qle_bool 0 x = Qle_bool 0 y).
  { apply eq_true_iff_eq. rewrite !Qle_bool_iff. now rewrite E. }
  now rewrite Hb.
Qed.

Lemma Qtrunc_Z (n : Z) : Qtrunc (inject_Z n) = n.
Proof.
  unfold Qtrunc. rewrite Qfloor_Z, Qceiling_Z. now destruct (Qle_bool _ _).
Qed.

Lemma Qmax_Z (a b : Z) : Qmax (inject_Z a) (inject_Z b) == inject_Z (Z.max a b).
Proof.
  destruct (Z.max_spec a b) as [[H ->] | [H ->]].
  - apply Q.max_r. rewrite <- Zle_Qle. lia.
  - apply Q.max_l. rewrite <- Zle_Qle. lia.
Qed.

Lemma Qmin_Z (a b : Z) : Qmin (inject_Z a) (inject_Z b) == inject_Z (Z.min a b).
Proof.
  destruct (Z.min_spec a b) as [[H ->] | [H ->]].
  - apply Q.min_l. rewrite <- Zle_Qle. lia.
  - apply Q.min_r. rewrite <- Zle_Qle. lia.
Qed.

(** Clamping and converting a value that is an integer. *)
Lemma clamp_to_Z (quant_min quant_max : Z) (dt : dtype) (v : Q) (n : Z) :
  v == inject_Z n ->
  clamp_to quant_min quant_max dt v
  = wrap_int dt (Z.min (Z.max n quant_min) quant_max).
Proof.
  intros E. unfold clamp_to, fclamp.
  cbn [fmin fmax f_of_Z f_to_Z Q_Scalar]. f_equal.
  rewrite <- Qtrunc_Z. apply Qtrunc_comp.
  rewrite E, Qmax_Z, Qmin_Z. reflexivity.
Qed.

Lemma wrap_int8_small (z : Z) : (-128 <= z <= 127)%Z -> wrap_int int8 z = z.
Proof.
  intros H. unfold wrap_int, wrap_signed.
  rewrite Z.mod_small by (simpl; lia). simpl. lia.
Qed.

(** An element of a block lies between the minimum and the maximum. *)
Lemma fold_Qmin_le_in l : forall x v,
  v = x \/ In v l -> fold_left Qmin l x <= v.
Proof.
  induction l as [|y l IH]; intros x v [-> | H]; simpl.
  - apply Qle_refl.
  - contradiction.
  - eapply Qle_trans; [apply fold_Qmin_le | apply Q.le_min_l].
  - destruct H as [-> | H].
    + eapply Qle_trans; [apply fold_Qmin_le | apply Q.le_min_r].
    + apply IH. now right.
Qed.

Lemma fold_Qmax_ge_in l : forall x v,
  v = x \/ In v l -> v <= fold_left Qmax l x.
Proof.
  induction l as [|y l IH]; intros x v [-> | H]; simpl.
  - apply Qle_refl.
  - contradiction.
  - eapply Qle_trans; [apply Q.le_max_l | apply fold_Qmax_ge].
  - destruct H as [-> | H].
    + eapply Qle_trans; [apply Q.le_max_r | apply fold_Qmax_ge].
    + apply IH. now right.
Qed.

Lemma list_amin_amax_in (g : list Q) (v : Q) :
  In v g -> list_amin g <= v /\ v <= list_amax g.
Proof.
  destruct g as [|x l]; [contradiction|]. intros [<- | H]; simpl; split;
    try (apply fold_Qmin_le_in; auto); try (apply fold_Qmax_ge_in; auto).
Qed.

(** The scale of a block times the half range bounds every element. *)
Lemma group_scale_bounds (h : Q) (g : list Q) (v : Q) :
  0 < h -> In v g -> Qabs v <= group_scale h g * h.
Proof.
  intros Hh Hin. destruct (list_amin_amax_in _ _ Hin) as [Hlo Hhi].
  unfold group_scale, fzero. cbn [fmax fmin fdiv fneg f_of_Q f_of_Z Q_Scalar].
  assert (HA : Qabs v <= Qmax (- Qmin (list_amin g) (inject_Z 0))
                           (Qmax (list_amax g) (inject_Z 0))).
  { change (inject_Z 0) with 0. apply Qabs_Qle_condition.
    generalize dependent (list_amin g). generalize dependent (list_amax g).
    intros mx Hhi mn Hlo. q_cases; lra. }
  eapply Qle_trans; [exact HA|].
  generalize (Qmax (- Qmin (list_amin g) (inject_Z 0))
                (Qmax (list_amax g) (inject_Z 0))).
  intros A.
  assert (E : A == A / h * h) by (field; lra).
  rewrite E at 1. apply Qmult_le_compat_r; [apply Q.le_max_l | lra].
Qed.

(** A value [y] of the symmetric range [-(M + 1/2), M + 1/2], rounded to
    the integer [n] and clamped to [-M - 1, M]: the result is within 1/2
    of [y]. *)
Lemma symmetric_round_clamp (M n : Z) (y : Q) :
  (0 <= M)%Z -> Qabs y <= inject_Z M + (1 # 2) ->
  inject_Z n - (1 # 2) <= y -> y <= inject_Z n + (1 # 2) ->
  let c := Z.min (Z.max n (- M - 1)) M in
  (- M - 1 <= c <= M)%Z /\ Qabs (y - inject_Z c) <= 1 # 2.
Proof.
  intros HM Hy Hlo Hhi c. apply Qabs_Qle_condition in Hy.
  assert (Hn : (- M - 1 <= n <= M + 1)%Z).
  { split.
    - apply Z.lt_pred_le. unfold Z.pred, Z.sub.
      rewrite Zlt_Qlt, !inject_Z_plus, !inject_Z_opp.
      change (inject_Z 1) with 1. change (inject_Z (-1)) with (-1). lra.
    - apply Z.lt_succ_r. unfold Z.succ.
      rewrite Zlt_Qlt, !inject_Z_plus. change (inject_Z 1) with 1. lra. }
  split; [unfold c; lia|]. apply Qabs_Qle_condition.
  destruct (Z.eq_dec n (M + 1)) as [E|E].
  - assert (Ec : c = M) by (unfold c; lia). subst n.
    rewrite inject_Z_plus in Hlo. change (inject_Z 1) with 1 in Hlo.
    rewrite Ec. lra.
  - assert (Ec : c = n) by (unfold c; lia). rewrite Ec. lra.
Qed.

(** The same in terms of the element [v] and its scale [s]: the clamped
    integer times the scale is within half a scale of [v]. *)
Lemma scaled_error (s v : Q) (c : Z) :
  0 < s -> Qabs (v / s - inject_Z c) <= 1 # 2 ->
  Qabs (v - inject_Z c * s) <= s / 2.
Proof.
  intros Hs Hd.
  assert (E : v - inject_Z c * s == (v / s - inject_Z c) * s) by (field; lra).
  rewrite E, Qabs_Qmult, (Qabs_pos s) by lra.
  setoid_replace (s / 2) with ((1 # 2) * s) by field.
  apply Qmult_le_compat_r; [exact Hd | lra].
Qed.

Lemma scaled_range (M : Z) (s v : Q) :
  0 < s -> Qabs v <= s * (inject_Z M + (1 # 2)) ->
  Qabs (v / s) <= inject_Z M + (1 # 2).
Proof.
  intros Hs Hv. apply Qabs_Qle_condition in Hv. apply Qabs_Qle_condition.
  split.
  - apply Qle_shift_div_l; [exact Hs|]. lra.
  - apply Qle_shift_div_r; [exact Hs|]. lra.
Qed.

(** Symmetric quantization of one element with a scale that covers it, as
    [dynamically_quantize_per_channel] does it. *)
Lemma symmetric_quantize_error (M : Z) (s v : Q) :
  (0 <= M <= 127)%Z -> 0 < s -> Qabs v <= s * (inject_Z M + (1 # 2)) ->
  let qv := quantize_value (- M - 1) M int8 s (f_of_Z 0) v in
  (- M - 1 <= qv <= M)%Z /\ Qabs (v - inject_Z qv * s) <= s / 2.
Proof.
  intros HM Hs Hv qv. unfold qv, quantize_value.
  cbn [fadd fround fdiv f_of_Z Q_Scalar].
  destruct (Qround_half_even_spec (v / s)) as (n & -> & Hlo & Hhi & _).
  rewrite (@clamp_to_Z _ _ _ _ n) by (change (inject_Z 0) with 0; lra).
  destruct (@symmetric_round_clamp M n (v / s) ltac:(lia)
              (@scaled_range M s v Hs Hv) Hlo Hhi) as [Hc Hd].
  rewrite wrap_int8_small by lia. split; [exact Hc|].
  now apply scaled_error.
Qed.

(** The same as [quantize_per_channel_group] does it: the zero-point is
    added before the rounding. *)
Lemma symmetric_group_quantize_error (M : Z) (s v : Q) :
  (0 <= M <= 127)%Z -> 0 < s -> Qabs v <= s * (inject_Z M + (1 # 2)) ->
  let qv := clamp_to (- M - 1) M int8 (fround (fadd (fdiv v s) (f_of_Z 0))) in
  (- M - 1 <= qv <= M)%Z /\ Qabs (v - inject_Z qv * s) <= s / 2.
Proof.
  intros HM Hs Hv qv. unfold qv.
  cbn [fadd fround fdiv f_of_Z Q_Scalar]. change (inject_Z 0) with 0.
  destruct (Qround_half_even_spec (v / s + 0)) as (n & -> & Hlo & Hhi & _).
  rewrite (@clamp_to_Z _ _ _ _ n) by reflexivity.
  destruct (@symmetric_round_clamp M n (v / s) ltac:(lia)
              (@scaled_range M s v Hs Hv) ltac:(lra) ltac:(lra)) as [Hc Hd].
  rewrite wrap_int8_small by lia. split; [exact Hc|].
  now apply scaled_error.
Qed.

Local Close Scope Q_scope.

(** ** Elements and their groups, by flat index *)

Lemma nth_error_concat_const {A} k (ls : list (list A)) : forall i m,
  Forall (fun c => length c = k) ls -> (m < k)%nat ->
  nth_error (concat ls) (i * k + m)
  = match nth_error ls i with Some c => nth_error c m | None => None end.
Proof.
  induction ls as [|c ls IH]; intros i m Hall Hm.
  - simpl. now rewrite !nth_error_nil.
  - inversion Hall as [|? ? Hc Hall']; subst. cbn [concat].
    destruct i as [|i].
    + simpl. apply nth_error_app1. lia.
    + rewrite nth_error_app2 by lia.
      replace (S i * length c + m - length c)%nat
        with (i * length c + m)%nat by lia.
      cbn [nth_error]. now apply IH.
Qed.

Lemma nth_error_group_at {A} k i m (xs : list A) :
  (m < k)%nat ->
  nth_error (group_at k i xs) m = nth_error xs (i * k + m).
Proof.
  intros Hm. unfold group_at. rewrite nth_error_firstn, nth_error_skipn.
  destruct (Nat.ltb_spec m k); [reflexivity | lia].
Qed.

(** Element [j] of data cut into [n] groups of [k] elements lies in group
    [j / k]; a map that treats every element with a function of its group
    treats element [j] with the function of group [j / k]. *)
Lemma nth_error_grouped {A B} (f : list A -> A -> B) n k (xs : list A) j :
  length xs = (n * k)%nat -> (j < n * k)%nat ->
  exists v,
    nth_error xs j = Some v /\ In v (group_at k (j / k) xs) /\
    nth_error (concat (map (fun g => map (f g) g) (chunks n k xs))) j
    = Some (f (group_at k (j / k) xs) v).
Proof.
  intros Hxs Hj.
  assert (Hk : k <> 0%nat) by (intros ->; lia).
  pose proof (Nat.div_mod_eq j k) as Ej.
  pose proof (Nat.mod_upper_bound j k Hk) as Hm.
  assert (Hi : (j / k < n)%nat) by (apply Nat.Div0.div_lt_upper_bound; lia).
  set (i := (j / k)%nat) in *. set (m := (j mod k)%nat) in *.
  assert (Ej' : j = (i * k + m)%nat) by lia.
  destruct (nth_error xs j) as [v|] eqn:Ev;
    [|apply nth_error_None in Ev; lia].
  exists v. split; [reflexivity|].
  assert (Hg : nth_error (group_at k i xs) m = Some v)
    by (rewrite nth_error_group_at, <- Ej' by exact Hm; exact Ev).
  split; [eapply nth_error_In; exact Hg|].
  rewrite Ej' at 1.
  rewrite (@nth_error_concat_const _ k).
  - rewrite nth_error_map, chunks_nth_error by exact Hi. cbn [option_map].
    rewrite nth_error_map, Hg. reflexivity.
  - apply Forall_map. eapply Forall_impl; [|apply chunks_all_length; exact Hxs].
    intros c Hc. now rewrite length_map.
  - exact Hm.
Qed.

(** ** The error of symmetric per-channel quantization *)

Local Open Scope Q_scope.

Lemma symmetric_half_range (M : Z) :
  inject_Z (M - (- M - 1)) / 2 == inject_Z M + (1 # 2).
Proof.
  replace (M - (- M - 1))%Z with (2 * M + 1)%Z by lia.
  rewrite inject_Z_plus, inject_Z_mult.
  change (inject_Z 1) with 1. change (inject_Z 2) with 2. field.
Qed.

(** X6: symmetric per-channel quantization to a signed range
    [-quant_max - 1, quant_max] within int8, in exact arithmetic: every
    quantized value lies in the range, and multiplied by the scale of its
    group it is within half a scale of the element it stands for.  Stated
    for a matrix of [r] rows of [q] groups of [k] elements; with one group
    per row the group size may be left out. *)
Theorem dynamically_quantize_per_channel_error
  (r q k : nat) (xs : list Q) (quant_max : Z) (group_size : option Z)
  (scales_dtype : dtype) (en : bool) :
  k <> 0%nat -> r <> 0%nat -> length xs = (r * (q * k))%nat ->
  (0 <= quant_max <= 127)%Z ->
  group_size = Some (Z.of_nat k) \/ (group_size = None /\ q = 1%nat) ->
  exists quant scales zero_points,
    dynamically_quantize_per_channel (mkTensor [r; (q * k)%nat] xs)
      (- quant_max - 1) quant_max int8 group_size scales_dtype en
    = Ok (quant, scales, zero_points) /\
    shape quant = [r; (q * k)%nat] /\ shape scales = [r; q] /\
    forall j, (j < r * (q * k))%nat ->
      exists v qv s,
        nth_error xs j = Some v /\
        nth_error (data quant) j = Some qv /\
        nth_error (data scales) (j / k) = Some s /\
        (- quant_max - 1 <= qv <= quant_max)%Z /\
        0 < s /\ Qabs (v - inject_Z qv * s) <= s / 2.
Proof.
  intros Hk Hr Hxs HM Hgs.
  assert (Hrun := @dqpc_multiple Q Q_Scalar r q k xs (- quant_max - 1)
                    quant_max int8 scales_dtype en Hk Hr Hxs).
  assert (Hrun' :
    dynamically_quantize_per_channel (mkTensor [r; (q * k)%nat] xs)
      (- quant_max - 1) quant_max int8 group_size scales_dtype en
    = dynamically_quantize_per_channel (mkTensor [r; (q * k)%nat] xs)
        (- quant_max - 1) quant_max int8 (Some (Z.of_nat k)) scales_dtype en).
  { destruct Hgs as [-> | [-> ->]]; [reflexivity|].
    rewrite dqpc_none by lia. do 3 f_equal. lia. }
  rewrite Hrun', Hrun. clear Hrun Hrun'.
  do 3 eexists. split; [reflexivity|]. cbn [shape data].
  split; [reflexivity|]. split; [reflexivity|].
  intros j Hj.
  set (h := inject_Z (quant_max - (- quant_max - 1)) / 2).
  assert (Hh : 0 < h).
  { unfold h. rewrite symmetric_half_range.
    assert (0 <= inject_Z quant_max) by (change 0 with (inject_Z 0);
      rewrite <- Zle_Qle; lia). lra. }
  destruct (@nth_error_grouped _ _
              (fun g => quantize_value (- quant_max - 1) quant_max int8
                          (group_scale h g) (f_of_Z 0))
              (r * q) k xs j ltac:(lia) ltac:(lia))
    as (v & Hv & Hin & Hq).
  set (g := group_at k (j / k) xs) in *.
  exists v, (quantize_value (- quant_max - 1) quant_max int8
               (group_scale h g) (f_of_Z 0) v), (group_scale h g).
  split; [exact Hv|]. split; [exact Hq|]. split.
  { rewrite nth_error_map_group; [reflexivity|].
    apply Nat.Div0.div_lt_upper_bound. lia. }
  pose proof (group_scale_pos h g) as Hs.
  pose proof (@group_scale_bounds h g v Hh Hin) as Hb.
  assert (Hb' : Qabs v <= group_scale h g * (inject_Z quant_max + (1 # 2))).
  { unfold h in Hb at 2. now rewrite symmetric_half_range in Hb. }
  destruct (@symmetric_quantize_error quant_max (group_scale h g) v
              HM Hs Hb') as [Hrange Herr].
  split; [exact Hrange|]. split; [exact Hs | exact Herr].
Qed.

Lemma dynamically_quantize_per_channel_error_witness :
  exists quant scales zero_points,
    dynamically_quantize_per_channel
      (mkTensor [2; 4]%nat [1; -2; 3; 4; 0; 0; (1 # 3); -7]) (-8) 7 int8
      (Some 2%Z) float16 true
    = Ok (quant, scales, zero_points) /\
    shape quant = [2; 4]%nat /\ shape scales = [2; 2]%nat.
Proof.
  assert (H1 : 2%nat <> 0%nat) by discriminate.
  assert (H2 : (0 <= 7 <= 127)%Z) by (split; discriminate).
  destruct (@dynamically_quantize_per_channel_error 2 2 2
              [1; -2; 3; 4; 0; 0; (1 # 3); -7] 7 (Some 2%Z) float16 true
              H1 H1 eq_refl H2 (or_introl eq_refl))
    as (quant & scales & zps & Hrun & Hq & Hs & _).
  exists quant, scales, zps. split; [exact Hrun|]. split; assumption.
Defined.

Local Close Scope Q_scope.

(** ** The per-channel-group operators on grouped data *)

Lemma nth_error_zip_with {A B C} (f : A -> B -> C) xs : forall ys j,
  nth_error (zip_with f xs ys) j
  = match nth_error xs j, nth_error ys j with
    | Some x, Some y => Some (f x y)
    | _, _ => None
    end.
Proof.
  induction xs as [|x xs IH]; intros ys j.
  - simpl. now rewrite !nth_error_nil.
  - destruct ys as [|y ys].
    + simpl. rewrite !nth_error_nil. now destruct (nth_error (x :: xs) j).
    + destruct j as [|j]; simpl; [reflexivity | apply IH].
Qed.

(** One parameter per group, repeated over the [k] elements of the group:
    element [j] meets the parameter of group [j / k]. *)
Lemma nth_error_spread {A} k (ys : list A) j :
  k <> 0%nat ->
  nth_error (concat (map (fun y => repeat y k) ys)) j = nth_error ys (j / k).
Proof.
  intros Hk.
  pose proof (Nat.div_mod_eq j k) as Ej.
  pose proof (Nat.mod_upper_bound j k Hk) as Hm.
  replace j with (j / k * k + j mod k)%nat at 1 by lia.
  rewrite (@nth_error_concat_const _ k); [| |exact Hm].
  - rewrite nth_error_map. destruct (nth_error ys (j / k)); [|reflexivity].
    cbn [option_map]. now apply nth_error_repeat.
  - apply Forall_map, Forall_forall. intros y _. apply repeat_length.
Qed.

Lemma spread_length {A} k (ys : list A) :
  length (concat (map (fun y => repeat y k) ys)) = (length ys * k)%nat.
Proof.
  rewrite (@concat_length_const _ k), length_map; [reflexivity|].
  apply Forall_map, Forall_forall. intros y _. apply repeat_length.
Qed.

Section Grouped.

Context {F : Type} {SF : Scalar F}.

Lemma narrowed_narrowing_rule q k gs :
  (1 < k)%nat -> narrowed (q * k) gs = Z.of_nat k ->
  1 < gs /\ narrowing_rule (q * k) q gs = Z.of_nat k.
Proof.
  unfold narrowed, narrowing_rule. intros Hk.
  destruct (Z.ltb_spec (Z.of_nat (q * k)) gs) as [Hlt | Hge]; intros E.
  - assert (q = 1%nat) by nia. subst q.
    split; [lia|]. cbn [Nat.eqb andb]. exact E.
  - split; [lia|]. exact E.
Qed.

(** [quantize_per_channel_group] on [r] rows of [q] groups of [k]
    elements, with one scale and one zero-point per group. *)
Lemma quantize_per_channel_group_grouped r q k (xs ss zs : list F)
  quant_min quant_max dt gs :
  (1 < k)%nat -> narrowed (q * k) gs = Z.of_nat k ->
  length xs = (r * (q * k))%nat ->
  length ss = (r * q)%nat -> length zs = (r * q)%nat ->
  count_nan (mkTensor [r; (q * k)%nat] xs) = 0%nat ->
  quantize_per_channel_group (mkTensor [r; (q * k)%nat] xs)
    (mkTensor [r; q] ss) (mkTensor [r; q] zs) quant_min quant_max dt gs
  = Ok (mkTensor [r; (q * k)%nat]
          (map (fun v => clamp_to quant_min quant_max dt (fround v))
             (zip_with fadd
                (zip_with fdiv xs (concat (map (fun y => repeat y k) ss)))
                (concat (map (fun y => repeat y k) zs))))).
Proof.
  intros Hk Hn Hxs Hss Hzs Hnan.
  destruct (narrowed_narrowing_rule q gs Hk Hn) as [Hgs Hrule].
  unfold quantize_per_channel_group.
  destruct (Z.ltb_spec 1 gs); [|lia]. cbn [assert bind shape].
  change [r; (q * k)%nat] with ([r] ++ [(q * k)%nat]).
  change [r; q] with ([r] ++ [q]).
  rewrite last_size_app. cbn [bind]. rewrite narrow_step. cbn [bind].
  change (if (Z.of_nat (q * k) <? gs) && (q =? 1)%nat
          then Z.of_nat (q * k) else gs)
    with (narrowing_rule (q * k) q gs).
  rewrite Hrule. unfold py_mod.
  destruct (Z.eqb_spec (Z.of_nat k) 0); [lia|]. cbn [bind].
  rewrite <- Nat2Z.inj_mod, Nat.Div0.mod_mul.
  cbn [Z.of_nat Z.eqb assert bind dim shape length app Nat.eqb].
  rewrite Nat2Z.id.
  assert (Hnum : numel_of [r; (q * k)%nat] = (r * q * k)%nat)
    by (rewrite numel_of_2; lia).
  rewrite view_infer_groups by (rewrite ?Hnum, ?Nat.Div0.mod_mul; lia).
  rewrite Hnum, Nat.div_mul by lia. cbn [bind].
  unfold count_nan in *. cbn [data] in *. rewrite Hnan.
  cbn [Nat.eqb assert bind].
  rewrite !view_infer_groups by (rewrite ?Nat.mod_1_r; lia).
  rewrite numel_of_2, Nat.div_1_r. cbn [bind].
  change [(r * q)%nat; k] with ([(r * q)%nat] ++ [k]).
  change [(r * q)%nat; 1%nat] with ([(r * q)%nat] ++ [1%nat]).
  rewrite tzip_bcast_last by (rewrite ?numel_of_app; simpl; lia).
  cbn [bind].
  rewrite tzip_bcast_last
    by (rewrite ?zip_with_length; rewrite ?spread_length, ?numel_of_app;
        simpl; lia).
  cbn [bind]. unfold view, tmap, numel. cbn [shape data].
  replace (numel_of [r; (q * k)%nat] =? numel_of ([(r * q)%nat] ++ [k]))%nat
    with true by (symmetry; apply Nat.eqb_eq; simpl; lia).
  reflexivity.
Qed.

(** [dequantize_per_channel_group] on the same layout. *)
Lemma dequantize_per_channel_group_grouped r q k (qs : list Z)
  (ss zs : list F) quant_min quant_max dt gs odt :
  (1 < k)%nat -> narrowed (q * k) gs = Z.of_nat k ->
  length qs = (r * (q * k))%nat ->
  length ss = (r * q)%nat -> length zs = (r * q)%nat ->
  dequantize_per_channel_group (mkTensor [r; (q * k)%nat] qs)
    (mkTensor [r; q] ss) (mkTensor [r; q] zs) quant_min quant_max dt gs odt
  = Ok (mkTensor [r; (q * k)%nat]
          (map (fcast odt)
             (zip_with fmul
                (zip_with fsub (map f_of_Z qs)
                   (concat (map (fun y => repeat y k) zs)))
                (concat (map (fun y => repeat y k) ss))))).
Proof.
  intros Hk Hn Hqs Hss Hzs.
  destruct (narrowed_narrowing_rule q gs Hk Hn) as [Hgs Hrule].
  unfold dequantize_per_channel_group.
  destruct (Z.ltb_spec 1 gs); [|lia]. cbn [assert bind shape].
  change [r; (q * k)%nat] with ([r] ++ [(q * k)%nat]).
  change [r; q] with ([r] ++ [q]).
  rewrite last_size_app. cbn [bind]. rewrite narrow_step. cbn [bind].
  change (if (Z.of_nat (q * k) <? gs) && (q =? 1)%nat
          then Z.of_nat (q * k) else gs)
    with (narrowing_rule (q * k) q gs).
  rewrite Hrule. unfold py_mod.
  destruct (Z.eqb_spec (Z.of_nat k) 0); [lia|]. cbn [bind].
  rewrite <- Nat2Z.inj_mod, Nat.Div0.mod_mul.
  cbn [Z.of_nat Z.eqb assert bind dim shape length app Nat.eqb].
  rewrite Nat2Z.id.
  assert (Hnum : numel_of [r; (q * k)%nat] = (r * q * k)%nat)
    by (rewrite numel_of_2; lia).
  rewrite view_infer_groups by (rewrite ?Hnum, ?Nat.Div0.mod_mul; lia).
  rewrite Hnum, Nat.div_mul by lia. cbn [bind].
  rewrite !view_infer_groups by (rewrite ?Nat.mod_1_r; lia).
  rewrite numel_of_2, Nat.div_1_r. cbn [bind].
  unfold tmap at 1. cbn [shape data].
  change [(r * q)%nat; k] with ([(r * q)%nat] ++ [k]).
  change [(r * q)%nat; 1%nat] with ([(r * q)%nat] ++ [1%nat]).
  rewrite tzip_bcast_last
    by (rewrite ?length_map, ?numel_of_app; simpl; lia).
  cbn [bind].
  rewrite tzip_bcast_last
    by (rewrite ?zip_with_length;
        rewrite ?length_map, ?spread_length, ?numel_of_app; simpl; lia).
  cbn [bind]. unfold view, tmap, numel. cbn [shape data bind].
  replace (numel_of [r; (q * k)%nat] =? numel_of ([(r * q)%nat] ++ [k]))%nat
    with true by (symmetry; apply Nat.eqb_eq; simpl; lia).
  reflexivity.
Qed.

End Grouped.

(** ** The int4 weights of a linear layer, quantized and dequantized *)

Lemma bind_ret {A} (m : result A) : (c <- m ;; Ok c) = m.
Proof. now destruct m. Qed.

Local Open Scope Q_scope.

(** X7: group-wise int4 quantization of a weight matrix followed by the
    dequantization of [linear_forward_int4], in exact arithmetic: the
    stored integers lie in [-8, 7], the layer multiplies its input with the
    matrix of the values (integer times the scale of its group), and each
    of these is within half a scale of the weight it stands for. *)
Theorem int4_weight_round_trip
  (r q k : nat) (xs : list Q) (group_size : Z) (precision : dtype) :
  (1 < k)%nat -> r <> 0%nat -> length xs = (r * (q * k))%nat ->
  narrowed (q * k) group_size = Z.of_nat k ->
  exists weight_int8 scales zeros w_dq,
    prepare_int4_weight_and_scales_and_zeros (mkTensor [r; (q * k)%nat] xs)
      group_size precision
    = Ok (weight_int8, scales, zeros) /\
    shape weight_int8 = [r; (q * k)%nat] /\
    shape scales = [r; q] /\ shape zeros = [r; q] /\
    dequantize_per_channel_group weight_int8 scales zeros (-8) 7 int8
      group_size precision = Ok w_dq /\
    shape w_dq = [r; (q * k)%nat] /\
    (forall x out_features,
       linear_forward_int4 x weight_int8 scales zeros out_features
         group_size precision = linear x w_dq) /\
    forall j, (j < r * (q * k))%nat ->
      exists v qv s d,
        nth_error xs j = Some v /\
        nth_error (data weight_int8) j = Some qv /\
        nth_error (data scales) (j / k) = Some s /\
        nth_error (data w_dq) j = Some d /\
        (-8 <= qv <= 7)%Z /\ 0 < s /\
        d == inject_Z qv * s /\ Qabs (v - d) <= s / 2.
Proof.
  intros Hk Hr Hxs Hn.
  set (h := (max_int 4 - min_int 4) / 2).
  set (groups := chunks (r * q) k xs).
  set (ss := map (fun g => fcast precision (group_scale h g)) groups).
  set (zs := map (fun _ : list Q => fcast precision (f_of_Z 0) : Q) groups).
  assert (Hss : length ss = (r * q)%nat)
    by (unfold ss, groups; now rewrite length_map, chunks_length).
  assert (Hzs : length zs = (r * q)%nat)
    by (unfold zs, groups; now rewrite length_map, chunks_length).
  pose proof (@get_group_qparams_symmetric_groups Q Q_Scalar r q k xs 4
                group_size precision Hk Hr Hn (count_nan_Q _)) as Hqp.
  fold h groups ss zs in Hqp.
  pose proof (@quantize_per_channel_group_grouped Q Q_Scalar r q k xs ss zs
                (-8) 7 int8 group_size Hk Hn Hxs Hss Hzs (count_nan_Q _))
    as Hquant.
  set (qdata :=
         map (fun v => clamp_to (-8) 7 int8 (fround v))
           (zip_with fadd
              (zip_with fdiv xs (concat (map (fun y => repeat y k) ss)))
              (concat (map (fun y => repeat y k) zs)))) in *.
  assert (Hqlen : length qdata = (r * (q * k))%nat).
  { unfold qdata. rewrite length_map, !zip_with_length;
      rewrite ?zip_with_length; rewrite ?spread_length; lia. }
  pose proof (@dequantize_per_channel_group_grouped Q Q_Scalar r q k qdata
                ss zs (-8)%Z 7%Z int8 group_size precision Hk Hn Hqlen
                Hss Hzs) as Hdq.
  exists (mkTensor [r; (q * k)%nat] qdata), (mkTensor [r; q] ss),
    (mkTensor [r; q] zs).
  eexists.
  split.
  { unfold prepare_int4_weight_and_scales_and_zeros,
      group_quantize_tensor_symmetric.
    rewrite Hqp. cbn [bind fst snd].
    change (2 ^ (4 - 1) - 1)%Z with 7%Z.
    change (- 2 ^ (4 - 1))%Z with (-8)%Z.
    rewrite Hquant. reflexivity. }
  split; [reflexivity|]. split; [reflexivity|]. split; [reflexivity|].
  split; [exact Hdq|]. split; [reflexivity|]. split.
  { intros x out_features. unfold linear_forward_int4.
    change (- 2 ^ (4 - 1))%Z with (-8)%Z.
    change (2 ^ (4 - 1) - 1)%Z with 7%Z.
    rewrite Hdq. cbn [bind]. apply bind_ret. }
  intros j Hj. cbn [data].
  assert (Hk0 : k <> 0%nat) by lia.
  assert (Hi : (j / k < r * q)%nat)
    by (apply Nat.Div0.div_lt_upper_bound; lia).
  destruct (nth_error xs j) as [v|] eqn:Ev;
    [|apply nth_error_None in Ev; lia].
  set (g := group_at k (j / k) xs).
  assert (Hin : In v g).
  { pose proof (Nat.div_mod_eq j k) as Ej.
    pose proof (Nat.mod_upper_bound j k Hk0) as Hm.
    apply nth_error_In with (n := (j mod k)%nat). unfold g.
    rewrite nth_error_group_at by exact Hm.
    replace (j / k * k + j mod k)%nat with j by lia. exact Ev. }
  assert (Es : nth_error ss (j / k) = Some (group_scale h g))
    by (unfold ss, groups; now rewrite nth_error_map_group).
  assert (Ez : nth_error zs (j / k) = Some (f_of_Z 0))
    by (unfold zs, groups; now rewrite nth_error_map_group).
  pose proof (group_scale_pos h g) as Hs.
  assert (Hh : 0 < h) by reflexivity.
  pose proof (@group_scale_bounds h g v Hh Hin) as Hb.
  assert (Hb' : Qabs v <= group_scale h g * (inject_Z 7 + (1 # 2))).
  { assert (E : h == inject_Z 7 + (1 # 2)) by reflexivity.
    now rewrite <- E. }
  destruct (@symmetric_group_quantize_error 7 (group_scale h g) v
              ltac:(lia) Hs Hb') as [Hrange Herr].
  set (qv := clamp_to (-7 - 1) 7 int8
               (fround (fadd (fdiv v (group_scale h g)) (f_of_Z 0)))) in *.
  assert (Eq : nth_error qdata j = Some qv).
  { unfold qdata. rewrite nth_error_map, !nth_error_zip_with,
      !nth_error_spread by exact Hk0.
    now rewrite Ev, Es, Ez. }
  exists v, qv, (group_scale h g). eexists.
  split; [reflexivity|]. split; [exact Eq|]. split; [exact Es|].
  split.
  { rewrite nth_error_map, !nth_error_zip_with, nth_error_map,
      !nth_error_spread by exact Hk0.
    rewrite Eq, Es, Ez. cbn [option_map]. reflexivity. }
  cbn [fcast fmul fsub f_of_Z Q_Scalar]. change (inject_Z 0) with 0.
  split; [exact Hrange|]. split; [exact Hs|].
  assert (E : (inject_Z qv - 0) * group_scale h g
              == inject_Z qv * group_scale h g) by ring.
  split; [exact E|]. now rewrite E.
Qed.

Lemma int4_weight_round_trip_witness :
  exists weight_int8 scales zeros,
    prepare_int4_weight_and_scales_and_zeros
      (mkTensor [2; 4]%nat [1; -2; 3; 4; 0; 0; (1 # 3); -7]) 2 float32
    = Ok (weight_int8, scales, zeros) /\
    shape weight_int8 = [2; 4]%nat /\ shape scales = [2; 2]%nat.
Proof.
  assert (H1 : (1 < 2)%nat) by (apply Nat.lt_succ_diag_r).
  assert (H2 : 2%nat <> 0%nat) by discriminate.
  destruct (@int4_weight_round_trip 2 2 2 [1; -2; 3; 4; 0; 0; (1 # 3); -7]
              2 float32 H1 H2 eq_refl eq_refl)
    as (w & s & z & _ & Hrun & Hw & Hs & _).
  exists w, s, z. split; [exact Hrun|]. split; assumption.
Defined.

Local Close Scope Q_scope.

(** ** The per-token operators with one parameter per token *)

Section PerTokenOps.

Context {F : Type} {SF : Scalar F}.

Variable check : Z -> Z -> dtype -> result unit.

Lemma dim_check_tokens {A B C} lead d (xs : list A) (ss : list B)
  (zs : list C) :
  _per_token_quant_qparam_dim_check (mkTensor (lead ++ [d]) xs)
    (mkTensor (lead ++ [1%nat]) ss) (mkTensor (lead ++ [1%nat]) zs) = Ok tt.
Proof.
  unfold _per_token_quant_qparam_dim_check, numel. cbn [shape].
  rewrite removelast_snoc, numel_of_snoc1, Nat.eqb_refl. reflexivity.
Qed.

Lemma quantize_per_token_tokens lead d (xs ss zs : list F)
  quant_min quant_max dt :
  check quant_min quant_max dt = Ok tt ->
  length xs = (numel_of lead * d)%nat ->
  length ss = numel_of lead -> length zs = numel_of lead ->
  quantize_per_token check (mkTensor (lead ++ [d]) xs)
    (mkTensor (lead ++ [1%nat]) ss) (mkTensor (lead ++ [1%nat]) zs)
    quant_min quant_max dt
  = Ok (mkTensor (lead ++ [d])
          (map (fun v => clamp_to quant_min quant_max dt (fround v))
             (zip_with fadd
                (zip_with fdiv xs (concat (map (fun y => repeat y d) ss)))
                (concat (map (fun y => repeat y d) zs))))).
Proof.
  intros Hcheck Hxs Hss Hzs. unfold quantize_per_token.
  rewrite Hcheck, dim_check_tokens. cbn [bind].
  rewrite tzip_bcast_last by (rewrite ?numel_of_app; simpl; lia).
  cbn [bind].
  rewrite tzip_bcast_last
    by (rewrite ?zip_with_length; rewrite ?spread_length, ?numel_of_app;
        simpl; lia).
  reflexivity.
Qed.

Lemma dequantize_per_token_tokens lead d (qs : list Z) (ss zs : list F)
  quant_min quant_max dt odt :
  length qs = (numel_of lead * d)%nat ->
  length ss = numel_of lead -> length zs = numel_of lead ->
  dequantize_per_token (mkTensor (lead ++ [d]) qs)
    (mkTensor (lead ++ [1%nat]) ss) (mkTensor (lead ++ [1%nat]) zs)
    quant_min quant_max dt odt
  = Ok (mkTensor (lead ++ [d])
          (zip_with fmul
             (map (fcast odt)
                (zip_with fsub (map f_of_Z qs)
                   (concat (map (fun y => repeat y d) zs))))
             (concat (map (fun y => repeat y d) ss)))).
Proof.
  intros Hqs Hss Hzs. unfold dequantize_per_token, tmap. cbn [shape data].
  rewrite tzip_bcast_last
    by (rewrite ?length_map, ?numel_of_app; simpl; lia).
  cbn [bind shape data].
  rewrite tzip_bcast_last
    by (rewrite ?length_map; rewrite ?zip_with_length;
        rewrite ?length_map, ?spread_length, ?numel_of_app; simpl; lia).
  reflexivity.
Qed.

End PerTokenOps.

(** ** Asymmetric per-token quantization in exact arithmetic *)

Local Open Scope Q_scope.

Lemma Qdiv_le_mono (x y s : Q) : 0 < s -> x <= y -> x / s <= y / s.
Proof.
  intros Hs H. apply Qmult_le_compat_r; [exact H|].
  apply Qlt_le_weak, Qinv_lt_0_compat, Hs.
Qed.

Lemma asym_scale_spec (mn mx : Q) :
  0 < asym_scale mn mx /\
  Qmax mx 0 - Qmin mn 0 <= 255 * asym_scale mn mx.
Proof.
  unfold asym_scale, fclamp_min, fzero.
  cbn [fmax fmin fdiv fsub f_of_Q f_of_Z Q_Scalar].
  change (inject_Z 0) with 0. change (inject_Z (127 - -128)) with 255.
  set (X := (Qmax mx 0 - Qmin mn 0) / 255).
  pose proof (Q.le_max_l X float32_eps) as H1.
  pose proof (Q.le_max_r X float32_eps) as H2.
  pose proof float32_eps_pos as He.
  split; [lra|].
  assert (E : Qmax mx 0 - Qmin mn 0 == 255 * X) by (unfold X; field).
  rewrite E. lra.
Qed.

(** The zero-point is an integer of [-128, 127], and with it every element
    of the token lands, before rounding, in [-128.5, 127.5]. *)
Lemma asym_zero_point_spec (mn mx : Q) :
  exists z : Z,
    asym_zero_point mn mx = inject_Z z /\ (-128 <= z <= 127)%Z /\
    forall v, mn <= v -> v <= mx ->
      - (257 # 2) <= v / asym_scale mn mx + inject_Z z /\
      v / asym_scale mn mx + inject_Z z <= 255 # 2.
Proof.
  destruct (asym_scale_spec mn mx) as [Hs Hw].
  unfold asym_zero_point, zero_point_from_min, zero_point_from_max, fclamp,
    fzero.
  set (s := asym_scale mn mx) in *.
  cbn [fmax fmin fdiv fsub fround f_of_Z Q_Scalar].
  change (inject_Z 0) with 0. change (inject_Z (-128)) with (-128).
  change (inject_Z 127) with 127.
  pose proof (Q.le_min_l mn 0) as Hm1. pose proof (Q.le_min_r mn 0) as Hm2.
  pose proof (Q.le_max_l mx 0) as Hx1. pose proof (Q.le_max_r mx 0) as Hx2.
  set (mnn := Qmin mn 0) in *. set (mxp := Qmax mx 0) in *.
  assert (Ha : mnn / s <= 0)
    by (apply Qle_shift_div_r; [exact Hs | lra]).
  assert (Hb : 0 <= mxp / s)
    by (apply Qle_shift_div_l; [exact Hs | lra]).
  assert (Hab : mxp / s - mnn / s <= 255).
  { assert (E : mxp / s - mnn / s == (mxp - mnn) / s) by (field; lra).
    rewrite E. apply Qle_shift_div_r; [exact Hs | lra]. }
  assert (Hin : forall v, mn <= v -> v <= mx ->
                  mnn / s <= v / s /\ v / s <= mxp / s).
  { intros v Hv1 Hv2. split; (apply Qdiv_le_mono; [exact Hs | lra]). }
  set (a := mnn / s) in *. set (b := mxp / s) in *.
  clearbody a b.
  set (raw := if asym_picks_min mn mx then -128 - a else 127 - b).
  assert (Hraw : -128 <= raw /\ raw <= 127 /\
                 -128 <= raw + a /\ raw + b <= 127)
    by (unfold raw; destruct (asym_picks_min mn mx); lra).
  destruct Hraw as (R1 & R2 & R3 & R4).
  assert (Hclamp : Qmin (Qmax raw (-128)) 127 == raw)
    by (rewrite (Q.max_l raw (-128)) by exact R1; now apply Q.min_l).
  destruct (Qround_half_even_spec (Qmin (Qmax raw (-128)) 127))
    as (z & Ez & Hlo & Hhi & _).
  rewrite Hclamp in Hlo, Hhi.
  exists z. split; [exact Ez|].
  assert (Hz : (-128 <= z <= 127)%Z).
  { split.
    - apply Z.lt_pred_le. rewrite Zlt_Qlt.
      change (inject_Z (Z.pred (-128))) with (-129). lra.
    - apply Z.lt_succ_r. rewrite Zlt_Qlt.
      change (inject_Z (Z.succ 127)) with 128. lra. }
  split; [exact Hz|].
  intros v Hv1 Hv2. destruct (Hin v Hv1 Hv2) as [Hva Hvb].
  split; lra.
Qed.

(** Rounding to the nearest integer, ties to even, and clamping to int8 a
    value of [-128.5, 127.5]: the result is within 1/2. *)
Lemma int8_round_clamp (y : Q) :
  - (257 # 2) <= y -> y <= 255 # 2 ->
  exists c : Z,
    clamp_to (-128) 127 int8 (Qround_half_even y) = c /\
    (-128 <= c <= 127)%Z /\ Qabs (y - inject_Z c) <= 1 # 2.
Proof.
  intros Hlo Hhi.
  destruct (Qround_half_even_spec y) as (n & -> & Hn1 & Hn2 & Htie).
  assert (Hge : (-128 <= n)%Z)
    by (apply Htie; [reflexivity|]; change (inject_Z (-128)) with (-128); lra).
  assert (Hle : (n <= 128)%Z).
  { apply Z.lt_succ_r. rewrite Zlt_Qlt.
    change (inject_Z (Z.succ 128)) with 129. lra. }
  rewrite (@clamp_to_Z _ _ _ _ n) by reflexivity.
  set (c := Z.min (Z.max n (-128)) 127).
  assert (Hc : (-128 <= c <= 127)%Z) by (unfold c; lia).
  rewrite wrap_int8_small by exact Hc.
  exists c. split; [reflexivity|]. split; [exact Hc|].
  apply Qabs_Qle_condition.
  destruct (Z.eq_dec n 128) as [E|E].
  - assert (Ec : c = 127%Z) by (unfold c; lia). subst n.
    change (inject_Z 128) with 128 in Hn1. rewrite Ec.
    change (inject_Z 127) with 127. lra.
  - assert (Ec : c = n) by (unfold c; lia). rewrite Ec. lra.
Qed.

(** One element of a token, quantized and dequantized with the parameters
    of the token. *)
Lemma asym_fake_quantize_error (mn mx v : Q) (odt : dtype) :
  mn <= v -> v <= mx ->
  let s := asym_scale mn mx in
  let zp := asym_zero_point mn mx in
  let qv := clamp_to (-128) 127 int8 (fround (fadd (fdiv v s) zp)) in
  let d := fmul (fcast odt (fsub (f_of_Z qv) zp)) s in
  (-128 <= qv <= 127)%Z /\ Qabs (v - d) <= s / 2.
Proof.
  intros Hv1 Hv2 s zp qv d.
  destruct (asym_scale_spec mn mx) as [Hs _]. fold s in Hs.
  destruct (asym_zero_point_spec mn mx) as (z & Ez & Hz & Hy).
  destruct (Hy v Hv1 Hv2) as [Hy1 Hy2]. fold s in Hy1, Hy2.
  unfold d, qv, zp. rewrite Ez.
  cbn [fadd fround fdiv fmul fsub fcast f_of_Z Q_Scalar].
  destruct (int8_round_clamp Hy1 Hy2) as (c & -> & Hc & Hd).
  split; [exact Hc|].
  assert (E : v - (inject_Z c - inject_Z z) * s
              == (v / s + inject_Z z - inject_Z c) * s) by (field; lra).
  rewrite E, Qabs_Qmult, (Qabs_pos s) by lra.
  setoid_replace (s / 2) with ((1 # 2) * s) by field.
  apply Qmult_le_compat_r; [exact Hd | lra].
Qed.

Lemma nth_error_in_group {A} n k (xs : list A) j v :
  length xs = (n * k)%nat -> nth_error xs j = Some v ->
  (j / k < n)%nat /\ In v (group_at k (j / k) xs).
Proof.
  intros Hxs Hv.
  assert (Hj : (j < n * k)%nat)
    by (rewrite <- Hxs; apply nth_error_Some; congruence).
  assert (Hk : k <> 0%nat) by (intros ->; lia).
  pose proof (Nat.div_mod_eq j k) as Ej.
  pose proof (Nat.mod_upper_bound j k Hk) as Hm.
  split; [apply Nat.Div0.div_lt_upper_bound; lia|].
  apply nth_error_In with (n := (j mod k)%nat).
  rewrite nth_error_group_at by exact Hm.
  replace (j / k * k + j mod k)%nat with j by lia. exact Hv.
Qed.

(** X8: the activation path of [Int8DynActInt4WeightLinear.forward], in
    exact arithmetic.  The input is quantized per token to int8 with the
    asymmetric parameters chosen for it and dequantized again before the
    int4 linear layer is applied; the dimension check passes, the shapes
    are kept, every quantized value lies in [-128, 127], and the value
    handed to the linear layer is within half the scale of its token of
    the input element. *)
Theorem forward_activation_error
  (check : Z -> Z -> dtype -> result unit)
  (self : Int8DynActInt4WeightLinear.t) (weight : tensor Z)
  (scales zeros : tensor Q) (lead : list nat) (d : nat) (xs : list Q) :
  d <> 0%nat -> length xs = (numel_of lead * d)%nat ->
  check (-128)%Z 127%Z int8 = Ok tt ->
  let input := mkTensor (lead ++ [d]) xs in
  exists token_scales token_zero_points quantized activation,
    choose_qparams_per_token_asymmetric input int8
    = Ok (token_scales, token_zero_points) /\
    quantize_per_token check input token_scales token_zero_points
      (-128) 127 int8 = Ok quantized /\
    dequantize_per_token quantized token_scales token_zero_points
      (-128) 127 int8 (Int8DynActInt4WeightLinear.precision self)
    = Ok activation /\
    shape quantized = shape input /\ shape activation = shape input /\
    Int8DynActInt4WeightLinear.forward check self weight scales zeros input
    = linear_forward_int4 activation weight scales zeros
        (Int8DynActInt4WeightLinear.out_features self)
        (Int8DynActInt4WeightLinear.group_size self)
        (Int8DynActInt4WeightLinear.precision self) /\
    forall j, (j < numel_of lead * d)%nat ->
      exists v qv s a,
        nth_error xs j = Some v /\
        nth_error (data quantized) j = Some qv /\
        nth_error (data token_scales) (j / d) = Some s /\
        nth_error (data activation) j = Some a /\
        (-128 <= qv <= 127)%Z /\ 0 < s /\ Qabs (v - a) <= s / 2.
Proof.
  intros Hd Hxs Hcheck input.
  set (p := Int8DynActInt4WeightLinear.precision self).
  set (tokens := chunks (numel_of lead) d xs).
  set (ss := map (fun r => fcast float32 (asym_scale (list_amin r) (list_amax r)))
               tokens).
  set (zs := map (fun r => fcast float32
                             (asym_zero_point (list_amin r) (list_amax r)))
               tokens).
  assert (Hss : length ss = numel_of lead)
    by (unfold ss, tokens; now rewrite length_map, chunks_length).
  assert (Hzs : length zs = numel_of lead)
    by (unfold zs, tokens; now rewrite length_map, chunks_length).
  pose proof (@choose_qparams_per_token_asymmetric_rows Q Q_Scalar lead d xs
                int8 Hd) as Hch.
  fold tokens ss zs in Hch.
  pose proof (@quantize_per_token_tokens Q Q_Scalar check lead d xs ss zs
                (-128)%Z 127%Z int8 Hcheck Hxs Hss Hzs) as Hq.
  set (qdata :=
         map (fun v => clamp_to (-128) 127 int8 (fround v))
           (zip_with fadd
              (zip_with fdiv xs (concat (map (fun y => repeat y d) ss)))
              (concat (map (fun y => repeat y d) zs)))) in *.
  assert (Hqlen : length qdata = (numel_of lead * d)%nat).
  { unfold qdata. rewrite length_map, !zip_with_length;
      rewrite ?zip_with_length; rewrite ?spread_length; lia. }
  pose proof (@dequantize_per_token_tokens Q Q_Scalar lead d qdata ss zs
                (-128)%Z 127%Z int8 p Hqlen Hss Hzs) as Hdq.
  exists (mkTensor (lead ++ [1%nat]) ss), (mkTensor (lead ++ [1%nat]) zs),
    (mkTensor (lead ++ [d]) qdata).
  eexists.
  split; [exact Hch|]. split; [exact Hq|]. split; [exact Hdq|].
  split; [reflexivity|]. split; [reflexivity|]. split.
  { unfold Int8DynActInt4WeightLinear.forward. fold p.
    replace (tmap (fcast p) input) with input
      by (unfold input, tmap; cbn [shape data fcast Q_Scalar];
          now rewrite map_id).
    unfold input. rewrite Hch. cbn [bind fst snd].
    rewrite Hq. cbn [bind]. rewrite Hdq. reflexivity. }
  intros j Hj. cbn [data].
  destruct (nth_error xs j) as [v|] eqn:Ev;
    [|apply nth_error_None in Ev; lia].
  destruct (@nth_error_in_group _ (numel_of lead) d xs j v Hxs Ev)
    as [Hi Hin].
  set (row := group_at d (j / d) xs) in *.
  destruct (list_amin_amax_in _ _ Hin) as [Hlo Hhi].
  assert (Es : nth_error ss (j / d)
               = Some (asym_scale (list_amin row) (list_amax row)))
    by (unfold ss, tokens; now rewrite nth_error_map_group).
  assert (Ez : nth_error zs (j / d)
               = Some (asym_zero_point (list_amin row) (list_amax row)))
    by (unfold zs, tokens; now rewrite nth_error_map_group).
  destruct (asym_scale_spec (list_amin row) (list_amax row)) as [Hs _].
  destruct (@asym_fake_quantize_error (list_amin row) (list_amax row) v p
              Hlo Hhi) as [Hrange Herr].
  do 4 eexists.
  split; [reflexivity|]. split.
  { unfold qdata. rewrite nth_error_map, !nth_error_zip_with,
      !nth_error_spread by exact Hd.
    rewrite Ev, Es, Ez. reflexivity. }
  split; [exact Es|]. split.
  { rewrite nth_error_zip_with, nth_error_map, nth_error_zip_with,
      nth_error_map, !nth_error_spread by exact Hd.
    unfold qdata. rewrite nth_error_map, !nth_error_zip_with,
      !nth_error_spread by exact Hd.
    rewrite Ev, Es, Ez. reflexivity. }
  split; [exact Hrange|]. split; [exact Hs | exact Herr].
Qed.

Lemma forward_activation_error_witness :
  exists token_scales token_zero_points quantized activation,
    choose_qparams_per_token_asymmetric
      (mkTensor [2; 2]%nat [-1; 3; (1 # 3); 0]) int8
    = Ok (token_scales, token_zero_points) /\
    quantize_per_token (fun _ _ _ => Ok tt)
      (mkTensor [2; 2]%nat [-1; 3; (1 # 3); 0]) token_scales
      token_zero_points (-128) 127 int8 = Ok quantized /\
    dequantize_per_token quantized token_scales token_zero_points
      (-128) 127 int8 float32 = Ok activation /\
    shape quantized = [2; 2]%nat /\ shape activation = [2; 2]%nat.
Proof.
  assert (H : 2%nat <> 0%nat) by discriminate.
  destruct (@forward_activation_error (fun _ _ _ => Ok tt)
              (Int8DynActInt4WeightLinear.mk 2 1 2 float32
                 (mkNew [1; 2]%nat int8 uninitialized)
                 (mkNew [1; 1]%nat float32 uninitialized)
                 (mkNew [1; 1]%nat float32 uninitialized))
              (mkTensor [1; 2]%nat [1; 2]%Z) (mkTensor [1; 1]%nat [1])
              (mkTensor [1; 1]%nat [0]) [2%nat] 2 [-1; 3; (1 # 3); 0]
              H eq_refl eq_refl)
    as (s & z & q & a & H1 & H2 & H3 & H4 & H5 & _).
  exists s, z, q, a. repeat split; assumption.
Defined.

Local Close Scope Q_scope.

(** ** The meta kernels against the kernels *)



Lemma torch_new_nat f (size : list nat) dt :
  torch_new f (map Z.of_nat size) dt = Ok (mkNew size dt f).
Proof.
  unfold torch_new.
  replace (forallb (fun n => 0 <=? n) (map Z.of_nat size)) with true.
  - rewrite map_map. f_equal. f_equal.
    rewrite <- (map_id size) at 2. apply map_ext. intros n. apply Nat2Z.id.
  - symmetry. apply forallb_forall. intros z Hz.
    apply in_map_iff in Hz as (n & <- & _). apply Z.leb_le. lia.
Qed.

Lemma snoc_eq_pair {A} (lead : list A) (x a b : A) :
  lead ++ [x] = [a; b] <-> lead = [a] /\ x = b.
Proof.
  split.
  - intros H. change [a; b] with ([a] ++ [b]) in H.
    apply app_inj_tail in H. exact H.
  - now intros [-> ->].
Qed.

(** X10: the two choosers return one scale and one zero-point per token,
    in tensors of the shape of the input with the trailing dimension
    replaced by 1; their meta kernels report tensors of shape (1, N), N the
    trailing dimension of the input, of dtypes double and int64.  The
    reported shape is the returned one only for an input of shape (1, 1). *)
Theorem choose_qparams_per_token_meta_shape
  (F : Type) (SF : Scalar F) (lead : list nat) (d : nat) (xs : list F)
  (dt : dtype) :
  d <> 0%nat ->
  let input := mkTensor (lead ++ [d]) xs in
  let reported :=
    (mkNew [1%nat; d] float64 uninitialized,
     mkNew [1%nat; d] int64 uninitialized) in
  choose_qparams_per_token_meta input dt = Ok reported /\
  choose_qparams_per_token_asymmetric_meta input dt = Ok reported /\
  (exists scales zero_points,
     choose_qparams_per_token input int8 = Ok (scales, zero_points) /\
     shape scales = lead ++ [1%nat] /\
     shape zero_points = lead ++ [1%nat]) /\
  (exists scales zero_points,
     choose_qparams_per_token_asymmetric input dt
     = Ok (scales, zero_points) /\
     shape scales = lead ++ [1%nat] /\
     shape zero_points = lead ++ [1%nat]) /\
  (lead ++ [1%nat] = [1%nat; d] <-> lead = [1%nat] /\ d = 1%nat).
Proof.
  intros Hd input reported.
  assert (Hmeta : forall A (t : tensor A),
            shape t = lead ++ [d] ->
            (n <- last_size (shape t) ;;
             a <- torch_empty [1; Z.of_nat n] float64 ;;
             b <- torch_empty [1; Z.of_nat n] int64 ;;
             Ok (a, b)) = Ok reported).
  { intros A t ->. rewrite last_size_app. cbn [bind].
    unfold torch_empty.
    change [1; Z.of_nat d] with (map Z.of_nat [1%nat; d]).
    rewrite !torch_new_nat. reflexivity. }
  split; [now apply Hmeta|]. split; [now apply Hmeta|].
  split; [|split].
  - eexists. eexists. split;
      [exact (choose_qparams_per_token_rows lead xs Hd)|].
    split; reflexivity.
  - eexists. eexists. split;
      [now apply choose_qparams_per_token_asymmetric_rows|].
    split; reflexivity.
  - rewrite snoc_eq_pair. split; intros [H1 H2]; split; congruence.
Qed.

Lemma choose_qparams_per_token_meta_shape_witness :
  choose_qparams_per_token_meta
    (mkTensor [2; 3]%nat (map Binary32.of_Z [1; 2; 3; 4; 5; 6])) int8
  = Ok (mkNew [1; 3]%nat float64 uninitialized,
        mkNew [1; 3]%nat int64 uninitialized) /\
  exists scales zero_points,
    choose_qparams_per_token
      (mkTensor [2; 3]%nat (map Binary32.of_Z [1; 2; 3; 4; 5; 6])) int8
    = Ok (scales, zero_points) /\
    shape scales = [2; 1]%nat /\ shape zero_points = [2; 1]%nat.
Proof.
  assert (H : 3%nat <> 0%nat) by discriminate.
  destruct (@choose_qparams_per_token_meta_shape _ Binary32_Scalar [2%nat] 3
              (map Binary32.of_Z [1; 2; 3; 4; 5; 6]) int8 H)
    as (H1 & _ & H3 & _).
  split; [exact H1 | exact H3].
Defined.

(** X11: the per-token operators and their meta kernels, with one scale and
    one zero-point per token.  When the bounds check passes, the quantizer
    and the dequantizer return tensors of the shape of their input and the
    meta kernels report that shape with the requested dtype; when the
    bounds check raises, the quantizer and both meta kernels raise its
    exception.  The dequantizer never runs the bounds check: it returns
    whatever the check says. *)
Theorem per_token_meta_agrees
  (F : Type) (SF : Scalar F) (check : Z -> Z -> dtype -> result unit)
  (lead : list nat) (d : nat) (xs : list F) (qs : list Z) (ss zs : list F)
  (quant_min quant_max : Z) (dt output_dtype : dtype) :
  length xs = (numel_of lead * d)%nat ->
  length qs = (numel_of lead * d)%nat ->
  length ss = numel_of lead -> length zs = numel_of lead ->
  let input := mkTensor (lead ++ [d]) xs in
  let quantized := mkTensor (lead ++ [d]) qs in
  let scales := mkTensor (lead ++ [1%nat]) ss in
  let zero_points := mkTensor (lead ++ [1%nat]) zs in
  (check quant_min quant_max dt = Ok tt ->
   exists q,
     quantize_per_token check input scales zero_points quant_min quant_max
       dt = Ok q /\
     shape q = shape input /\ wf q /\
     quantize_per_token_meta check input scales zero_points quant_min
       quant_max dt = Ok (mkNew (shape q) dt uninitialized)) /\
  (exists a,
     dequantize_per_token quantized scales zero_points quant_min quant_max
       dt output_dtype = Ok a /\
     shape a = shape quantized /\ wf a /\
     (check quant_min quant_max dt = Ok tt ->
      dequantize_per_token_meta check quantized scales zero_points
        quant_min quant_max dt output_dtype
      = Ok (mkNew (shape a) output_dtype uninitialized))) /\
  (forall e, check quant_min quant_max dt = Raise e ->
     quantize_per_token check input scales zero_points quant_min quant_max
       dt = Raise e /\
     quantize_per_token_meta check input scales zero_points quant_min
       quant_max dt = Raise e /\
     dequantize_per_token_meta check quantized scales zero_points
       quant_min quant_max dt output_dtype = Raise e).
Proof.
  intros Hxs Hqs Hss Hzs input quantized scales zero_points.
  split; [|split].
  - intros Hcheck. eexists. split;
      [now apply quantize_per_token_tokens|].
    split; [reflexivity|]. split.
    + unfold wf. cbn [shape data].
      rewrite length_map, !zip_with_length;
        rewrite ?zip_with_length; rewrite ?spread_length, ?numel_of_app;
        simpl; lia.
    + unfold quantize_per_token_meta. rewrite Hcheck. reflexivity.
  - eexists. split; [now apply dequantize_per_token_tokens|].
    split; [reflexivity|]. split.
    + unfold wf. cbn [shape data].
      rewrite !zip_with_length;
        rewrite ?length_map; rewrite ?zip_with_length;
        rewrite ?length_map, ?spread_length, ?numel_of_app; simpl; lia.
    + intros Hcheck. unfold dequantize_per_token_meta.
      rewrite Hcheck. reflexivity.
  - intros e He.
    unfold quantize_per_token, quantize_per_token_meta,
      dequantize_per_token_meta.
    rewrite He. repeat split; reflexivity.
Qed.

Lemma per_token_meta_agrees_witness :
  exists q,
    quantize_per_token (fun _ _ _ => Ok tt)
      (mkTensor [2; 2]%nat [1; 2; 3; 4]%Q) (mkTensor [2; 1]%nat [1; 2]%Q)
      (mkTensor [2; 1]%nat [0; 0]%Q) (-128) 127 int8 = Ok q /\
    shape q = [2; 2]%nat /\ wf q /\
    quantize_per_token_meta (fun _ _ _ => Ok tt)
      (mkTensor [2; 2]%nat [1; 2; 3; 4]%Q) (mkTensor [2; 1]%nat [1; 2]%Q)
      (mkTensor [2; 1]%nat [0; 0]%Q) (-128) 127 int8
    = Ok (mkNew (shape q) int8 uninitialized).
Proof.
  exact (proj1
    (@per_token_meta_agrees Q Q_Scalar (fun _ _ _ => Ok tt) [2%nat] 2
       [1; 2; 3; 4]%Q [1; 2; 3; 4] [1; 2]%Q [0; 0]%Q (-128) 127 int8 float32
       eq_refl eq_refl eq_refl eq_refl) eq_refl).
Defined.

(** ** The buffers of the quantized modules and the quantized state *)

Lemma squeeze_last_2 {A} r q (xs : list A) :
  shape (squeeze_last (mkTensor [r; q] xs))
  = if (q =? 1)%nat then [r] else [r; q].
Proof.
  unfold squeeze_last. cbn [shape rev app].
  destruct q as [|[|q]]; reflexivity.
Qed.

Lemma groups_per_row (c k : nat) :
  k <> 0%nat ->
  (Z.of_nat c + Z.of_nat k - 1) / Z.of_nat k
  = Z.of_nat (if (c mod k =? 0)%nat then c / k else S (c / k)).
Proof.
  intros Hk. pose proof (Nat.div_mod_eq c k) as E.
  pose proof (Nat.mod_upper_bound c k Hk) as Hm.
  destruct (Nat.eqb_spec (c mod k) 0) as [E0|E0].
  - symmetry. apply Z.div_unique with (r := Z.of_nat k - 1); nia.
  - symmetry. apply Z.div_unique with (r := Z.of_nat (c mod k) - 1); nia.
Qed.

Lemma QuantizedGroupEmbedding_init_shapes (r c k : nat) (dt : dtype) :
  k <> 0%nat ->
  let g := if (c mod k =? 0)%nat then (c / k)%nat else S (c / k) in
  QuantizedGroupEmbedding.init (Z.of_nat r) (Z.of_nat c)
    (Some (Z.of_nat k)) dt
  = Ok (QuantizedGroupEmbedding.mk (Z.of_nat k) dt
          (mkNew [r; c] int8 uninitialized)
          (mkNew (if (1 <? g)%nat then [r; g] else [r]) float16 ones)).
Proof.
  intros Hk g. unfold QuantizedGroupEmbedding.init, torch_empty, torch_ones.
  change [Z.of_nat r; Z.of_nat c] with (map Z.of_nat [r; c]).
  rewrite torch_new_nat. cbn [bind]. unfold py_floordiv.
  destruct (Z.eqb_spec (Z.of_nat k) 0); [lia|]. cbn [bind].
  rewrite groups_per_row by exact Hk. fold g.
  change 1 with (Z.of_nat 1) at 1.
  destruct (Nat.ltb_spec 1 g); destruct (Z.ltb_spec (Z.of_nat 1) (Z.of_nat g));
    try lia.
  - change [Z.of_nat r; Z.of_nat g] with (map Z.of_nat [r; g]).
    now rewrite torch_new_nat.
  - change [Z.of_nat r] with (map Z.of_nat [r]).
    now rewrite torch_new_nat.
Qed.

Section EmbeddingState.

Context {F : Type} {SF : Scalar F}.

(** The shapes [dynamically_quantize_per_channel] returns for a positive
    group size, divisible or not. *)
Lemma dqpc_shapes r c k (xs : list F) qmin qmax dt sdt :
  k <> 0%nat -> r <> 0%nat -> length xs = (r * c)%nat ->
  let g := if (c mod k =? 0)%nat then (c / k)%nat else S (c / k) in
  exists quant scales zps,
    dynamically_quantize_per_channel (mkTensor [r; c] xs) qmin qmax dt
      (Some (Z.of_nat k)) sdt true = Ok (quant, scales, zps) /\
    shape quant = [r; c] /\ shape scales = [r; g] /\ shape zps = [r; g].
Proof.
  intros Hk Hr Hxs g. unfold g.
  destruct (Nat.eqb_spec (c mod k) 0) as [E0|E0].
  - assert (Ec : c = (c / k * k)%nat).
    { pose proof (Nat.div_mod_eq c k). lia. }
    pose proof (@dqpc_multiple F SF r (c / k) k xs qmin qmax dt sdt true Hk Hr
                  ltac:(rewrite <- Ec; exact Hxs)) as Hrun.
    rewrite <- Ec in Hrun.
    do 3 eexists. split; [exact Hrun|]. repeat split; reflexivity.
  - pose proof (@dqpc_padded F SF r c k xs qmin qmax dt sdt Hk Hr E0 Hxs)
      as Hrun. cbv zeta in Hrun.
    do 3 eexists. split; [exact Hrun|]. repeat split; reflexivity.
Qed.

End EmbeddingState.

Lemma one_group_per_row (c k : nat) :
  c <> 0%nat -> k <> 0%nat ->
  (if (c mod k =? 0)%nat then (c / k)%nat else S (c / k)) = 1%nat
  <-> (c <= k)%nat.
Proof.
  intros Hc Hk. pose proof (Nat.div_mod_eq c k) as E.
  pose proof (Nat.mod_upper_bound c k Hk) as Hm.
  generalize dependent (c mod k)%nat. generalize dependent (c / k)%nat.
  intros q m E Hm.
  destruct (Nat.eqb_spec m 0) as [E0|E0]; split; intros H.
  - subst. lia.
  - subst m. destruct q as [|[|q]]; [lia | reflexivity | nia].
  - injection H as ->. lia.
  - destruct q as [|q]; [reflexivity | nia].
Qed.

(** X12: the state the embedding handler stores fits the module that
    replaces the embedding.  For an embedding table of [r] >= 1 rows and
    [c] >= 1 columns and a positive group size (or none: one group per
    row), [dynamically_quantize_per_channel], called as the handler calls
    it, returns a quantized table of the shape of the weight buffer of
    [QuantizedGroupEmbedding], and its scales, once squeezed as the handler
    squeezes them, have the shape of the scales buffer: (r, groups) with
    groups = ceil(c / group size) when there are several groups per row,
    (r) when there is one. *)
Theorem embedding_state_fits_buffers
  (F : Type) (SF : Scalar F) (r c k : nat) (xs : list F)
  (group_size : option Z) (range_min range_max : Z)
  (scales_dtype module_dtype : dtype) :
  r <> 0%nat -> c <> 0%nat -> k <> 0%nat -> length xs = (r * c)%nat ->
  group_size = Some (Z.of_nat k) \/ (group_size = None /\ k = c) ->
  let groups := if (c mod k =? 0)%nat then (c / k)%nat else S (c / k) in
  exists quant scales zero_points module,
    dynamically_quantize_per_channel (mkTensor [r; c] xs) range_min
      range_max int8 group_size scales_dtype true
    = Ok (quant, scales, zero_points) /\
    QuantizedGroupEmbedding.init (Z.of_nat r) (Z.of_nat c) group_size
      module_dtype = Ok module /\
    shape scales = [r; groups] /\
    shape quant = new_shape (QuantizedGroupEmbedding.weight module) /\
    shape (squeeze_last scales)
    = new_shape (QuantizedGroupEmbedding.scales module) /\
    new_dtype (QuantizedGroupEmbedding.weight module) = int8 /\
    new_dtype (QuantizedGroupEmbedding.scales module) = float16.
Proof.
  intros Hr Hc Hk Hxs Hgs groups.
  destruct (@dqpc_shapes F SF r c k xs range_min range_max int8 scales_dtype
              Hk Hr Hxs) as (quant & scales & zps & Hrun & Hq & Hs & _).
  fold groups in Hs.
  pose proof (@QuantizedGroupEmbedding_init_shapes r c k module_dtype Hk)
    as Hinit. cbv zeta in Hinit. fold groups in Hinit.
  assert (Hrun' :
    dynamically_quantize_per_channel (mkTensor [r; c] xs) range_min
      range_max int8 group_size scales_dtype true
    = Ok (quant, scales, zps)).
  { destruct Hgs as [-> | [-> ->]]; [exact Hrun|].
    rewrite dqpc_none by exact Hc. exact Hrun. }
  assert (Hinit' :
    QuantizedGroupEmbedding.init (Z.of_nat r) (Z.of_nat c) group_size
      module_dtype
    = Ok (QuantizedGroupEmbedding.mk (Z.of_nat k) module_dtype
            (mkNew [r; c] int8 uninitialized)
            (mkNew (if (1 <? groups)%nat then [r; groups] else [r])
               float16 ones))).
  { destruct Hgs as [-> | [-> ->]]; exact Hinit. }
  exists quant, scales, zps. eexists.
  split; [exact Hrun'|]. split; [exact Hinit'|].
  split; [exact Hs|]. split; [exact Hq|].
  split; [|split; reflexivity].
  destruct scales as [ssh sdata]. cbn [shape] in Hs. subst ssh.
  rewrite squeeze_last_2.
  cbn [QuantizedGroupEmbedding.scales new_shape].
  assert (Hg : groups <> 0%nat).
  { unfold groups. pose proof (Nat.div_mod_eq c k).
    destruct (Nat.eqb_spec (c mod k) 0); [|discriminate].
    intros E0. rewrite E0 in *. lia. }
  destruct (Nat.eqb_spec groups 1); destruct (Nat.ltb_spec 1 groups);
    try reflexivity; lia.
Qed.

Lemma embedding_state_fits_buffers_witness :
  exists quant scales zero_points module,
    dynamically_quantize_per_channel
      (mkTensor [2; 3]%nat [1; 2; 3; 4; -5; 6]%Q) (-8) 7 int8 (Some 2%Z)
      float32 true
    = Ok (quant, scales, zero_points) /\
    QuantizedGroupEmbedding.init 2 3 (Some 2%Z) float16 = Ok module /\
    shape scales = [2; 2]%nat /\
    shape quant = new_shape (QuantizedGroupEmbedding.weight module) /\
    shape (squeeze_last scales)
    = new_shape (QuantizedGroupEmbedding.scales module).
Proof.
  assert (H2 : 2%nat <> 0%nat) by discriminate.
  assert (H3 : 3%nat <> 0%nat) by discriminate.
  destruct (@embedding_state_fits_buffers Q Q_Scalar 2 3 2
              [1; 2; 3; 4; -5; 6]%Q (Some 2%Z) (-8) 7 float32 float16
              H2 H3 H2 eq_refl (or_introl eq_refl))
    as (q & s & z & m & H4 & H5 & H6 & H7 & H8 & _).
  exists q, s, z, m. repeat split; assumption.
Defined.

(** X13: [WeightOnlyInt8Linear] registers one scale per output row.  The
    quantized weight the handler stores always has the shape of the weight
    buffer; the scales, squeezed as the handler squeezes them, have the
    shape of the scales buffer exactly when there is one group per row,
    that is when no group size is given or the group size is not smaller
    than the row. *)
Theorem weight_only_int8_state_fits_buffers
  (F : Type) (SF : Scalar F) (r c k : nat) (xs : list F)
  (group_size : option Z) (range_min range_max : Z) (scales_dtype : dtype) :
  r <> 0%nat -> c <> 0%nat -> k <> 0%nat -> length xs = (r * c)%nat ->
  group_size = Some (Z.of_nat k) \/ (group_size = None /\ k = c) ->
  exists quant scales zero_points module,
    dynamically_quantize_per_channel (mkTensor [r; c] xs) range_min
      range_max int8 group_size scales_dtype true
    = Ok (quant, scales, zero_points) /\
    WeightOnlyInt8Linear.init (Z.of_nat c) (Z.of_nat r) = Ok module /\
    shape quant = new_shape (WeightOnlyInt8Linear.weight module) /\
    new_shape (WeightOnlyInt8Linear.scales module) = [r] /\
    (shape (squeeze_last scales)
     = new_shape (WeightOnlyInt8Linear.scales module) <-> (c <= k)%nat).
Proof.
  intros Hr Hc Hk Hxs Hgs.
  destruct (@dqpc_shapes F SF r c k xs range_min range_max int8 scales_dtype
              Hk Hr Hxs) as (quant & scales & zps & Hrun & Hq & Hs & _).
  assert (Hrun' :
    dynamically_quantize_per_channel (mkTensor [r; c] xs) range_min
      range_max int8 group_size scales_dtype true
    = Ok (quant, scales, zps)).
  { destruct Hgs as [-> | [-> ->]]; [exact Hrun|].
    rewrite dqpc_none by exact Hc. exact Hrun. }
  exists quant, scales, zps. eexists.
  split; [exact Hrun'|]. split.
  { unfold WeightOnlyInt8Linear.init, torch_empty, torch_ones.
    change [Z.of_nat r; Z.of_nat c] with (map Z.of_nat [r; c]).
    change [Z.of_nat r] with (map Z.of_nat [r]).
    rewrite !torch_new_nat. reflexivity. }
  split; [exact Hq|]. split; [reflexivity|].
  cbn [WeightOnlyInt8Linear.scales new_shape].
  destruct scales as [ssh sdata]. cbn [shape] in Hs. subst ssh.
  rewrite squeeze_last_2, <- (one_group_per_row Hc Hk).
  destruct (Nat.eqb_spec
              (if (c mod k =? 0)%nat then (c / k)%nat else S (c / k)) 1);
    split; intros H; congruence.
Qed.

Lemma weight_only_int8_state_fits_buffers_witness :
  exists quant scales zero_points module,
    dynamically_quantize_per_channel
      (mkTensor [2; 3]%nat [1; 2; 3; 4; -5; 6]%Q) (-128) 127 int8 None
      float32 true
    = Ok (quant, scales, zero_points) /\
    WeightOnlyInt8Linear.init 3 2 = Ok module /\
    shape quant = new_shape (WeightOnlyInt8Linear.weight module) /\
    shape (squeeze_last scales)
    = new_shape (WeightOnlyInt8Linear.scales module).
Proof.
  assert (H2 : 2%nat <> 0%nat) by discriminate.
  assert (H3 : 3%nat <> 0%nat) by discriminate.
  destruct (@weight_only_int8_state_fits_buffers Q Q_Scalar 2 3 3
              [1; 2; 3; 4; -5; 6]%Q None (-128) 127 float32
              H2 H3 H3 eq_refl (or_intror (conj eq_refl eq_refl)))
    as (q & s & z & m & H4 & H5 & H6 & _ & H8).
  exists q, s, z, m. repeat split; try assumption.
  apply H8. apply Nat.le_refl.
Defined.

(** ** The int4 linear layer *)

Section Int4Linear.

Context {F : Type} {SF : Scalar F}.

Lemma prepare_int4_grouped r q k (xs : list F) gs prec :
  (1 < k)%nat -> r <> 0%nat -> length xs = (r * (q * k))%nat ->
  narrowed (q * k) gs = Z.of_nat k ->
  count_nan (mkTensor [r; (q * k)%nat] xs) = 0%nat ->
  exists qdata ss zs,
    prepare_int4_weight_and_scales_and_zeros (mkTensor [r; (q * k)%nat] xs)
      gs prec
    = Ok (mkTensor [r; (q * k)%nat] qdata, mkTensor [r; q] ss,
          mkTensor [r; q] zs) /\
    length qdata = (r * (q * k))%nat /\
    length ss = (r * q)%nat /\ length zs = (r * q)%nat.
Proof.
  intros Hk Hr Hxs Hn Hnan.
  pose proof (@get_group_qparams_symmetric_groups F SF r q k xs 4 gs prec
                Hk Hr Hn Hnan) as Hqp.
  set (ss := map _ (chunks (r * q) k xs)) in Hqp at 1.
  set (zs := map _ (chunks (r * q) k xs)) in Hqp.
  assert (Hss : length ss = (r * q)%nat)
    by (unfold ss; now rewrite length_map, chunks_length).
  assert (Hzs : length zs = (r * q)%nat)
    by (unfold zs; now rewrite length_map, chunks_length).
  pose proof (@quantize_per_channel_group_grouped F SF r q k xs ss zs
                (-8) 7 int8 gs Hk Hn Hxs Hss Hzs Hnan) as Hquant.
  eexists. exists ss, zs. split.
  { unfold prepare_int4_weight_and_scales_and_zeros,
      group_quantize_tensor_symmetric.
    rewrite Hqp. cbn [bind fst snd].
    change (2 ^ (4 - 1) - 1) with 7. change (- 2 ^ (4 - 1)) with (-8).
    rewrite Hquant. reflexivity. }
  split; [|split; assumption].
  rewrite length_map, !zip_with_length;
    rewrite ?zip_with_length; rewrite ?spread_length; lia.
Qed.

Lemma Int8DynActInt4WeightLinear_init_shapes (r q k : nat) (p sp : dtype) :
  k <> 0%nat ->
  Int8DynActInt4WeightLinear.init (Z.of_nat (q * k)) (Z.of_nat r) false
    (Z.of_nat k) p sp
  = Ok (Int8DynActInt4WeightLinear.mk (Z.of_nat (q * k)) (Z.of_nat r)
          (Z.of_nat k) p
          (mkNew [r; (q * k)%nat] int8 uninitialized)
          (mkNew [r; q] sp uninitialized)
          (mkNew [r; q] sp uninitialized)).
Proof.
  intros Hk. unfold Int8DynActInt4WeightLinear.init, py_mod, py_floordiv,
    torch_empty.
  destruct (Z.eqb_spec (Z.of_nat k) 0); [lia|]. cbn [bind].
  rewrite <- Nat2Z.inj_mod, Nat.Div0.mod_mul.
  cbn [Z.of_nat Z.eqb assert negb bind].
  rewrite <- Nat2Z.inj_div, Nat.div_mul by exact Hk.
  change [Z.of_nat r; Z.of_nat (q * k)] with (map Z.of_nat [r; (q * k)%nat]).
  change [Z.of_nat r; Z.of_nat q] with (map Z.of_nat [r; q]).
  rewrite !torch_new_nat. reflexivity.
Qed.

End Int4Linear.

(** X14: the state the int4 handler stores fits the module that replaces the
    linear layer.  For a NaN-free weight of [r] >= 1 rows and [q] >= 1
    groups of [k] > 1 columns, the row length passes
    [_check_linear_int4_k], [prepare_int4_weight_and_scales_and_zeros]
    returns int8 weights, scales and zeros of the shapes of the three
    buffers [Int8DynActInt4WeightLinear] registers for these sizes, (r, q k)
    and twice (r, q); the constructor raises its assertion for every row
    length that fails the check. *)
Theorem int4_state_fits_buffers
  (F : Type) (SF : Scalar F) (r q k : nat) (xs : list F)
  (precision scales_precision : dtype) :
  (1 < k)%nat -> r <> 0%nat -> q <> 0%nat ->
  length xs = (r * (q * k))%nat ->
  count_nan (mkTensor [r; (q * k)%nat] xs) = 0%nat ->
  exists weight_int8 scales zeros module,
    _check_linear_int4_k (Z.of_nat (q * k)) (Z.of_nat k) = Ok true /\
    prepare_int4_weight_and_scales_and_zeros (mkTensor [r; (q * k)%nat] xs)
      (Z.of_nat k) scales_precision
    = Ok (weight_int8, scales, zeros) /\
    Int8DynActInt4WeightLinear.init (Z.of_nat (q * k)) (Z.of_nat r) false
      (Z.of_nat k) precision scales_precision = Ok module /\
    shape weight_int8
    = new_shape (Int8DynActInt4WeightLinear.weight module) /\
    shape scales = new_shape (Int8DynActInt4WeightLinear.scales module) /\
    shape zeros = new_shape (Int8DynActInt4WeightLinear.zeros module) /\
    wf weight_int8 /\ wf scales /\ wf zeros /\
    forall in_features out_features bias,
      _check_linear_int4_k in_features (Z.of_nat k) = Ok false ->
      Int8DynActInt4WeightLinear.init in_features out_features bias
        (Z.of_nat k) precision scales_precision
      = Raise (AssertionError "in_features % group_size == 0").
Proof.
  intros Hk Hr Hq Hxs Hnan.
  assert (Hn : narrowed (q * k) (Z.of_nat k) = Z.of_nat k).
  { unfold narrowed. destruct (Z.ltb_spec (Z.of_nat (q * k)) (Z.of_nat k));
      [nia | reflexivity]. }
  destruct (@prepare_int4_grouped F SF r q k xs (Z.of_nat k)
              scales_precision Hk Hr Hxs Hn Hnan)
    as (qdata & ss & zs & Hrun & Hql & Hsl & Hzl).
  do 4 eexists. split.
  { unfold _check_linear_int4_k, py_mod.
    destruct (Z.eqb_spec (Z.of_nat k) 0); [lia|]. cbn [bind].
    now rewrite <- Nat2Z.inj_mod, Nat.Div0.mod_mul. }
  split; [exact Hrun|]. split.
  { apply Int8DynActInt4WeightLinear_init_shapes. lia. }
  split; [reflexivity|]. split; [reflexivity|]. split; [reflexivity|].
  split; [unfold wf; cbn [shape data]; rewrite numel_of_2; exact Hql|].
  split; [unfold wf; cbn [shape data]; rewrite numel_of_2; exact Hsl|].
  split; [unfold wf; cbn [shape data]; rewrite numel_of_2; exact Hzl|].
  intros in_features out_features bias Hcheck.
  unfold _check_linear_int4_k in Hcheck.
  unfold Int8DynActInt4WeightLinear.init.
  destruct (py_mod in_features (Z.of_nat k)) as [m|e]; [|discriminate].
  cbn [bind] in *. injection Hcheck as ->. reflexivity.
Qed.

Lemma int4_state_fits_buffers_witness :
  exists weight_int8 scales zeros module,
    prepare_int4_weight_and_scales_and_zeros
      (mkTensor [2; 4]%nat [1; -2; 3; 4; 0; 0; 5; -7]%Q) 2 float32
    = Ok (weight_int8, scales, zeros) /\
    Int8DynActInt4WeightLinear.init 4 2 false 2 float32 float32
    = Ok module /\
    shape weight_int8
    = new_shape (Int8DynActInt4WeightLinear.weight module) /\
    shape scales = new_shape (Int8DynActInt4WeightLinear.scales module) /\
    shape zeros = new_shape (Int8DynActInt4WeightLinear.zeros module).
Proof.
  assert (H1 : (1 < 2)%nat) by (apply Nat.lt_succ_diag_r).
  assert (H2 : 2%nat <> 0%nat) by discriminate.
  destruct (@int4_state_fits_buffers Q Q_Scalar 2 2 2
              [1; -2; 3; 4; 0; 0; 5; -7]%Q float32 float32 H1 H2 H2
              eq_refl eq_refl)
    as (w & s & z & m & _ & H3 & H4 & H5 & H6 & H7 & _).
  exists w, s, z, m. repeat split; assumption.
Defined.

Section Forward.

Context {F : Type} {SF : Scalar F}.

Lemma linear_rows lead d r (xs ws : list F) :
  linear (mkTensor (lead ++ [d]) xs) (mkTensor [r; d] ws)
  = Ok (mkTensor (lead ++ [r])
          (concat (map (fun row => map (dot row) (chunks r d ws))
                     (chunks (numel_of lead) d xs)))).
Proof.
  unfold linear. cbn [shape]. rewrite rev_app_distr. cbn [rev app].
  rewrite Nat.eqb_refl, removelast_snoc, rows_shape, rows_2. reflexivity.
Qed.

Lemma linear_rows_length lead d r (xs ws : list F) :
  length (concat (map (fun row => map (dot row) (chunks r d ws))
                    (chunks (numel_of lead) d xs)))
  = (numel_of lead * r)%nat.
Proof.
  rewrite (@concat_length_const _ r), length_map, chunks_length;
    [reflexivity|].
  apply Forall_map, Forall_forall. intros row _.
  now rewrite length_map, chunks_length.
Qed.

End Forward.

(** X15: [Int8DynActInt4WeightLinear.forward] of a module of precision
    float32 returns for every input whose trailing dimension is the row
    length of the weight.  With int8 weights of shape (r, q k), scales and
    zeros of shape (r, q), a group size k > 1 and a bounds check that
    accepts the int8 range, the input of shape (..., q k) goes through the
    per-token chooser, quantizer and dequantizer and through the
    group-wise dequantization of the weight without an exception, and the
    result has shape (..., r).  The precision is float32 because the
    dequantized activation is float32 for every precision up to float32
    (the token scales are float32) while the dequantized weight has the
    precision of the module: for float16 and bfloat16 the two operands of
    [F.linear] differ in dtype and the call raises. *)
Theorem int4_linear_forward_returns
  (F : Type) (SF : Scalar F) (check : Z -> Z -> dtype -> result unit)
  (self : Int8DynActInt4WeightLinear.t) (lead : list nat) (r q k : nat)
  (xs : list F) (qs : list Z) (ss zs : list F) :
  (1 < k)%nat -> q <> 0%nat ->
  length xs = (numel_of lead * (q * k))%nat ->
  length qs = (r * (q * k))%nat ->
  length ss = (r * q)%nat -> length zs = (r * q)%nat ->
  Int8DynActInt4WeightLinear.group_size self = Z.of_nat k ->
  Int8DynActInt4WeightLinear.precision self = float32 ->
  check (-128) 127 int8 = Ok tt ->
  exists y,
    Int8DynActInt4WeightLinear.forward check self
      (mkTensor [r; (q * k)%nat] qs) (mkTensor [r; q] ss)
      (mkTensor [r; q] zs) (mkTensor (lead ++ [(q * k)%nat]) xs) = Ok y /\
    shape y = lead ++ [r] /\ wf y.
Proof.
  intros Hk Hq Hxs Hqs Hss Hzs Hgs Hprec Hcheck.
  set (p := float32).
  assert (Hd : (q * k)%nat <> 0%nat) by nia.
  assert (Hn : narrowed (q * k) (Z.of_nat k) = Z.of_nat k).
  { unfold narrowed. destruct (Z.ltb_spec (Z.of_nat (q * k)) (Z.of_nat k));
      [nia | reflexivity]. }
  unfold Int8DynActInt4WeightLinear.forward. rewrite Hprec, Hgs. fold p.
  change (tmap (fcast p) (mkTensor (lead ++ [(q * k)%nat]) xs))
    with (mkTensor (lead ++ [(q * k)%nat]) (map (fcast p) xs)).
  rewrite choose_qparams_per_token_asymmetric_rows by exact Hd.
  cbn [bind fst snd].
  set (tokens := chunks (numel_of lead) (q * k) (map (fcast p) xs)).
  rewrite (@quantize_per_token_tokens F SF check lead (q * k)%nat)
    by (rewrite ?length_map; unfold tokens;
        rewrite ?length_map, ?chunks_length; auto).
  cbn [bind].
  rewrite dequantize_per_token_tokens.
  2:{ rewrite length_map, !zip_with_length;
        rewrite ?zip_with_length;
        rewrite ?spread_length, ?length_map; unfold tokens;
        rewrite ?length_map, ?chunks_length; lia. }
  2,3: unfold tokens; now rewrite length_map, chunks_length.
  cbn [bind]. unfold linear_forward_int4.
  rewrite (@dequantize_per_channel_group_grouped F SF r q k)
    by assumption.
  cbn [bind]. rewrite linear_rows. cbn [bind].
  eexists. split; [reflexivity|]. split; [reflexivity|].
  unfold wf. cbn [shape data].
  rewrite linear_rows_length, numel_of_app. simpl. lia.
Qed.

Lemma int4_linear_forward_returns_witness :
  exists y,
    Int8DynActInt4WeightLinear.forward (fun _ _ _ => Ok tt)
      (Int8DynActInt4WeightLinear.mk 2 1 2 float32
         (mkNew [1; 2]%nat int8 uninitialized)
         (mkNew [1; 1]%nat float32 uninitialized)
         (mkNew [1; 1]%nat float32 uninitialized))
      (mkTensor [1; 2]%nat [3; -4]%Z)
      (mkTensor [1; 1]%nat [Binary32.of_Z 2])
      (mkTensor [1; 1]%nat [Binary32.of_Z 0])
      (mkTensor [3; 2]%nat (map Binary32.of_Z [1; 2; 3; 4; 5; 6]))
    = Ok y /\
    shape y = [3; 1]%nat /\ wf y.
Proof.
  assert (H1 : (1 < 2)%nat) by (apply Nat.lt_succ_diag_r).
  assert (H2 : 1%nat <> 0%nat) by discriminate.
  apply (@int4_linear_forward_returns _ Binary32_Scalar (fun _ _ _ => Ok tt)
           (Int8DynActInt4WeightLinear.mk 2 1 2 float32
              (mkNew [1; 2]%nat int8 uninitialized)
              (mkNew [1; 1]%nat float32 uninitialized)
              (mkNew [1; 1]%nat float32 uninitialized))
           [3%nat] 1 1 2 (map Binary32.of_Z [1; 2; 3; 4; 5; 6])
           [3; -4]%Z [Binary32.of_Z 2] [Binary32.of_Z 0]
           H1 H2 eq_refl eq_refl eq_refl eq_refl eq_refl eq_refl eq_refl).
Defined.

(** ** Broadcasting a vector over the rows *)

Lemma concat_repeat_mul {A} (l : list A) n m :
  concat (repeat (concat (repeat l n)) m) = concat (repeat l (m * n)).
Proof.
  induction m as [|m IH]; simpl; [reflexivity|].
  now rewrite IH, repeat_app, concat_app.
Qed.

Lemma numel_of_ones n m : numel_of (repeat 1%nat n ++ [m]) = m.
Proof. induction n as [|n IH]; simpl in *; lia. Qed.

Lemma expand_vector {A} (m : nat) (ss : list A) : forall lead,
  length ss = m ->
  expand_data (repeat 1%nat (length lead) ++ [m]) (lead ++ [m]) ss
  = concat (repeat ss (numel_of lead)).
Proof.
  intros lead Hss. induction lead as [|e lead IH].
  - cbn [length repeat app numel_of fold_right concat].
    rewrite app_nil_r. apply expand_data_same. simpl. lia.
  - cbn [length repeat app expand_data].
    rewrite numel_of_ones. cbn [chunks map].
    rewrite firstn_all2 by lia. rewrite IH. cbn [concat].
    rewrite app_nil_r.
    change (numel_of (e :: lead)) with (e * numel_of lead)%nat.
    destruct (Nat.eqb_spec 1 e) as [<-|_].
    + now rewrite Nat.mul_1_l.
    + apply concat_repeat_mul.
Qed.

Lemma broadcast_rev_nil_r a : broadcast_rev a [] = Ok a.
Proof. now destruct a. Qed.

Lemma tzip_bcast_vector {A B C} (f : A -> B -> C) lead m ys ss :
  length ys = (numel_of lead * m)%nat -> length ss = m ->
  tzip f (mkTensor (lead ++ [m]) ys) (mkTensor [m] ss)
  = Ok (mkTensor (lead ++ [m])
          (zip_with f ys (concat (repeat ss (numel_of lead))))).
Proof.
  intros Hys Hss. unfold tzip. cbn [shape data].
  assert (Hsh : broadcast_shapes (lead ++ [m]) [m] = Ok (lead ++ [m])).
  { unfold broadcast_shapes. rewrite rev_app_distr. cbn [rev app].
    cbn [broadcast_rev]. rewrite broadcast_dim_same. cbn [bind].
    rewrite broadcast_rev_nil_r. cbn [bind].
    change (m :: rev lead) with ([m] ++ rev lead).
    now rewrite rev_app_distr, rev_involutive. }
  rewrite Hsh. cbn [bind]. rewrite pad_shape_same.
  rewrite expand_data_same by (rewrite numel_of_app; simpl; lia).
  unfold pad_shape. rewrite length_app. cbn [length].
  replace (length lead + 1 - 1)%nat with (length lead) by lia.
  now rewrite expand_vector.
Qed.

Lemma zip_with_concat_repeat {A B C} (f : A -> B -> C) (ss : list B)
  (blocks : list (list A)) :
  Forall (fun b => length b = length ss) blocks ->
  zip_with f (concat blocks) (concat (repeat ss (length blocks)))
  = concat (map (fun b => zip_with f b ss) blocks).
Proof.
  induction 1 as [|b blocks Hb _ IH]; [reflexivity|].
  cbn [concat length repeat map]. now rewrite zip_with_app, IH.
Qed.

Lemma chunks_zip_spread {A B C} (f : A -> B -> C) k : forall ss ws,
  length ws = (length ss * k)%nat ->
  chunks (length ss) k
    (zip_with f ws (concat (map (fun y => repeat y k) ss)))
  = zip_with (fun g s => map (fun w => f w s) g)
      (chunks (length ss) k ws) ss.
Proof.
  induction ss as [|s ss IH]; intros ws Hws; [reflexivity|].
  cbn [length map concat chunks zip_with].
  rewrite <- (firstn_skipn k ws) at 1 2.
  assert (Hf : length (firstn k ws) = k)
    by (rewrite length_firstn; simpl in Hws; lia).
  rewrite zip_with_app by now rewrite repeat_length.
  assert (Hz : length (zip_with f (firstn k ws) (repeat s k)) = k)
    by (rewrite zip_with_length; rewrite ?repeat_length; lia).
  rewrite firstn_app, skipn_app, Hz, Nat.sub_diag.
  cbn [firstn skipn]. rewrite app_nil_r.
  rewrite firstn_all2, skipn_all2 by lia. cbn [app].
  rewrite IH by (rewrite length_skipn; simpl in Hws; lia).
  f_equal. rewrite <- Hf at 2. apply zip_with_repeat.
Qed.

(** ** The weight-only int8 linear layer in exact arithmetic *)

Local Open Scope Q_scope.

Lemma fold_Qplus_comp l : forall a a', a == a' ->
  fold_left Qplus l a == fold_left Qplus l a'.
Proof.
  induction l as [|x l IH]; intros a a' E; simpl; [exact E|].
  apply IH. now rewrite E.
Qed.

Lemma fold_dot_scale (s : Q) (a : list Q) : forall b acc,
  fold_left Qplus (zip_with Qmult a (map (fun w => w * s) b)) (acc * s)
  == fold_left Qplus (zip_with Qmult a b) acc * s.
Proof.
  induction a as [|x a IH]; intros [|w b] acc; simpl; try reflexivity.
  rewrite <- IH. apply fold_Qplus_comp. ring.
Qed.

Lemma dot_scale (s : Q) (a b : list Q) :
  dot a (map (fun w => fmul w s) b) == dot a b * s.
Proof.
  unfold dot, fzero. cbn [fadd fmul f_of_Z Q_Scalar].
  rewrite <- fold_dot_scale. apply fold_Qplus_comp.
  change (inject_Z 0) with 0. ring.
Qed.

Lemma Forall2_concat_map {A B} (R : B -> B -> Prop) (f g : A -> list B) l :
  (forall x, Forall2 R (f x) (g x)) ->
  Forall2 R (concat (map f l)) (concat (map g l)).
Proof.
  intros H. induction l as [|x l IH]; simpl; [constructor|].
  apply Forall2_app; [apply H | exact IH].
Qed.

Lemma scaled_rows (row : list Q) (wrows : list (list Q)) : forall ss,
  Forall2 Qeq
    (zip_with fmul (map (dot row) wrows) ss)
    (map (dot row)
       (zip_with (fun g s => map (fun w => fmul w s) g) wrows ss)).
Proof.
  induction wrows as [|w wrows IH]; intros [|s ss]; simpl; try constructor.
  - symmetry. apply dot_scale.
  - apply IH.
Qed.

(** X16: [WeightOnlyInt8Linear.forward] with one scale per output row, in
    exact arithmetic: multiplying the input with the int8 weights and
    scaling the columns of the result afterwards gives, element by
    element, the product of the input with the dequantized weights (every
    row of the int8 matrix times its scale); the result has shape
    (..., out). *)
Theorem weight_only_int8_forward
  (lead : list nat) (inn out : nat) (xs : list Q) (qs : list Z)
  (ss : list Q) :
  length xs = (numel_of lead * inn)%nat ->
  length qs = (out * inn)%nat -> length ss = out ->
  let input := mkTensor (lead ++ [inn]) xs in
  let weight := mkTensor [out; inn] qs in
  let scales := mkTensor [out] ss in
  exists y w_dq y',
    WeightOnlyInt8Linear.forward weight scales input = Ok y /\
    shape y = lead ++ [out] /\ wf y /\
    tzip fmul (tmap f_of_Z weight) (unsqueeze_last scales) = Ok w_dq /\
    shape w_dq = [out; inn] /\
    linear input w_dq = Ok y' /\
    shape y' = shape y /\ Forall2 Qeq (data y) (data y').
Proof.
  intros Hxs Hqs Hss input weight scales.
  set (ws := map inject_Z qs).
  assert (Hws : length ws = (out * inn)%nat)
    by (unfold ws; now rewrite length_map).
  set (xrows := chunks (numel_of lead) inn xs).
  set (wrows := chunks out inn ws).
  assert (Hfwd :
    WeightOnlyInt8Linear.forward weight scales input
    = Ok (mkTensor (lead ++ [out])
            (concat (map (fun row => zip_with fmul (map (dot row) wrows) ss)
                       xrows)))).
  { unfold WeightOnlyInt8Linear.forward, input, weight, scales, tmap.
    cbn [shape data f_of_Z Q_Scalar]. fold ws.
    rewrite linear_rows. cbn [bind].
    rewrite tzip_bcast_vector;
      [| rewrite (@linear_rows_length Q Q_Scalar); reflexivity | exact Hss].
    fold xrows wrows. f_equal. f_equal.
    replace (numel_of lead)
      with (length (map (fun row => map (dot row) wrows) xrows))
      by (unfold xrows; now rewrite length_map, chunks_length).
    rewrite zip_with_concat_repeat.
    - now rewrite map_map.
    - apply Forall_map, Forall_forall. intros row _.
      unfold wrows. now rewrite length_map, chunks_length. }
  assert (Hdq :
    tzip fmul (tmap f_of_Z weight) (unsqueeze_last scales)
    = Ok (mkTensor [out; inn]
            (zip_with fmul ws (concat (map (fun y => repeat y inn) ss))))).
  { unfold weight, scales, tmap, unsqueeze_last.
    cbn [shape data f_of_Z Q_Scalar]. fold ws.
    change [out; inn] with ([out] ++ [inn]).
    apply tzip_bcast_last; [rewrite numel_of_app; simpl; lia|].
    simpl. lia. }
  do 3 eexists. split; [exact Hfwd|]. split; [reflexivity|]. split.
  { unfold wf. cbn [shape data].
    rewrite (@concat_length_const _ out), length_map, numel_of_app.
    - unfold xrows. rewrite chunks_length. simpl. lia.
    - apply Forall_map, Forall_forall. intros row _.
      rewrite zip_with_length; unfold wrows;
        rewrite length_map, chunks_length; congruence. }
  split; [exact Hdq|]. split; [reflexivity|]. split.
  { unfold input. apply linear_rows. }
  split; [reflexivity|]. cbn [data]. fold xrows.
  assert (Hrows :
    chunks out inn
      (zip_with fmul ws (concat (map (fun y => repeat y inn) ss)))
    = zip_with (fun g s => map (fun w => fmul w s) g) wrows ss).
  { unfold wrows. subst out. now apply chunks_zip_spread. }
  rewrite Hrows.
  apply Forall2_concat_map. intros row. apply scaled_rows.
Qed.

Lemma weight_only_int8_forward_witness :
  exists y,
    WeightOnlyInt8Linear.forward (mkTensor [2; 2]%nat [1; -2; 3; 4]%Z)
      (mkTensor [2]%nat [1 # 2; 1 # 4]) (mkTensor [1; 2]%nat [1; 2])
    = Ok y /\
    shape y = [1; 2]%nat /\ wf y.
Proof.
  destruct (@weight_only_int8_forward [1%nat] 2 2 [1; 2] [1; -2; 3; 4]%Z
              [1 # 2; 1 # 4] eq_refl eq_refl eq_refl)
    as (y & _ & _ & H1 & H2 & H3 & _).
  exists y. repeat split; assumption.
Defined.

Local Close Scope Q_scope.

(** ** Inputs the quantizers reject *)

(** X17: what [dynamically_quantize_per_channel] rejects before it
    quantizes: a negative group size fails the "group size must be
    positive" assertion, whether the row length is a multiple of it or not;
    a positive group size that does not divide the row length fails the
    multiple assertion when non-multiple groups are disabled; a matrix
    without columns and without a group size divides by zero; and a 1-D
    input has no dimension 1. *)
Theorem dynamically_quantize_per_channel_rejects
  (F : Type) (SF : Scalar F) (r c : nat) (xs : list F)
  (quant_min quant_max : Z) (target_dtype scales_dtype : dtype) :
  (forall group_size en,
     group_size < 0 ->
     dynamically_quantize_per_channel (mkTensor [r; c] xs) quant_min
       quant_max target_dtype (Some group_size) scales_dtype en
     = Raise (AssertionError "group size must be positive")) /\
  (forall group_size,
     0 < group_size -> Z.of_nat c mod group_size <> 0 ->
     dynamically_quantize_per_channel (mkTensor [r; c] xs) quant_min
       quant_max target_dtype (Some group_size) scales_dtype false
     = Raise (AssertionError
                "weights dimension 1 must be a multiple of group size")) /\
  (forall group_size en,
     group_size = None \/ group_size = Some 0 ->
     dynamically_quantize_per_channel (mkTensor [r; 0%nat] xs) quant_min
       quant_max target_dtype group_size scales_dtype en
     = Raise ZeroDivisionError) /\
  (forall group_size en,
     dynamically_quantize_per_channel (mkTensor [c] xs) quant_min
       quant_max target_dtype group_size scales_dtype en
     = Raise IndexError).
Proof.
  split; [|split; [|split]].
  - intros gs en Hgs. unfold dynamically_quantize_per_channel.
    cbn [shape size_at nth_error bind].
    destruct (Z.eqb_spec gs 0); [lia|].
    destruct (Z.ltb_spec 0 gs); [lia|].
    destruct ((Z.of_nat c mod gs =? 0) || negb en); reflexivity.
  - intros gs Hgs Hmod. unfold dynamically_quantize_per_channel.
    cbn [shape size_at nth_error bind].
    destruct (Z.eqb_spec gs 0); [lia|].
    destruct (Z.eqb_spec (Z.of_nat c mod gs) 0); [contradiction|].
    destruct (Z.ltb_spec 0 gs); [|lia]. reflexivity.
  - intros gs en [-> | ->]; reflexivity.
  - intros gs en. reflexivity.
Qed.

(** X18: the group-wise int4 path rejects weights that hold a NaN, the
    per-channel int8 path does not look for one.  For a matrix of [r] rows
    of [q] groups of [k] > 1 elements with at least one NaN,
    [get_group_qparams_symmetric] fails its isnan assertion, and so do
    [group_quantize_tensor_symmetric],
    [prepare_int4_weight_and_scales_and_zeros] and, for every scales and
    zero-points, [quantize_per_channel_group];
    [dynamically_quantize_per_channel] returns a result of the usual
    shapes. *)
Theorem nan_weights
  (F : Type) (SF : Scalar F) (r q k : nat) (xs : list F) (n_bit gs : Z)
  (precision : dtype) (quant_min quant_max : Z) (dt scales_dtype : dtype)
  (en : bool) :
  (1 < k)%nat -> r <> 0%nat -> length xs = (r * (q * k))%nat ->
  narrowed (q * k) gs = Z.of_nat k ->
  count_nan (mkTensor [r; (q * k)%nat] xs) <> 0%nat ->
  let w := mkTensor [r; (q * k)%nat] xs in
  let isnan := AssertionError "torch.isnan(to_quant).sum() == 0" in
  get_group_qparams_symmetric w n_bit gs precision = Raise isnan /\
  group_quantize_tensor_symmetric w n_bit gs precision = Raise isnan /\
  prepare_int4_weight_and_scales_and_zeros w gs precision = Raise isnan /\
  (forall scales zero_points : list F,
     quantize_per_channel_group w (mkTensor [r; q] scales)
       (mkTensor [r; q] zero_points) quant_min quant_max dt gs
     = Raise isnan) /\
  exists quant scales zero_points,
    dynamically_quantize_per_channel w quant_min quant_max dt
      (Some (Z.of_nat k)) scales_dtype en = Ok (quant, scales, zero_points) /\
    shape quant = [r; (q * k)%nat] /\ shape scales = [r; q].
Proof.
  intros Hk Hr Hxs Hn Hnan w isnan.
  destruct (narrowed_narrowing_rule q gs Hk Hn) as [Hgs Hrule].
  assert (Hnum : numel_of [r; (q * k)%nat] = (r * q * k)%nat)
    by (rewrite numel_of_2; lia).
  assert (Hqp : forall n, get_group_qparams_symmetric w n gs precision
                          = Raise isnan).
  { intros n. unfold get_group_qparams_symmetric, w.
    cbn [shape last_size rev app bind]. fold (narrowed (q * k) gs).
    rewrite Hn. unfold py_mod.
    destruct (Z.ltb_spec 1 (Z.of_nat k)); [|lia].
    destruct (Z.eqb_spec (Z.of_nat k) 0); [lia|].
    cbn [assert bind].
    rewrite <- Nat2Z.inj_mod, Nat.Div0.mod_mul.
    cbn [Z.of_nat Z.eqb assert bind dim shape length Nat.eqb].
    rewrite Nat2Z.id.
    rewrite view_infer_groups by (rewrite ?Hnum, ?Nat.Div0.mod_mul; lia).
    cbn [bind]. unfold count_nan in *. cbn [data] in *.
    destruct (Nat.eqb_spec (length (filter fisnan xs)) 0);
      [contradiction | reflexivity]. }
  split; [apply Hqp|]. split.
  { unfold group_quantize_tensor_symmetric. now rewrite Hqp. }
  split.
  { unfold prepare_int4_weight_and_scales_and_zeros,
      group_quantize_tensor_symmetric. now rewrite Hqp. }
  split.
  { intros ss zs. unfold quantize_per_channel_group, w.
    destruct (Z.ltb_spec 1 gs); [|lia]. cbn [assert bind shape].
    change [r; (q * k)%nat] with ([r] ++ [(q * k)%nat]).
    change [r; q] with ([r] ++ [q]).
    rewrite last_size_app. cbn [bind]. rewrite narrow_step. cbn [bind].
    change (if (Z.of_nat (q * k) <? gs) && (q =? 1)%nat
            then Z.of_nat (q * k) else gs)
      with (narrowing_rule (q * k) q gs).
    rewrite Hrule. unfold py_mod.
    destruct (Z.eqb_spec (Z.of_nat k) 0); [lia|]. cbn [bind].
    rewrite <- Nat2Z.inj_mod, Nat.Div0.mod_mul.
    cbn [Z.of_nat Z.eqb assert bind dim shape length app Nat.eqb].
    rewrite Nat2Z.id.
    rewrite view_infer_groups by (rewrite ?Hnum, ?Nat.Div0.mod_mul; lia).
    cbn [bind]. unfold count_nan in *. cbn [data] in *.
    destruct (Nat.eqb_spec (length (filter fisnan xs)) 0);
      [contradiction | reflexivity]. }
  do 3 eexists. split;
    [apply dqpc_multiple; [lia | assumption | assumption]|].
  split; reflexivity.
Qed.

Lemma nan_weights_witness :
  get_group_qparams_symmetric
    (mkTensor [1; 2]%nat [Binary32.of_Z 1; SpecFloat.S754_nan]) 4 2 float32
  = Raise (AssertionError "torch.isnan(to_quant).sum() == 0") /\
  exists quant scales zero_points,
    dynamically_quantize_per_channel
      (mkTensor [1; 2]%nat [Binary32.of_Z 1; SpecFloat.S754_nan]) (-8) 7 int8
      (Some 2) float32 true = Ok (quant, scales, zero_points) /\
    shape quant = [1; 2]%nat /\ shape scales = [1; 1]%nat.
Proof.
  assert (H1 : (1 < 2)%nat) by (apply Nat.lt_succ_diag_r).
  assert (H2 : 1%nat <> 0%nat) by discriminate.
  destruct (@nan_weights _ Binary32_Scalar 1 1 2
              [Binary32.of_Z 1; SpecFloat.S754_nan] 4 2 float32 (-8) 7 int8
              float32 true H1 H2 eq_refl eq_refl H2)
    as (H3 & _ & _ & _ & H4).
  split; [exact H3 | exact H4].
Defined.

(** ** The range of the stored integers *)

Local Open Scope Q_scope.

Lemma clamp_to_range (lo hi : Z) (x : Q) :
  (lo <= hi)%Z -> (-128 <= lo)%Z -> (hi <= 127)%Z ->
  (lo <= clamp_to lo hi int8 x <= hi)%Z.
Proof.
  intros Hlh Hlo Hhi. unfold clamp_to, fclamp.
  cbn [fmin fmax f_of_Z f_to_Z Q_Scalar].
  set (y := Qmin (Qmax x (inject_Z lo)) (inject_Z hi)).
  assert (Hy : inject_Z lo <= y /\ y <= inject_Z hi).
  { unfold y. split; [|apply Q.le_min_r].
    apply Q.min_glb; [apply Q.le_max_r | now rewrite <- Zle_Qle]. }
  destruct Hy as [Hy1 Hy2].
  assert (Hf : (lo <= Qfloor y <= hi)%Z).
  { split.
    - rewrite <- (Qfloor_Z lo). now apply Qfloor_resp_le.
    - rewrite <- (Qfloor_Z hi). now apply Qfloor_resp_le. }
  assert (Hc : (lo <= Qceiling y <= hi)%Z).
  { split.
    - rewrite <- (Qceiling_Z lo). now apply Qceiling_resp_le.
    - rewrite <- (Qceiling_Z hi). now apply Qceiling_resp_le. }
  assert (Ht : (lo <= Qtrunc y <= hi)%Z)
    by (unfold Qtrunc; destruct (Qle_bool 0 y); assumption).
  rewrite wrap_int8_small by lia. exact Ht.
Qed.

(** X19: [group_quantize_tensor_symmetric] chooses the scales for [n_bit]
    bits but always quantizes to the int4 range: in exact arithmetic, for
    every [n_bit] >= 1, the integers it returns lie in [-8, 7]. *)
Theorem group_quantize_tensor_symmetric_range
  (r q k : nat) (xs : list Q) (n_bit gs : Z) (precision : dtype) :
  (1 < k)%nat -> r <> 0%nat -> length xs = (r * (q * k))%nat ->
  narrowed (q * k) gs = Z.of_nat k -> (1 <= n_bit)%Z ->
  exists w_int8 scales zeros,
    group_quantize_tensor_symmetric (mkTensor [r; (q * k)%nat] xs) n_bit gs
      precision = Ok (w_int8, scales, zeros) /\
    shape w_int8 = [r; (q * k)%nat] /\ wf w_int8 /\
    shape scales = [r; q] /\ shape zeros = [r; q] /\
    Forall (fun s => 0 < s) (data scales) /\
    Forall (fun v => (-8 <= v <= 7)%Z) (data w_int8).
Proof.
  intros Hk Hr Hxs Hn Hbit.
  pose proof (@get_group_qparams_symmetric_groups Q Q_Scalar r q k xs n_bit
                gs precision Hk Hr Hn (count_nan_Q _)) as Hqp.
  set (ss := map _ (chunks (r * q) k xs)) in Hqp at 1.
  set (zs := map _ (chunks (r * q) k xs)) in Hqp.
  assert (Hss : length ss = (r * q)%nat)
    by (unfold ss; now rewrite length_map, chunks_length).
  assert (Hzs : length zs = (r * q)%nat)
    by (unfold zs; now rewrite length_map, chunks_length).
  pose proof (@quantize_per_channel_group_grouped Q Q_Scalar r q k xs ss zs
                (-8) 7 int8 gs Hk Hn Hxs Hss Hzs (count_nan_Q _)) as Hquant.
  do 3 eexists. split.
  { unfold group_quantize_tensor_symmetric. rewrite Hqp. cbn [bind fst snd].
    change (2 ^ (4 - 1) - 1)%Z with 7%Z.
    change (- 2 ^ (4 - 1))%Z with (-8)%Z.
    rewrite Hquant. reflexivity. }
  split; [reflexivity|]. split.
  { unfold wf. cbn [shape data].
    rewrite length_map, !zip_with_length;
      rewrite ?zip_with_length; rewrite ?spread_length, ?numel_of_2; lia. }
  split; [reflexivity|]. split; [reflexivity|]. cbn [data]. split.
  - unfold ss. apply Forall_map, Forall_forall. intros g _.
    apply group_scale_pos.
  - apply Forall_map, Forall_forall. intros v _.
    apply clamp_to_range; lia.
Qed.

Lemma group_quantize_tensor_symmetric_range_witness :
  exists w_int8 scales zeros,
    group_quantize_tensor_symmetric
      (mkTensor [1; 2]%nat [1; 2]) 8 2 float32 = Ok (w_int8, scales, zeros) /\
    Forall (fun v => (-8 <= v <= 7)%Z) (data w_int8).
Proof.
  assert (H1 : (1 < 2)%nat) by (apply Nat.lt_succ_diag_r).
  assert (H2 : 1%nat <> 0%nat) by discriminate.
  assert (H3 : (1 <= 8)%Z) by discriminate.
  destruct (@group_quantize_tensor_symmetric_range 1 1 2 [1; 2] 8 2 float32
              H1 H2 eq_refl eq_refl H3)
    as (w & s & z & Hrun & _ & _ & _ & _ & _ & Hrange).
  exists w, s, z. split; assumption.
Defined.

Local Close Scope Q_scope.

Local Open Scope nat_scope.

(** ** The layout of packed scales and zeros *)

Lemma chunks_singletons {A} (xs : list A) :
  chunks (length xs) 1 xs = map (fun x => [x]) xs.
Proof. induction xs as [|x xs IH]; simpl; [reflexivity|]. now rewrite IH. Qed.

Lemma zip_with_singletons {A} (ss : list A) : forall zs,
  zip_with (@app A) (map (fun x => [x]) ss) (map (fun x => [x]) zs)
  = zip_with (fun s z => [s; z]) ss zs.
Proof.
  induction ss as [|s ss IH]; intros [|z zs]; simpl; try reflexivity.
  now rewrite IH.
Qed.

Lemma pairs_length {A} (ss : list A) : forall zs,
  length ss = length zs ->
  length (zip_with (fun s z => [s; z]) ss zs) = length ss /\
  Forall (fun c => length c = 2) (zip_with (fun s z => [s; z]) ss zs).
Proof.
  induction ss as [|s ss IH]; intros [|z zs] H; try discriminate;
    [split; [reflexivity | constructor]|].
  destruct (IH zs) as [H1 H2]; [simpl in H; lia|].
  simpl. split; [now rewrite H1 | now constructor].
Qed.

Lemma nth_pairs {A} (ss zs : list A) n s z :
  nth_error ss n = Some s -> nth_error zs n = Some z ->
  nth n (zip_with (fun s z => [s; z]) ss zs) [] = [s; z].
Proof.
  intros Hs Hz. apply nth_error_nth.
  now rewrite nth_error_zip_with, Hs, Hz.
Qed.

Lemma flat_map_length_const {A B} (f : A -> list B) n l :
  (forall x, length (f x) = n) -> length (flat_map f l) = length l * n.
Proof.
  intros H. induction l as [|x l IH]; simpl; [reflexivity|].
  now rewrite length_app, IH, H.
Qed.

Lemma dtype_eqb_refl dt : dtype_eqb dt dt = true.
Proof. now destruct dt. Qed.

Lemma pack_scales_and_zeros_run {A} s0 s1 (ss zs : list A) dt :
  length ss = s0 * s1 -> length zs = s0 * s1 ->
  pack_scales_and_zeros (mkTensor [s0; s1] ss) (mkTensor [s0; s1] zs)
    dt dt dt
  = Ok (mkTensor [s1; s0; 2]
          (concat
             (flat_map
                (fun j =>
                   map (fun i =>
                          nth (i * s1 + j)
                            (zip_with (fun s z => [s; z]) ss zs) [])
                     (seq 0 s0))
                (seq 0 s1)))).
Proof.
  intros Hss Hzs. unfold pack_scales_and_zeros. cbn [shape].
  destruct (list_eq_dec Nat.eq_dec [s0; s1] [s0; s1]); [|contradiction].
  rewrite dtype_eqb_refl. cbn [assert bind size_at nth_error].
  unfold view, numel. cbn [shape data].
  replace (numel_of [s0; s1; 1] =? numel_of [s0; s1]) with true
    by (symmetry; apply Nat.eqb_eq; simpl; lia).
  cbn [bind]. unfold cat_dim2. cbn [shape].
  rewrite !Nat.eqb_refl. cbn [andb bind].
  unfold rows. cbn [shape data rev app].
  replace (numel_of [s1; s0]) with (length ss) at 1 by (simpl; lia).
  replace (numel_of [s1; s0]) with (length zs) by (simpl; lia).
  rewrite !chunks_singletons, zip_with_singletons.
  unfold transpose01. cbn [shape data bind].
  destruct (@pairs_length _ ss zs ltac:(lia)) as [Hlen Hall].
  replace (s0 * s1) with (length (zip_with (fun s z => [s; z]) ss zs))
    by lia.
  change (numel_of [1 + 1]) with 2.
  rewrite chunks_concat by exact Hall.
  reflexivity.
Qed.

(** X20: [pack_scales_and_zeros] on (s0, s1) scales and zeros of the
    expected dtype gives an (s1, s0, 2) tensor that holds, at (j, i, 0) and
    (j, i, 1), the scale and the zero of row [i] and group [j]; scales and
    zeros of different shapes, or of a dtype other than the expected one,
    fail an assertion. *)
Theorem pack_scales_and_zeros_layout
  (A : Type) (s0 s1 : nat) (ss zs : list A) (dt : dtype) :
  length ss = s0 * s1 -> length zs = s0 * s1 ->
  let scales := mkTensor [s0; s1] ss in
  let zeros := mkTensor [s0; s1] zs in
  (exists packed,
     pack_scales_and_zeros scales zeros dt dt dt = Ok packed /\
     shape packed = [s1; s0; 2] /\ wf packed /\
     forall i j, i < s0 -> j < s1 ->
       nth_error (data packed) ((j * s0 + i) * 2)
       = nth_error ss (i * s1 + j) /\
       nth_error (data packed) ((j * s0 + i) * 2 + 1)
       = nth_error zs (i * s1 + j)) /\
  (forall (other : tensor A) sdt zdt precision,
     shape other <> shape scales ->
     pack_scales_and_zeros scales other sdt zdt precision
     = Raise (AssertionError "scales.shape == zeros.shape")) /\
  (forall sdt zdt precision,
     sdt <> precision ->
     pack_scales_and_zeros scales zeros sdt zdt precision
     = Raise (AssertionError "scales.dtype == precision")) /\
  (forall zdt precision,
     zdt <> precision ->
     pack_scales_and_zeros scales zeros precision zdt precision
     = Raise (AssertionError "zeros.dtype == precision")).
Proof.
  intros Hss Hzs scales zeros. split; [|split; [|split]].
  - eexists. split; [now apply pack_scales_and_zeros_run|].
    split; [reflexivity|].
    set (pairs := zip_with (fun s z => [s; z]) ss zs).
    set (blocks := flat_map _ (seq 0 s1)).
    assert (Hblocks : length blocks = s1 * s0).
    { unfold blocks. rewrite (@flat_map_length_const _ _ _ s0), length_seq;
        [reflexivity|].
      intros j. now rewrite length_map, length_seq. }
    assert (Hpair : forall i j, i < s0 -> j < s1 ->
              exists s z,
                nth_error ss (i * s1 + j) = Some s /\
                nth_error zs (i * s1 + j) = Some z /\
                nth_error blocks (j * s0 + i) = Some [s; z]).
    { intros i j Hi Hj.
      assert (Hidx : i * s1 + j < s0 * s1) by nia.
      destruct (nth_error ss (i * s1 + j)) as [s|] eqn:Es;
        [|apply nth_error_None in Es; lia].
      destruct (nth_error zs (i * s1 + j)) as [z|] eqn:Ez;
        [|apply nth_error_None in Ez; lia].
      exists s, z. split; [reflexivity|]. split; [reflexivity|].
      unfold blocks. rewrite flat_map_concat_map.
      rewrite (@nth_error_concat_const _ s0); [| |exact Hi].
      - rewrite nth_error_map, nth_error_seq.
        destruct (Nat.ltb_spec j s1); [|lia]. cbn [option_map].
        rewrite nth_error_map, nth_error_seq.
        destruct (Nat.ltb_spec i s0); [|lia]. cbn [option_map Nat.add].
        f_equal. now apply nth_pairs.
      - apply Forall_map, Forall_forall. intros j' _.
        now rewrite length_map, length_seq. }
    assert (Hall : Forall (fun c : list A => length c = 2) blocks).
    { unfold blocks. apply Forall_forall. intros c Hc.
      apply in_flat_map in Hc as (j & Hj & Hc).
      apply in_map_iff in Hc as (i & <- & Hi).
      apply in_seq in Hj, Hi.
      destruct (Hpair i j ltac:(lia) ltac:(lia)) as (s & z & Es & Ez & _).
      unfold pairs. now rewrite (nth_pairs _ _ _ Es Ez). }
    split.
    { unfold wf. cbn [shape data].
      rewrite (concat_length_const Hall), Hblocks. simpl. lia. }
    intros i j Hi Hj. cbn [data].
    destruct (Hpair i j Hi Hj) as (s & z & -> & -> & Hb).
    split.
    + replace ((j * s0 + i) * 2) with ((j * s0 + i) * 2 + 0) by lia.
      rewrite (@nth_error_concat_const _ 2) by (exact Hall || lia).
      now rewrite Hb.
    + rewrite (@nth_error_concat_const _ 2) by (exact Hall || lia).
      now rewrite Hb.
  - intros other sdt zdt precision Hne. unfold pack_scales_and_zeros.
    destruct (list_eq_dec Nat.eq_dec (shape scales) (shape other));
      [congruence | reflexivity].
  - intros sdt zdt precision Hne. unfold pack_scales_and_zeros.
    destruct (list_eq_dec Nat.eq_dec (shape scales) (shape zeros));
      [|contradiction].
    destruct (dtype_eqb_spec sdt precision); [contradiction | reflexivity].
  - intros zdt precision Hne. unfold pack_scales_and_zeros.
    destruct (list_eq_dec Nat.eq_dec (shape scales) (shape zeros));
      [|contradiction].
    rewrite dtype_eqb_refl.
    destruct (dtype_eqb_spec zdt precision); [contradiction | reflexivity].
Qed.

Lemma pack_scales_and_zeros_layout_witness :
  exists packed,
    pack_scales_and_zeros (mkTensor [2; 3] [1; 2; 3; 4; 5; 6]%Z)
      (mkTensor [2; 3] [7; 8; 9; 10; 11; 12]%Z) float16 float16 float16
    = Ok packed /\
    shape packed = [3; 2; 2] /\ wf packed.
Proof.
  destruct (proj1 (@pack_scales_and_zeros_layout Z 2 3 [1; 2; 3; 4; 5; 6]%Z
                     [7; 8; 9; 10; 11; 12]%Z float16 eq_refl eq_refl))
    as (packed & H1 & H2 & H3 & _).
  exists packed. repeat split; assumption.
Defined.

Local Close Scope nat_scope.

(** ** Replacing the layers of a model *)

Lemma torch_module_induction (P : torch_module -> Prop) :
  (forall i o, P (nn_Linear i o)) ->
  (forall v e, P (nn_Embedding v e)) ->
  (forall m, P (WeightOnlyInt8Linear_ m)) ->
  (forall m, P (QuantizedGroupEmbedding_ m)) ->
  (forall m, P (Int8DynActInt4WeightLinear_ m)) ->
  (forall children,
     Forall (fun named_child => P (snd named_child)) children ->
     P (nn_Module children)) ->
  forall m, P m.
Proof.
  intros H1 H2 H3 H4 H5 H6.
  fix IH 1.
  intros [i o | v e | m | m | m | children];
    [apply H1 | apply H2 | apply H3 | apply H4 | apply H5 |].
  apply H6. induction children as [|[name child] rest IHrest];
    constructor; [apply IH | exact IHrest].
Qed.

Lemma Int8DynActInt4WeightLinear_init_divisible (i o : nat) (gs : Z)
  (p sp : dtype) :
  0 < gs -> Z.of_nat i mod gs = 0 ->
  exists new,
    Int8DynActInt4WeightLinear.init (Z.of_nat i) (Z.of_nat o) false gs p sp
    = Ok new.
Proof.
  intros Hgs Hmod.
  assert (Hk : Z.to_nat gs <> 0%nat) by lia.
  assert (Ei : i = (i / Z.to_nat gs * Z.to_nat gs)%nat).
  { apply Nat2Z.inj. rewrite Nat2Z.inj_mul, Nat2Z.inj_div, Z2Nat.id by lia.
    pose proof (Z.div_mod (Z.of_nat i) gs ltac:(lia)). lia. }
  pose proof (@Int8DynActInt4WeightLinear_init_shapes o (i / Z.to_nat gs)
                (Z.to_nat gs) p sp Hk) as H.
  rewrite <- Ei, Z2Nat.id in H by lia. eexists. exact H.
Qed.

Section Replace8da4w.

Variable group_size : Z.
Variable padding_allowed : bool.
Variables precision scales_precision : dtype.
Hypothesis group_size_pos : 0 < group_size.

Let indivisible (l : string * (nat * nat)) : bool :=
  negb (Z.of_nat (fst (snd l)) mod group_size =? 0).

Let replaced (m : torch_module) : Prop :=
  if padding_allowed && existsb indivisible (linear_children m)
  then replace_linear_8da4w m group_size padding_allowed precision
         scales_precision
       = Raise (AssertionError "in_features % group_size == 0")
  else
    exists m',
      replace_linear_8da4w m group_size padding_allowed precision
        scales_precision = Ok m' /\
      linear_children m' = filter indivisible (linear_children m) /\
      match m' with nn_Linear _ _ => False | _ => True end
      = match m with nn_Linear _ _ => False | _ => True end.

Lemma replace_linear_8da4w_replaced (m : torch_module) : replaced m.
Proof.
  induction m as [i o | v e | m | m | m | children IH]
    using torch_module_induction;
    try (unfold replaced; cbn [linear_children existsb];
         rewrite andb_false_r; eexists; repeat split; reflexivity).
  unfold replaced. cbn [replace_linear_8da4w linear_children].
  match goal with |- context [for_each ?b children] => set (body := b) end.
  match goal with |- context [flat_map ?f children] => set (lc := f) end.
  assert (Hloop :
    if padding_allowed && existsb indivisible (flat_map lc children)
    then for_each body children
         = Raise (AssertionError "in_features % group_size == 0")
    else exists cs,
           for_each body children = Ok cs /\
           flat_map lc cs = filter indivisible (flat_map lc children)).
  { induction IH as [|[name child] rest Hchild _ IHrest].
    - rewrite andb_false_r. eexists. split; reflexivity.
    - cbn [flat_map for_each]. rewrite existsb_app, filter_app.
      assert (Hstep :
        if padding_allowed && existsb indivisible (lc (name, child))
        then body (name, child)
             = Raise (AssertionError "in_features % group_size == 0")
        else exists c',
               body (name, child) = Ok (name, c') /\
               lc (name, c') = filter indivisible (lc (name, child))).
      { cbn [snd] in Hchild. unfold body, lc.
        destruct child as [i o | v e | m | m | m | cs]; cbv beta iota;
          try (unfold replaced in Hchild;
               destruct (padding_allowed
                         && existsb indivisible (linear_children _));
               [ now rewrite Hchild
               | destruct Hchild as (m' & -> & Hl & Hk);
                 exists m'; split; [reflexivity|];
                 destruct m'; first [exact Hl | exfalso; rewrite Hk; exact I] ]).
        cbn [existsb filter]. unfold indivisible. cbn [fst snd].
        unfold _check_linear_int4_k, py_mod.
        destruct (Z.eqb_spec group_size 0); [lia|]. cbn [bind].
        destruct (Z.eqb_spec (Z.of_nat i mod group_size) 0) as [E|E];
          cbn [negb orb andb].
        - rewrite andb_false_r.
          destruct (Int8DynActInt4WeightLinear_init_divisible i o
                      precision scales_precision group_size_pos E)
            as [new ->].
          eexists. split; reflexivity.
        - destruct padding_allowed; cbn [andb orb].
          + unfold Int8DynActInt4WeightLinear.init, py_mod.
            destruct (Z.eqb_spec group_size 0); [lia|]. cbn [bind].
            destruct (Z.eqb_spec (Z.of_nat i mod group_size) 0);
              [contradiction | reflexivity].
          + eexists. split; reflexivity. }
      destruct (padding_allowed && existsb indivisible (lc (name, child)))
        eqn:E1.
      + apply andb_true_iff in E1 as [-> E1]. rewrite E1, Hstep.
        reflexivity.
      + destruct Hstep as (c' & -> & Hc). cbn [bind].
        replace (padding_allowed
                 && (existsb indivisible (lc (name, child))
                     || existsb indivisible (flat_map lc rest)))
          with (padding_allowed && existsb indivisible (flat_map lc rest))
          by (destruct padding_allowed; cbn [andb] in *;
              [now rewrite E1 | reflexivity]).
        destruct (padding_allowed && existsb indivisible (flat_map lc rest)).
        * now rewrite IHrest.
        * destruct IHrest as (cs & -> & Hcs). cbn [bind].
          eexists. split; [reflexivity|].
          cbn [flat_map]. now rewrite Hc, Hcs. }
  destruct (padding_allowed && existsb indivisible (flat_map lc children)).
  - now rewrite Hloop.
  - destruct Hloop as (cs & -> & Hcs). cbn [bind].
    eexists. split; [reflexivity|]. split; [exact Hcs | reflexivity].
Qed.

End Replace8da4w.

Lemma WeightOnlyInt8Linear_init_returns (i o : nat) :
  WeightOnlyInt8Linear.init (Z.of_nat i) (Z.of_nat o)
  = Ok (WeightOnlyInt8Linear.mk (Z.of_nat i) (Z.of_nat o)
          (mkNew [o; i] int8 uninitialized) (mkNew [o] bfloat16 ones)).
Proof.
  unfold WeightOnlyInt8Linear.init, torch_empty, torch_ones.
  change [Z.of_nat o; Z.of_nat i] with (map Z.of_nat [o; i]).
  change [Z.of_nat o] with (map Z.of_nat [o]).
  rewrite !torch_new_nat. reflexivity.
Qed.

Section ReplaceInt8.

Variable node_type : string.

Let selected (name : string) : bool :=
  (node_type =? "*")%string
  || ((node_type =? "output")%string && (name =? "output")%string)
  || ((node_type =? "!output")%string && negb (name =? "output")%string).

Let kept (l : string * (nat * nat)) : bool := negb (selected (fst l)).

Let replaced (m : torch_module) : Prop :=
  exists m',
    replace_linear_weight_only_int8_per_channel m node_type = Ok m' /\
    linear_children m' = filter kept (linear_children m) /\
    ((forall name, selected name = false) -> m' = m) /\
    match m' with nn_Linear _ _ => False | _ => True end
    = match m with nn_Linear _ _ => False | _ => True end.

Lemma replace_linear_weight_only_int8_per_channel_replaced
  (m : torch_module) : replaced m.
Proof.
  induction m as [i o | v e | m | m | m | children IH]
    using torch_module_induction;
    try (unfold replaced; eexists; repeat split; reflexivity).
  unfold replaced. cbn [replace_linear_weight_only_int8_per_channel
                          linear_children].
  match goal with |- context [for_each ?b children] => set (body := b) end.
  match goal with |- context [flat_map ?f children] => set (lc := f) end.
  assert (Hloop :
    exists cs,
      for_each body children = Ok cs /\
      flat_map lc cs = filter kept (flat_map lc children) /\
      ((forall name, selected name = false) -> cs = children)).
  { induction IH as [|[name child] rest Hchild _ IHrest].
    - eexists. repeat split; reflexivity.
    - cbn [flat_map for_each]. rewrite filter_app.
      assert (Hstep :
        exists c',
          body (name, child) = Ok (name, c') /\
          lc (name, c') = filter kept (lc (name, child)) /\
          ((forall name, selected name = false) -> c' = child)).
      { cbn [snd] in Hchild. unfold body, lc.
        destruct child as [i o | v e | m | m | m | cs]; cbv beta iota;
          try (destruct Hchild as (m' & -> & Hl & Hu & Hk);
               exists m'; split; [reflexivity|]; split; [|exact Hu];
               destruct m'; first [exact Hl | exfalso; rewrite Hk; exact I]).
        cbn [filter]. unfold kept. cbn [fst]. fold (selected name).
        destruct (selected name) eqn:Es; cbn [negb].
        - rewrite WeightOnlyInt8Linear_init_returns. cbn [bind].
          eexists. split; [reflexivity|]. split; [reflexivity|].
          intros Hnone. rewrite Hnone in Es. discriminate.
        - eexists. repeat split; reflexivity. }
      destruct Hstep as (c' & -> & Hc & Hu).
      destruct IHrest as (cs & -> & Hcs & Hus). cbn [bind].
      eexists. split; [reflexivity|]. split.
      + cbn [flat_map]. now rewrite Hc, Hcs.
      + intros Hnone. now rewrite Hu, Hus. }
  destruct Hloop as (cs & -> & Hcs & Hus). cbn [bind].
  eexists. split; [reflexivity|]. split; [exact Hcs|].
  split; [|reflexivity]. intros Hnone. now rewrite Hus.
Qed.

End ReplaceInt8.

Lemma QuantizedGroupEmbedding_init_returns (v e : nat) (group_size : option Z)
  (dt : dtype) :
  let g := match group_size with None => Z.of_nat e | Some g => g end in
  if g =? 0
  then QuantizedGroupEmbedding.init (Z.of_nat v) (Z.of_nat e) group_size dt
       = Raise ZeroDivisionError
  else exists new,
         QuantizedGroupEmbedding.init (Z.of_nat v) (Z.of_nat e) group_size dt
         = Ok new.
Proof.
  intros g. unfold QuantizedGroupEmbedding.init. fold g.
  unfold torch_empty.
  change [Z.of_nat v; Z.of_nat e] with (map Z.of_nat [v; e]).
  rewrite torch_new_nat. cbn [bind].
  unfold py_floordiv. destruct (g =? 0); [reflexivity|]. cbn [bind].
  unfold torch_ones.
  destruct (Z.ltb_spec 1 ((Z.of_nat e + g - 1) / g)) as [H|H].
  - replace [Z.of_nat v; (Z.of_nat e + g - 1) / g]
      with (map Z.of_nat [v; Z.to_nat ((Z.of_nat e + g - 1) / g)])
      by (cbn [map]; rewrite Z2Nat.id by lia; reflexivity).
    rewrite torch_new_nat. cbn [bind]. eexists. reflexivity.
  - change [Z.of_nat v] with (map Z.of_nat [v]).
    rewrite torch_new_nat. cbn [bind].
    eexists. reflexivity.
Qed.

Section ReplaceEmbedding.

Variable bitwidth : Z.
Variable group_size : option Z.

Let degenerate (l : string * (nat * nat)) : bool :=
  match group_size with
  | None => Z.of_nat (snd (snd l)) =? 0
  | Some g => g =? 0
  end.

Let replaced (m : torch_module) : Prop :=
  if existsb degenerate (embedding_children m)
  then replace_embedding_weight_only_grouped_int8_per_channel m bitwidth
         group_size
       = Raise ZeroDivisionError
  else
    exists m',
      replace_embedding_weight_only_grouped_int8_per_channel m bitwidth
        group_size = Ok m' /\
      embedding_children m' = [] /\
      linear_children m' = linear_children m /\
      match m' with nn_Embedding _ _ => False | _ => True end
      = match m with nn_Embedding _ _ => False | _ => True end /\
      match m' with nn_Linear _ _ => False | _ => True end
      = match m with nn_Linear _ _ => False | _ => True end.

Lemma replace_embedding_weight_only_grouped_int8_per_channel_replaced
  (m : torch_module) : replaced m.
Proof.
  induction m as [i o | v e | m | m | m | children IH]
    using torch_module_induction;
    try (unfold replaced; cbn [embedding_children existsb];
         eexists; repeat split; reflexivity).
  unfold replaced.
  cbn [replace_embedding_weight_only_grouped_int8_per_channel
         embedding_children linear_children].
  match goal with |- context [for_each ?b children] => set (body := b) end.
  match goal with
  | |- context [existsb _ (flat_map ?f children)] => set (ec := f)
  end.
  match goal with
  | |- context [_ = flat_map ?f children] => set (lc := f)
  end.
  assert (Hloop :
    if existsb degenerate (flat_map ec children)
    then for_each body children = Raise ZeroDivisionError
    else exists cs,
           for_each body children = Ok cs /\
           flat_map ec cs = [] /\
           flat_map lc cs = flat_map lc children).
  { induction IH as [|[name child] rest Hchild _ IHrest].
    - eexists. repeat split; reflexivity.
    - cbn [flat_map for_each]. rewrite existsb_app.
      assert (Hstep :
        if existsb degenerate (ec (name, child))
        then body (name, child) = Raise ZeroDivisionError
        else exists c',
               body (name, child) = Ok (name, c') /\
               ec (name, c') = [] /\
               lc (name, c') = lc (name, child)).
      { cbn [snd] in Hchild. unfold body, ec, lc.
        destruct child as [i o | v e | m | m | m | cs]; cbv beta iota;
          try (unfold replaced in Hchild;
               destruct (existsb degenerate (embedding_children _));
               [ now rewrite Hchild
               | destruct Hchild as (m' & -> & He & Hl & Hk & Hk');
                 exists m'; split; [reflexivity|];
                 destruct m';
                 first [ split; [exact He | exact Hl]
                       | exfalso; rewrite Hk; exact I
                       | exfalso; rewrite Hk'; exact I ] ]).
        - eexists. repeat split; reflexivity.
        - cbn [existsb]. rewrite orb_false_r.
          pose proof (QuantizedGroupEmbedding_init_returns v e group_size
                        float16) as Hinit.
          cbv zeta in Hinit. unfold degenerate. cbn [snd].
          destruct group_size as [g|].
          + destruct (g =? 0); [now rewrite Hinit|].
            destruct Hinit as [new ->]. eexists. repeat split; reflexivity.
          + destruct (Z.of_nat e =? 0); [now rewrite Hinit|].
            destruct Hinit as [new ->]. eexists. repeat split; reflexivity. }
      destruct (existsb degenerate (ec (name, child))).
      + now rewrite Hstep.
      + destruct Hstep as (c' & -> & Hc & Hl). cbn [bind orb].
        destruct (existsb degenerate (flat_map ec rest)).
        * now rewrite IHrest.
        * destruct IHrest as (cs & -> & Hcs & Hls). cbn [bind].
          eexists. split; [reflexivity|]. cbn [flat_map].
          now rewrite Hc, Hcs, Hl, Hls. }
  destruct (existsb degenerate (flat_map ec children)).
  - now rewrite Hloop.
  - destruct Hloop as (cs & -> & Hcs & Hls). cbn [bind].
    eexists. split; [reflexivity|]. repeat split; assumption.
Qed.

End ReplaceEmbedding.

(** X21: [replace_linear_8da4w] with a positive group size.  Without
    [padding_allowed] it returns, and the linear layers left in the model
    are exactly those whose [in_features] is not a multiple of the group
    size; the same holds whenever every linear layer is a multiple.  With
    [padding_allowed] and a linear layer that is not a multiple, nothing is
    padded: the constructor of the new module raises the assertion on
    [in_features % group_size]. *)
Theorem replace_linear_8da4w_padding (module : torch_module) (group_size : Z)
  (padding_allowed : bool) (precision scales_precision : dtype) :
  0 < group_size ->
  let indivisible := fun l : string * (nat * nat) =>
    negb (Z.of_nat (fst (snd l)) mod group_size =? 0) in
  (padding_allowed = true ->
   existsb indivisible (linear_children module) = true ->
   replace_linear_8da4w module group_size padding_allowed precision
     scales_precision
   = Raise (AssertionError "in_features % group_size == 0")) /\
  (padding_allowed = false \/
   existsb indivisible (linear_children module) = false ->
   exists module',
     replace_linear_8da4w module group_size padding_allowed precision
       scales_precision = Ok module' /\
     linear_children module'
     = filter indivisible (linear_children module)).
Proof.
  intros Hpos indivisible.
  pose proof (replace_linear_8da4w_replaced padding_allowed precision
                scales_precision Hpos module) as H.
  cbv beta zeta in H. subst indivisible. cbv beta. split.
  - intros -> E. rewrite E in H. exact H.
  - intros Hor.
    match type of H with
    | if ?c then _ else _ => assert (E : c = false)
    end.
    { destruct Hor as [-> | ->]; [reflexivity | apply andb_false_r]. }
    rewrite E in H. destruct H as (m' & H1 & H2 & _).
    exists m'. split; assumption.
Qed.

Lemma replace_linear_8da4w_padding_witness :
  0 < 4 /\
  replace_linear_8da4w
    (nn_Module [("wq"%string, nn_Linear 8 4);
                ("layer"%string, nn_Module [("w1"%string, nn_Linear 6 2)]);
                ("output"%string, nn_Linear 10 3)])
    4 true float32 float32
  = Raise (AssertionError "in_features % group_size == 0") /\
  exists module',
    replace_linear_8da4w
      (nn_Module [("wq"%string, nn_Linear 8 4);
                  ("layer"%string, nn_Module [("w1"%string, nn_Linear 6 2)]);
                  ("output"%string, nn_Linear 10 3)])
      4 false float32 float32 = Ok module' /\
    linear_children module' = [("w1"%string, (6, 2)%nat); ("output"%string, (10, 3)%nat)].
Proof.
  assert (Hpos : 0 < 4) by reflexivity.
  split; [exact Hpos|]. split.
  - exact (proj1 (@replace_linear_8da4w_padding
                    (nn_Module [("wq"%string, nn_Linear 8 4);
                                ("layer"%string, nn_Module [("w1"%string, nn_Linear 6 2)]);
                                ("output"%string, nn_Linear 10 3)])
                    4 true float32 float32 Hpos) eq_refl eq_refl).
  - exact (proj2 (@replace_linear_8da4w_padding
                    (nn_Module [("wq"%string, nn_Linear 8 4);
                                ("layer"%string, nn_Module [("w1"%string, nn_Linear 6 2)]);
                                ("output"%string, nn_Linear 10 3)])
                    4 false float32 float32 Hpos) (or_introl eq_refl)).
Defined.

(** X22: [replace_linear_weight_only_int8_per_channel] always returns.  A
    linear layer is replaced when the node type is "*", or is "output" and
    the layer is named "output", or is "!output" and the layer has another
    name; the layers left are the others, wherever they are in the model.
    With any other node type the model is returned unchanged. *)
Theorem replace_linear_weight_only_int8_per_channel_selects
  (module : torch_module) (node_type : string) :
  let selected := fun name : string =>
    (node_type =? "*")%string
    || ((node_type =? "output")%string && (name =? "output")%string)
    || ((node_type =? "!output")%string && negb (name =? "output")%string) in
  exists module',
    replace_linear_weight_only_int8_per_channel module node_type
    = Ok module' /\
    linear_children module'
    = filter (fun l => negb (selected (fst l))) (linear_children module) /\
    ((node_type =? "*")%string = false ->
     (node_type =? "output")%string = false ->
     (node_type =? "!output")%string = false ->
     module' = module).
Proof.
  intros selected.
  destruct (replace_linear_weight_only_int8_per_channel_replaced node_type
              module) as (m' & H1 & H2 & H3 & _).
  exists m'. split; [exact H1|]. split; [exact H2|].
  intros E1 E2 E3. apply H3. intros name. now rewrite E1, E2, E3.
Qed.

Lemma for_each_ext {A B} (f g : A -> result B) (l : list A) :
  Forall (fun x => f x = g x) l -> for_each f l = for_each g l.
Proof.
  induction 1 as [|x rest Hx _ IH]; [reflexivity|].
  cbn [for_each]. fold (for_each f rest). fold (for_each g rest).
  now rewrite Hx, IH.
Qed.

Lemma replace_embedding_bitwidth (module : torch_module)
  (bitwidth bitwidth' : Z) (group_size : option Z) :
  replace_embedding_weight_only_grouped_int8_per_channel module bitwidth
    group_size
  = replace_embedding_weight_only_grouped_int8_per_channel module bitwidth'
      group_size.
Proof.
  induction module as [i o | v e | m | m | m | children IH]
    using torch_module_induction; try reflexivity.
  cbn [replace_embedding_weight_only_grouped_int8_per_channel].
  match goal with
  | |- bind (for_each ?f _) _ = bind (for_each ?g _) _ =>
      rewrite (@for_each_ext _ _ f g children); [reflexivity|]
  end.
  eapply Forall_impl; [|exact IH].
  intros [name child] Hchild. cbn [snd] in Hchild.
  destruct child; try reflexivity; now rewrite Hchild.
Qed.

(** X23: [replace_embedding_weight_only_grouped_int8_per_channel] replaces
    every embedding of the model and leaves its linear layers as they are,
    unless the group size is 0, or is None and an embedding has dimension
    0: then the first such embedding raises ZeroDivisionError.  The
    bitwidth has no effect on the result. *)
Theorem replace_embedding_weight_only_grouped_int8_per_channel_all
  (module : torch_module) (bitwidth : Z) (group_size : option Z) :
  let degenerate := fun l : string * (nat * nat) =>
    match group_size with
    | None => Z.of_nat (snd (snd l)) =? 0
    | Some g => g =? 0
    end in
  (existsb degenerate (embedding_children module) = true ->
   replace_embedding_weight_only_grouped_int8_per_channel module bitwidth
     group_size = Raise ZeroDivisionError) /\
  (existsb degenerate (embedding_children module) = false ->
   exists module',
     replace_embedding_weight_only_grouped_int8_per_channel module bitwidth
       group_size = Ok module' /\
     embedding_children module' = [] /\
     linear_children module' = linear_children module) /\
  replace_embedding_weight_only_grouped_int8_per_channel module bitwidth
    group_size
  = replace_embedding_weight_only_grouped_int8_per_channel module 8
      group_size.
Proof.
  intros degenerate.
  pose proof (replace_embedding_weight_only_grouped_int8_per_channel_replaced
                bitwidth group_size module) as H.
  cbv beta zeta in H. subst degenerate. cbv beta.
  split; [|split].
  - intros E. rewrite E in H. exact H.
  - intros E. rewrite E in H. destruct H as (m' & H1 & H2 & H3 & _).
    exists m'. repeat split; assumption.
  - apply replace_embedding_bitwidth.
Qed.
